(** * The synchronization layer of tightdb/util/thread.hpp, and the median of
      test/bench/util/results.cpp

    A shallow embedding of the inline member functions of [Thread], [Mutex],
    [LockGuard], [UniqueLock], [RobustMutex], [RobustLockGuard], [CondVar]
    and [Atomic], and of [Results::submit], the median computation of
    [Results::Measurement::finish] and the functions that compute the mode.

    The code is modelled from the point of view of one calling thread.  A
    member function is a computation over a [World]: the objects the thread
    can reach (mutexes, shared parts of condition variables, semaphores,
    heap-allocated condition variables, the memory the mutex protects), the
    log of the calls that leave the header (operating-system primitives,
    member functions defined in thread.cpp, the recovery callback) and of the
    accesses to the shared part of a condition variable, and an
    oracle [Env] for everything the thread does not control: what other
    threads and processes did to shared memory while the caller did not hold
    the mutex, and what the operating system answers. *)

From Stdlib Require Import ZArith NArith List Bool Lia.
From Stdlib Require Floats.
From Equations Require Import Equations.
From Equations.Prop Require Import Logic.
From stdpp Require Import base option gmap list strings.
Import ListNotations.


(** ** Machine integers *)

(** [uint64_t] and [uint32_t] values are kept in [N]; the wrap-around of
    [++] and [--] is written out. *)
Definition uint64_incr (x : N) : N := ((x + 1) mod 2 ^ 64)%N.
Definition uint32_incr (x : N) : N := ((x + 1) mod 2 ^ 32)%N.
Definition uint32_decr (x : N) : N := ((x + (2 ^ 32 - 1)) mod 2 ^ 32)%N.

(** The values of a [uint32_t]. *)
Definition is_uint32 (x : N) : Prop := (x < 2 ^ 32)%N.

(** ** Addresses, exceptions, outcomes *)

(** Objects live at addresses; a null pointer is [None]. *)
Definition addr := nat.

Inductive exn : Type :=
| NotRecoverable                 (* RobustMutex::NotRecoverable *)
| bad_alloc                      (* thrown by operator new *)
| runtime_error (code : Z)       (* thrown by Thread::create_failed *)
| app_exception (tag : nat).     (* anything that code of the application throws *)

(** How a call ends.  [Terminated] is std::terminate, TIGHTDB_TERMINATE or a
    failed assertion; [Undefined] is behaviour that C++ or POSIX leaves
    undefined (a null pointer is dereferenced, an object that was never
    initialised is used); [Blocked] means the calling thread never resumes;
    [OutOfFuel] is the model's bound on loop iterations running out, and
    stands for no behaviour of the code. *)
Inductive outcome (A : Type) : Type :=
| Returned (a : A)
| Thrown (e : exn)
| Terminated
| Undefined
| Blocked
| OutOfFuel.
Arguments Returned {A} a.
Arguments Thrown {A} e.
Arguments Terminated {A}.
Arguments Undefined {A}.
Arguments Blocked {A}.
Arguments OutOfFuel {A}.

(** ** Build and platform configuration *)

(** What a function declared TIGHTDB_NORETURN does instead of returning. *)
Inductive noreturn : Type :=
| nr_throw (e : exn)
| nr_terminate.

(** What [CondVar::handle_wait_error] (defined in thread.cpp) does with an
    error code. *)
Inductive wait_error_action : Type :=
| wea_return
| wea_throw (e : exn)
| wea_terminate.

(** The preprocessor switches the header tests, the values of the <cerrno>
    constants it names (positive, as POSIX requires), and the behaviour of
    the functions it declares but does not define.  All of them are
    parameters of the model. *)
Record Config : Type := mkConfig {
  TIGHTDB_CONDVAR_EMULATION : bool;
  TIGHTDB_DEBUG : bool;                      (* TIGHTDB_ASSERT is checked *)
  robust_platform : bool;                    (* RobustMutex::is_robust_on_this_platform() *)
  ETIMEDOUT : positive;
  EOWNERDEAD : positive;
  ENOTRECOVERABLE : positive;
  EPERM : positive;
  EINVAL : positive;
  create_failed : Z -> noreturn;             (* Thread::create_failed *)
  handle_wait_error : Z -> wait_error_action (* CondVar::handle_wait_error *)
}.

(** ** Objects in memory *)

(** [pthread_cond_t]. *)
Inductive pthread_cond_t : Type :=
| cond_initialized
| cond_destroyed.

(** [CondVar::SharedPart]: two counters under TIGHTDB_CONDVAR_EMULATION, a
    native condition variable otherwise. *)
Inductive SharedPart : Type :=
| SharedPart_emulation (signal_counter : N) (waiters : N)
| SharedPart_native (m_impl : pthread_cond_t).

(** The state of a mutex as POSIX defines it, seen from the calling thread. *)
Inductive mutex_status : Type :=
| unlocked               (* free, or held by a thread that will release it *)
| abandoned              (* the holder died while holding the lock *)
| locked                 (* held by the calling thread *)
| locked_inconsistent    (* held by the calling thread, which was told that
                            the previous holder died *)
| unrecoverable.         (* released while inconsistent *)

(** [pthread_mutex_t]. *)
Record pthread_mutex_t : Type := mkMutex {
  robust_attr : bool;    (* initialised with PTHREAD_MUTEX_ROBUST *)
  status : mutex_status
}.

Definition held (mu : pthread_mutex_t) : bool :=
  match status mu with
  | locked | locked_inconsistent => true
  | _ => false
  end.

(** ** Events and the environment *)

Inductive event : Type :=
| ev_pthread_create (func : nat)
| ev_new
| ev_pthread_mutex_lock (m : addr)
| ev_pthread_mutex_unlock (m : addr)
| ev_low_level_lock (m : addr)
| ev_mark_as_consistent (m : addr)
| ev_recover_func
| ev_handle_wait_error (r : Z)
| ev_sem_wait (s : addr)
| ev_sem_post (s : addr)
| ev_sem_close (s : addr)
| ev_sched_yield
| ev_pthread_cond_wait (c : addr + addr) (m : addr)
| ev_pthread_cond_timedwait (c : addr + addr) (m : addr) (tp : Z)
| ev_pthread_cond_signal (c : addr + addr)
| ev_pthread_cond_broadcast (c : addr + addr)
| ev_pthread_cond_destroy (c : addr)
| ev_delete (c : addr)
| ev_load_signal_counter (p : addr) (v : N)     (* reads and writes of *m_shared_part *)
| ev_store_signal_counter (p : addr) (v : N)
| ev_load_waiters (p : addr) (v : N)
| ev_store_waiters (p : addr) (v : N).

(** Oracles, indexed by the number of events logged so far. *)
Record Env : Type := mkEnv {
  (* what other threads and processes did to the shared parts while the
     caller did not hold the mutex *)
  other_threads : nat -> gmap addr SharedPart -> gmap addr SharedPart;
  (* the value of the semaphore as sem_wait finds it, from the value the
     caller last saw *)
  other_posts : nat -> N -> N;
  (* sem_wait is interrupted by a signal and returns without a permit *)
  sem_interrupted : nat -> bool;
  (* the return value of pthread_create, pthread_cond_wait,
     pthread_cond_timedwait, pthread_cond_destroy *)
  os_result : nat -> Z;
  (* operator new fails *)
  alloc_fails : nat -> bool;
  (* what the copy constructor of the function object throws, if anything,
     when [new F(func)] runs it *)
  copy_throws : nat -> option exn
}.

(** ** The world of the calling thread *)

Record World : Type := mkWorld {
  cfg : Config;
  env : Env;
  mutexes : gmap addr pthread_mutex_t;
  shared_memory : gmap addr SharedPart;
  private_conds : gmap addr pthread_cond_t;  (* allocated with new *)
  semaphores : gmap addr N;                  (* open handles, with the value *)
  protected_data : gmap addr Z;              (* what the mutex protects *)
  trace : list event
}.

Definition set_mutexes (f : gmap addr pthread_mutex_t -> gmap addr pthread_mutex_t)
    (w : World) : World :=
  mkWorld (cfg w) (env w) (f (mutexes w)) (shared_memory w) (private_conds w)
          (semaphores w) (protected_data w) (trace w).
Definition set_shared_memory (f : gmap addr SharedPart -> gmap addr SharedPart)
    (w : World) : World :=
  mkWorld (cfg w) (env w) (mutexes w) (f (shared_memory w)) (private_conds w)
          (semaphores w) (protected_data w) (trace w).
Definition set_private_conds (f : gmap addr pthread_cond_t -> gmap addr pthread_cond_t)
    (w : World) : World :=
  mkWorld (cfg w) (env w) (mutexes w) (shared_memory w) (f (private_conds w))
          (semaphores w) (protected_data w) (trace w).
Definition set_semaphores (f : gmap addr N -> gmap addr N) (w : World) : World :=
  mkWorld (cfg w) (env w) (mutexes w) (shared_memory w) (private_conds w)
          (f (semaphores w)) (protected_data w) (trace w).
Definition set_protected_data (f : gmap addr Z -> gmap addr Z) (w : World) : World :=
  mkWorld (cfg w) (env w) (mutexes w) (shared_memory w) (private_conds w)
          (semaphores w) (f (protected_data w)) (trace w).
Definition set_trace (f : list event -> list event) (w : World) : World :=
  mkWorld (cfg w) (env w) (mutexes w) (shared_memory w) (private_conds w)
          (semaphores w) (protected_data w) (f (trace w)).

(** ** Computations *)

Definition M (A : Type) : Type := World -> outcome A * World.

Definition ret {A} (a : A) : M A := fun w => (Returned a, w).

Definition bind {A B} (c : M A) (k : A -> M B) : M B :=
  fun w =>
    match c w with
    | (Returned a, w1) => k a w1
    | (Thrown e, w1) => (Thrown e, w1)
    | (Terminated, w1) => (Terminated, w1)
    | (Undefined, w1) => (Undefined, w1)
    | (Blocked, w1) => (Blocked, w1)
    | (OutOfFuel, w1) => (OutOfFuel, w1)
    end.

Declare Scope cxx_scope.
Delimit Scope cxx_scope with cxx.
Notation "'let*' x ':=' c 'in' k" := (bind c (fun x => k))
  (at level 10, x name, c at level 100, k at level 200) : cxx_scope.
Notation "c ';;;' k" := (bind c (fun _ => k))
  (at level 100, k at level 200, right associativity) : cxx_scope.
Open Scope cxx_scope.

Definition throw {A} (e : exn) : M A := fun w => (Thrown e, w).
Definition terminate {A} : M A := fun w => (Terminated, w).
Definition undefined {A} : M A := fun w => (Undefined, w).
Definition blocked {A} : M A := fun w => (Blocked, w).
Definition out_of_fuel {A} : M A := fun w => (OutOfFuel, w).

(** [try { c } catch (...) { h }]: the handler sees the exception so that it
    can rethrow it. *)
Definition try_catch {A} (c : M A) (h : exn -> M A) : M A :=
  fun w =>
    match c w with
    | (Thrown e, w1) => h e w1
    | r => r
    end.

Definition never_returns {A} (n : noreturn) : M A :=
  match n with
  | nr_throw e => throw e
  | nr_terminate => terminate
  end.

Definition get {A} (f : World -> A) : M A := fun w => (Returned (f w), w).
Definition modify (f : World -> World) : M unit := fun w => (Returned tt, f w).

(** The index of the next event. *)
Definition now : M nat := get (fun w => length (trace w)).
Definition log (e : event) : M unit := modify (set_trace (fun t => t ++ [e])).

Arguments ret {A} a w /.
Arguments throw {A} e w /.
Arguments terminate {A} w /.
Arguments undefined {A} w /.
Arguments blocked {A} w /.
Arguments out_of_fuel {A} w /.
Arguments get {A} f w /.
Arguments modify f w /.
Arguments log e w /.
Arguments now w /.

(** TIGHTDB_ASSERT is a macro of tightdb/util/assert.hpp: in a debug build
    ([TIGHTDB_DEBUG], a parameter of the configuration) a false condition
    ends the process; otherwise the macro expands to nothing. *)
Definition TIGHTDB_ASSERT (c : bool) : M unit :=
  let* debug := get (fun w => TIGHTDB_DEBUG (cfg w)) in
  if debug && negb c then terminate else ret tt.

(** ** Operating-system primitives *)

(** Other threads ran while the caller did not hold the mutex. *)
Definition interference (k : nat) : M unit :=
  modify (fun w => set_shared_memory (other_threads (env w) k) w).

Definition set_status (m : addr) (mu : pthread_mutex_t) (s : mutex_status) : M unit :=
  modify (set_mutexes (fun ms => <[m := mkMutex (robust_attr mu) s]> ms)).

(** What pthread_mutex_lock does to the mutex at [m], at event [k].  A
    mutex the caller already holds deadlocks; an abandoned one is handed
    over with EOWNERDEAD when it is robust, and is never released when it is
    not. *)
Definition mutex_lock_effect (m : addr) (k : nat) : M Z :=
  let* mx := get (fun w => mutexes w !! m) in
  match mx with
  | None => undefined
  | Some mu =>
      match status mu with
      | locked | locked_inconsistent => blocked
      | unlocked => interference k ;;; set_status m mu locked ;;; ret 0%Z
      | abandoned =>
          if robust_attr mu
          then interference k ;;; set_status m mu locked_inconsistent ;;;
               get (fun w => Z.pos (EOWNERDEAD (cfg w)))
          else blocked
      | unrecoverable => get (fun w => Z.pos (ENOTRECOVERABLE (cfg w)))
      end
  end.

Definition mutex_unlock_effect (m : addr) : M Z :=
  let* mx := get (fun w => mutexes w !! m) in
  match mx with
  | None => undefined
  | Some mu =>
      match status mu with
      | locked => set_status m mu unlocked ;;; ret 0%Z
      | locked_inconsistent => set_status m mu unrecoverable ;;; ret 0%Z
      | _ => if robust_attr mu then get (fun w => Z.pos (EPERM (cfg w))) else undefined
      end
  end.

Definition mutex_consistent_effect (m : addr) : M Z :=
  let* mx := get (fun w => mutexes w !! m) in
  match mx with
  | None => undefined
  | Some mu =>
      match status mu with
      | locked_inconsistent => set_status m mu locked ;;; ret 0%Z
      | _ => get (fun w => Z.pos (EINVAL (cfg w)))
      end
  end.

Definition pthread_mutex_lock (m : addr) : M Z :=
  let* k := now in
  log (ev_pthread_mutex_lock m) ;;;
  mutex_lock_effect m k.

Definition pthread_mutex_unlock (m : addr) : M Z :=
  log (ev_pthread_mutex_unlock m) ;;;
  mutex_unlock_effect m.

Definition pthread_create (func : nat) : M (Z * option nat) :=
  let* k := now in
  log (ev_pthread_create func) ;;;
  let* r := get (fun w => os_result (env w) k) in
  ret (r, if (r =? 0)%Z then Some k else None).

(** [new F(func)]: the allocation throws std::bad_alloc when it fails;
    then the copy constructor of [F] runs, and [F] being a template
    parameter it may throw anything. *)
Definition operator_new : M unit :=
  let* k := now in
  log ev_new ;;;
  let* fails := get (fun w => alloc_fails (env w) k) in
  if fails then throw bad_alloc
  else
    let* thrown := get (fun w => copy_throws (env w) k) in
    match thrown with
    | Some e => throw e
    | None => ret tt
    end.

Definition sem_wait (s : addr) : M unit :=
  let* k := now in
  log (ev_sem_wait s) ;;;
  let* sx := get (fun w => semaphores w !! s) in
  match sx with
  | None => undefined
  | Some v =>
      let* v' := get (fun w => other_posts (env w) k v) in
      let* intr := get (fun w => sem_interrupted (env w) k) in
      if intr then modify (set_semaphores (fun ss => <[s := v']> ss))
      else if (v' =? 0)%N then blocked
      else modify (set_semaphores (fun ss => <[s := (v' - 1)%N]> ss))
  end.

Definition sem_post (s : addr) : M unit :=
  log (ev_sem_post s) ;;;
  let* sx := get (fun w => semaphores w !! s) in
  match sx with
  | None => undefined
  | Some v => modify (set_semaphores (fun ss => <[s := (v + 1)%N]> ss))
  end.

Definition sem_close (s : addr) : M unit :=
  log (ev_sem_close s) ;;;
  modify (set_semaphores (fun ss => delete s ss)).

Definition sched_yield : M unit := log ev_sched_yield.

(** A [pthread_cond_t*] points to a condition variable allocated with new
    ([inl]) or to the [m_impl] of a shared part ([inr]). *)
Definition cond_ptr : Type := (addr + addr)%type.

Definition deref_cond (c : cond_ptr) : M pthread_cond_t :=
  match c with
  | inl a =>
      let* x := get (fun w => private_conds w !! a) in
      match x with Some pc => ret pc | None => undefined end
  | inr p =>
      let* x := get (fun w => shared_memory w !! p) in
      match x with Some (SharedPart_native pc) => ret pc | _ => undefined end
  end.

(** The waits of POSIX: the mutex is released, the thread sleeps, the mutex
    is taken again, and the call reports what happened.  A null or destroyed
    condition variable and a mutex the caller does not hold are undefined. *)
Definition cond_wait_effect (c : option cond_ptr) (m : addr) (k : nat) : M Z :=
  match c with
  | None => undefined
  | Some c =>
      let* pc := deref_cond c in
      let* mx := get (fun w => mutexes w !! m) in
      match pc, mx with
      | cond_initialized, Some mu =>
          if held mu then
            interference k ;;;
            let* r := get (fun w => os_result (env w) k) in
            let* eownerdead := get (fun w => Z.pos (EOWNERDEAD (cfg w))) in
            let* enotrec := get (fun w => Z.pos (ENOTRECOVERABLE (cfg w))) in
            (if (r =? eownerdead)%Z then set_status m mu locked_inconsistent
             else if (r =? enotrec)%Z then set_status m mu unrecoverable
             else ret tt) ;;;
            ret r
          else undefined
      | _, _ => undefined
      end
  end.

Definition pthread_cond_wait (c : option cond_ptr) (m : addr) : M Z :=
  let* k := now in
  match c with
  | Some c' => log (ev_pthread_cond_wait c' m)
  | None => ret tt
  end ;;;
  cond_wait_effect c m k.

Definition pthread_cond_timedwait (c : option cond_ptr) (m : addr) (tp : Z) : M Z :=
  let* k := now in
  match c with
  | Some c' => log (ev_pthread_cond_timedwait c' m tp)
  | None => ret tt
  end ;;;
  cond_wait_effect c m k.

Definition cond_notify_effect (c : option cond_ptr) : M Z :=
  match c with
  | None => undefined
  | Some c =>
      let* pc := deref_cond c in
      match pc with
      | cond_initialized => ret 0%Z
      | cond_destroyed => undefined
      end
  end.

Definition pthread_cond_signal (c : option cond_ptr) : M Z :=
  match c with
  | Some c' => log (ev_pthread_cond_signal c')
  | None => ret tt
  end ;;;
  cond_notify_effect c.

Definition pthread_cond_broadcast (c : option cond_ptr) : M Z :=
  match c with
  | Some c' => log (ev_pthread_cond_broadcast c')
  | None => ret tt
  end ;;;
  cond_notify_effect c.

(** pthread_cond_destroy on a condition variable allocated with new. *)
Definition pthread_cond_destroy (a : addr) : M Z :=
  let* k := now in
  log (ev_pthread_cond_destroy a) ;;;
  let* x := get (fun w => private_conds w !! a) in
  match x with
  | Some cond_initialized =>
      let* r := get (fun w => os_result (env w) k) in
      (if (r =? 0)%Z
       then modify (set_private_conds (fun cs => <[a := cond_destroyed]> cs))
       else ret tt) ;;;
      ret r
  | _ => undefined
  end.

Definition operator_delete (a : addr) : M unit :=
  log (ev_delete a) ;;;
  modify (set_private_conds (fun cs => delete a cs)).

(** ** The recovery callback *)

(** [recover_func] is a function object of the caller.  It works on the data
    the mutex protects and ends like any call: it returns, throws, or does
    not come back. *)
Definition recover_func_t : Type := gmap addr Z -> outcome unit * gmap addr Z.

Definition call_recover_func (f : recover_func_t) : M unit :=
  log ev_recover_func ;;;
  fun w =>
    let (r, d) := f (protected_data w) in
    (r, set_protected_data (fun _ => d) w).

(** ** class Thread *)

Module Thread.

Record t : Type := mk {
  m_id : option nat;     (* pthread_t, indeterminate until a thread is created *)
  m_joinable : bool
}.

(** [Thread::Thread(): m_joinable(false)] *)
Definition Thread : t := mk None false.

(** [void Thread::start(entry_func_type entry_func, void* arg)] *)
Definition start_entry (this : t) (func : nat) : M t :=
  let* p := pthread_create func in
  let '(r, id) := p in
  if negb (r =? 0)%Z then
    let* n := get (fun w => create_failed (cfg w) r) in
    never_returns n
  else ret (mk id (m_joinable this)).

(** [template<class F> Thread::Thread(F func): m_joinable(true)].  When the
    body throws, no object has been constructed. *)
Definition Thread_F (func : nat) : M t :=
  let this := mk None true in
  operator_new ;;;
  let* this := start_entry this func in
  ret this.

(** [template<class F> void Thread::start(F func)] *)
Definition start (this : t) (func : nat) : M t :=
  (if m_joinable this then terminate else ret tt) ;;;
  operator_new ;;;
  let* this := start_entry this func in
  ret (mk (m_id this) true).

(** [Thread::~Thread()] *)
Definition dtor (this : t) : M unit :=
  if m_joinable this then terminate else ret tt.

(** [bool Thread::joinable()] *)
Definition joinable (this : t) : bool := m_joinable this.

(** [template<class F> void* Thread::entry_point(void* cookie)], which the
    new thread runs: [func] is what the call of the function object
    does. *)
Definition entry_point (func : M unit) : M unit :=
  try_catch func (fun _ => terminate).

End Thread.

(** ** class Mutex *)

Module Mutex.

(** A [Mutex] is its [m_impl]; the model names it by its address. *)
Abbreviation t := addr (only parsing).

(** [void Mutex::lock()].  [lock_failed] is declared TIGHTDB_NORETURN and
    TIGHTDB_NOEXCEPT: it ends the process. *)
Definition lock (this : t) : M unit :=
  let* r := pthread_mutex_lock this in
  if (r =? 0)%Z then ret tt
  else terminate.

(** [void Mutex::unlock()] *)
Definition unlock (this : t) : M unit :=
  let* r := pthread_mutex_unlock this in
  TIGHTDB_ASSERT (r =? 0)%Z.

End Mutex.

(** ** class LockGuard *)

Module LockGuard.

Record t : Type := mk { m_mutex : Mutex.t }.

(** [LockGuard::LockGuard(Mutex& m)] *)
Definition LockGuard (m : Mutex.t) : M t :=
  let this := mk m in
  Mutex.lock (m_mutex this) ;;;
  ret this.

(** [LockGuard::~LockGuard()] *)
Definition dtor (this : t) : M unit :=
  Mutex.unlock (m_mutex this).

End LockGuard.

(** ** class UniqueLock *)

Module UniqueLock.

Record t : Type := mk {
  m_mutex : Mutex.t;
  m_is_locked : bool
}.

(** [UniqueLock::UniqueLock(Mutex& m)] *)
Definition UniqueLock (m : Mutex.t) : M t :=
  Mutex.lock m ;;;
  ret (mk m true).

(** [UniqueLock::UniqueLock(Mutex& m, defer_lock_tag)] *)
Definition UniqueLock_defer (m : Mutex.t) : M t :=
  ret (mk m false).

(** [UniqueLock::~UniqueLock()] *)
Definition dtor (this : t) : M unit :=
  if m_is_locked this then Mutex.unlock (m_mutex this) else ret tt.

(** [void UniqueLock::lock()] *)
Definition lock (this : t) : M t :=
  Mutex.lock (m_mutex this) ;;;
  ret (mk (m_mutex this) true).

(** [void UniqueLock::unlock()] *)
Definition unlock (this : t) : M t :=
  Mutex.unlock (m_mutex this) ;;;
  ret (mk (m_mutex this) false).

End UniqueLock.

(** ** class RobustMutex *)

Module RobustMutex.

(** [RobustMutex] derives privately from [Mutex]. *)
Abbreviation t := Mutex.t (only parsing).

(** Modelled from the spec: [bool RobustMutex::low_level_lock()], declared
    in the header and defined in thread.cpp.  It performs the OS-level
    lock acquisition and returns true if the shared state is known
    consistent, false if the lock was acquired but the OS has flagged
    that the previous holder terminated while holding it; on a mutex in
    the unrecoverable state it fails with NotRecoverable; on platforms
    without robust mutexes it never reports false.  Any other failure of
    the acquisition ends the process, as in [Mutex::lock]. *)
Definition low_level_lock (this : t) : M bool :=
  let* k := now in
  log (ev_low_level_lock this) ;;;
  let* r := mutex_lock_effect this k in
  let* c := get cfg in
  if (r =? 0)%Z then ret true
  else if robust_platform c && (r =? Z.pos (EOWNERDEAD c))%Z then ret false
  else if robust_platform c && (r =? Z.pos (ENOTRECOVERABLE c))%Z then throw NotRecoverable
  else terminate.

(** Modelled from the spec: [void RobustMutex::mark_as_consistent()],
    declared in the header and defined in thread.cpp.  It pulls the
    mutex out of the inconsistent state; the header asks that it be
    called only after [low_level_lock] has returned false. *)
Definition mark_as_consistent (this : t) : M unit :=
  log (ev_mark_as_consistent this) ;;;
  let* c := get cfg in
  if robust_platform c then
    let* r := mutex_consistent_effect this in
    TIGHTDB_ASSERT (r =? 0)%Z
  else ret tt.

(** [void RobustMutex::unlock()] *)
Definition unlock (this : t) : M unit :=
  Mutex.unlock this.

(** [template<class Func> void RobustMutex::lock(Func recover_func)] *)
Definition lock (this : t) (recover_func : recover_func_t) : M unit :=
  let* no_thread_has_died := low_level_lock this in
  if no_thread_has_died then ret tt
  else
    try_catch
      (call_recover_func recover_func ;;;
       mark_as_consistent this)
      (fun e =>
         unlock this ;;;
         throw e).

End RobustMutex.

(** ** class RobustLockGuard *)

Module RobustLockGuard.

Record t : Type := mk { m_mutex : RobustMutex.t }.

(** [RobustLockGuard::RobustLockGuard(RobustMutex& m, TFunc func)] *)
Definition RobustLockGuard (m : RobustMutex.t) (func : recover_func_t) : M t :=
  let this := mk m in
  RobustMutex.lock (m_mutex this) func ;;;
  ret this.

(** [RobustLockGuard::~RobustLockGuard()] *)
Definition dtor (this : t) : M unit :=
  RobustMutex.unlock (m_mutex this).

End RobustLockGuard.

(** ** class CondVar *)

Module CondVar.

Record t : Type := mk {
  m_shared_part : option addr;   (* SharedPart*, non-zero if a shared part has been registered *)
  m_sem : option addr;           (* sem_t*, non-zero if emulation is used *)
  m_cond : option addr           (* pthread_cond_t*, non-zero if process local *)
}.

(** [bool is_process_shared() { return m_cond == 0; }] *)
Definition is_process_shared (this : t) : bool :=
  match m_cond this with None => true | Some _ => false end.

(** Access to the members of [*m_shared_part] under
    TIGHTDB_CONDVAR_EMULATION.  A null pointer, and memory that holds no
    emulation record, are undefined. *)
Definition load_shared_part (this : t) : M (addr * N * N) :=
  match m_shared_part this with
  | None => undefined
  | Some p =>
      let* x := get (fun w => shared_memory w !! p) in
      match x with
      | Some (SharedPart_emulation sc wt) => ret (p, sc, wt)
      | _ => undefined
      end
  end.

Definition load_signal_counter (this : t) : M N :=
  let* x := load_shared_part this in
  let '(p, sc, _) := x in
  log (ev_load_signal_counter p sc) ;;;
  ret sc.

Definition load_waiters (this : t) : M N :=
  let* x := load_shared_part this in
  let '(p, _, wt) := x in
  log (ev_load_waiters p wt) ;;;
  ret wt.

Definition store_signal_counter (this : t) (v : N) : M unit :=
  let* x := load_shared_part this in
  let '(p, _, wt) := x in
  log (ev_store_signal_counter p v) ;;;
  modify (set_shared_memory (fun sm => <[p := SharedPart_emulation v wt]> sm)).

Definition store_waiters (this : t) (v : N) : M unit :=
  let* x := load_shared_part this in
  let '(p, sc, _) := x in
  log (ev_store_waiters p v) ;;;
  modify (set_shared_memory (fun sm => <[p := SharedPart_emulation sc v]> sm)).

(** [m_shared_part->waiters++], [--m_shared_part->waiters],
    [m_shared_part->signal_counter++] *)
Definition incr_waiters (this : t) : M unit :=
  let* wt := load_waiters this in store_waiters this (uint32_incr wt).
Definition decr_waiters (this : t) : M unit :=
  let* wt := load_waiters this in store_waiters this (uint32_decr wt).
Definition incr_signal_counter (this : t) : M unit :=
  let* sc := load_signal_counter this in store_signal_counter this (uint64_incr sc).

Definition non_null {A} (p : option A) : bool :=
  match p with Some _ => true | None => false end.

(** [void CondVar::close()] *)
Definition close (this : t) : M t :=
  match m_sem this with
  | Some sem =>
      (* true if emulating a process shared condvar *)
      sem_close sem ;;;
      ret (mk (m_shared_part this) None (m_cond this))
  | None =>
      let* this :=
        match m_cond this with
        | Some cond =>
            (* == process local, we own the condition variable *)
            let* r := pthread_cond_destroy cond in
            (if negb (r =? 0)%Z then terminate else ret tt) ;;;
            operator_delete cond ;;;
            ret (mk (m_shared_part this) (m_sem this) None)
        | None => ret this
        end in
      ret (mk None (m_sem this) (m_cond this))
  end.

(** The [for (;;)] loop of [wait(LockGuard&)] under emulation; [fuel]
    bounds the number of iterations. *)
Fixpoint wait_loop (fuel : nat) (this : t) (sem : addr) (l : LockGuard.t)
    (my_counter : N) : M unit :=
  match fuel with
  | O => out_of_fuel
  | S fuel' =>
      sem_wait sem ;;;
      Mutex.lock (LockGuard.m_mutex l) ;;;
      let* sc := load_signal_counter this in
      if negb (sc =? my_counter)%N then ret tt
      else
        sem_post sem ;;;
        sched_yield ;;;
        Mutex.unlock (LockGuard.m_mutex l) ;;;
        wait_loop fuel' this sem l my_counter
  end.

(** The part of [wait(LockGuard&)] after the preprocessor conditional. *)
Definition wait_native (cond : option cond_ptr) (l : LockGuard.t) : M unit :=
  let* r := pthread_cond_wait cond (LockGuard.m_mutex l) in
  if negb (r =? 0)%Z then terminate else ret tt.

(** [void CondVar::wait(LockGuard& l)] *)
Definition wait (fuel : nat) (this : t) (l : LockGuard.t) : M unit :=
  let cond : option cond_ptr := inl <$> m_cond this in
  let* emulation := get (fun w => TIGHTDB_CONDVAR_EMULATION (cfg w)) in
  if emulation then
    match m_sem this with
    | Some sem =>
        TIGHTDB_ASSERT (non_null (m_shared_part this)) ;;;
        incr_waiters this ;;;
        let* my_counter := load_signal_counter this in
        Mutex.unlock (LockGuard.m_mutex l) ;;;
        wait_loop fuel this sem l my_counter
    | None => wait_native cond l
    end
  else
    let cond :=
      match m_shared_part this with
      | Some p => Some (inr p)
      | None => cond
      end in
    wait_native cond l.

(** The [for (;;)] loop of [wait(RobustMutex&, Func, const timespec* )]
    under emulation. *)
Fixpoint wait_robust_loop (fuel : nat) (this : t) (sem : addr) (m : RobustMutex.t)
    (recover_func : recover_func_t) (my_counter : N) : M unit :=
  match fuel with
  | O => out_of_fuel
  | S fuel' =>
      sem_wait sem ;;;
      RobustMutex.lock m recover_func ;;;
      let* sc := load_signal_counter this in
      if negb (sc =? my_counter)%N then ret tt
      else
        sem_post sem ;;;
        sched_yield ;;;
        RobustMutex.unlock m ;;;
        wait_robust_loop fuel' this sem m recover_func my_counter
  end.

(** [void CondVar::handle_wait_error(int)], defined in thread.cpp: what it
    does is a parameter of the configuration. *)
Definition call_handle_wait_error (r : Z) : M unit :=
  log (ev_handle_wait_error r) ;;;
  let* a := get (fun w => handle_wait_error (cfg w) r) in
  match a with
  | wea_return => ret tt
  | wea_throw e => throw e
  | wea_terminate => terminate
  end.

(** The part of [wait(RobustMutex&, Func, const timespec* )] after the
    preprocessor conditional.  [inr tt] is the early [return] of the
    timeout. *)
Definition wait_robust_native (cond : option cond_ptr) (m : RobustMutex.t)
    (recover_func : recover_func_t) (tp : option Z) : M unit :=
  let* r :=
    match tp with
    | None =>
        let* r := pthread_cond_wait cond m in
        ret (inl r)
    | Some t =>
        let* r := pthread_cond_timedwait cond m t in
        let* etimedout := get (fun w => Z.pos (ETIMEDOUT (cfg w))) in
        if (r =? etimedout)%Z then ret (inr tt) else ret (inl r)
    end in
  match r with
  | inr _ => ret tt
  | inl r =>
      if (r =? 0)%Z then ret tt
      else
        call_handle_wait_error r ;;;
        try_catch
          (call_recover_func recover_func ;;;
           RobustMutex.mark_as_consistent m)
          (fun e =>
             RobustMutex.unlock m ;;;
             throw e)
  end.

(** [template<class Func> void CondVar::wait(RobustMutex& m, Func
    recover_func, const struct timespec* tp)] *)
Definition wait_robust (fuel : nat) (this : t) (m : RobustMutex.t)
    (recover_func : recover_func_t) (tp : option Z) : M unit :=
  let cond : option cond_ptr := inl <$> m_cond this in
  let* emulation := get (fun w => TIGHTDB_CONDVAR_EMULATION (cfg w)) in
  if emulation then
    match m_sem this with
    | Some sem =>
        TIGHTDB_ASSERT (non_null (m_shared_part this)) ;;;
        TIGHTDB_ASSERT (negb (non_null tp)) ;;;
        incr_waiters this ;;;
        let* my_counter := load_signal_counter this in
        RobustMutex.unlock m ;;;
        wait_robust_loop fuel this sem m recover_func my_counter
    | None => wait_robust_native cond m recover_func tp
    end
  else
    let cond :=
      match m_shared_part this with
      | Some p => Some (inr p)
      | None => cond
      end in
    wait_robust_native cond m recover_func tp.

(** The part of [notify()] after the preprocessor conditional. *)
Definition notify_native (cond : option cond_ptr) : M unit :=
  let* r := pthread_cond_signal cond in
  TIGHTDB_ASSERT (r =? 0)%Z.

(** [void CondVar::notify()] *)
Definition notify (this : t) : M unit :=
  let cond : option cond_ptr := inl <$> m_cond this in
  let* emulation := get (fun w => TIGHTDB_CONDVAR_EMULATION (cfg w)) in
  if emulation then
    match m_sem this with
    | Some sem =>
        TIGHTDB_ASSERT (non_null (m_shared_part this)) ;;;
        incr_signal_counter this ;;;
        let* wt := load_waiters this in
        if negb (wt =? 0)%N then
          sem_post sem ;;;
          decr_waiters this
        else ret tt
    | None => notify_native cond
    end
  else
    let cond :=
      match m_shared_part this with
      | Some p => Some (inr p)
      | None => cond
      end in
    notify_native cond.

(** The number of iterations [while (m_shared_part->waiters)] still has to
    make in world [w]. *)
Definition waiters_left (this : t) (w : World) : nat :=
  match load_waiters this w with
  | (Returned wt, _) => N.to_nat wt
  | _ => 0
  end.

(** The loop [while (m_shared_part->waiters) { sem_post(m_sem);
    --m_shared_part->waiters; }] of [notify_all()]. *)
Equations notify_all_loop (this : t) (sem : addr) (w : World) : outcome unit * World
  by wf (waiters_left this w) lt :=
notify_all_loop this sem w with inspect (load_waiters this w) := {
  | exist _ (Returned wt, w1) H1 with inspect (wt =? 0)%N := {
      | exist _ true _ => (Returned tt, w1)
      | exist _ false H2 with inspect ((sem_post sem ;;; decr_waiters this) w1) := {
          | exist _ (Returned u, w2) H3 => notify_all_loop this sem w2
          | exist _ (o, w2) _ => (o, w2) } }
  | exist _ (Thrown e, w1) _ => (Thrown e, w1)
  | exist _ (Terminated, w1) _ => (Terminated, w1)
  | exist _ (Undefined, w1) _ => (Undefined, w1)
  | exist _ (Blocked, w1) _ => (Blocked, w1)
  | exist _ (OutOfFuel, w1) _ => (OutOfFuel, w1) }.
Next Obligation.
  intros this sem w wt H2 w1 u w2 H3 H1 _. cbn in H1, H2, H3.
  unfold waiters_left. rewrite H1.
  unfold load_waiters, load_shared_part, bind in H1.
  destruct (m_shared_part this) as [p|] eqn:Hp; cbn in H1; [|discriminate].
  destruct (shared_memory w !! p) as [[sc wt'|pc]|] eqn:Hm; cbn in H1;
    try discriminate.
  simplify_eq.
  unfold sem_post, decr_waiters, load_waiters, store_waiters, load_shared_part,
    bind in H3.
  rewrite Hp in H3. cbn in H3.
  destruct (semaphores w !! sem) as [v|]; cbn in H3; [|discriminate].
  repeat (rewrite Hm in H3; cbn in H3). simplify_eq.
  unfold load_waiters, load_shared_part, bind. rewrite Hp. cbn.
  rewrite lookup_insert_eq. cbn.
  apply N.eqb_neq in H2.
  assert (uint32_decr wt < wt)%N; [|lia].
  unfold uint32_decr.
  destruct (N.lt_ge_cases wt (2 ^ 32)) as [Hlt|Hge].
  - replace (wt + (2 ^ 32 - 1))%N with (wt - 1 + 1 * 2 ^ 32)%N by lia.
    rewrite N.Div0.mod_add, N.mod_small by lia. lia.
  - eapply N.lt_le_trans; [apply N.mod_upper_bound; discriminate | exact Hge].
Qed.

(** The part of [notify_all()] after the preprocessor conditional. *)
Definition notify_all_native (cond : option cond_ptr) : M unit :=
  let* r := pthread_cond_broadcast cond in
  TIGHTDB_ASSERT (r =? 0)%Z.

(** [void CondVar::notify_all()] *)
Definition notify_all (this : t) : M unit :=
  let cond : option cond_ptr := inl <$> m_cond this in
  let* emulation := get (fun w => TIGHTDB_CONDVAR_EMULATION (cfg w)) in
  if emulation then
    match m_sem this with
    | Some sem =>
        TIGHTDB_ASSERT (non_null (m_shared_part this)) ;;;
        incr_signal_counter this ;;;
        notify_all_loop this sem
    | None => notify_all_native cond
    end
  else
    let cond :=
      match m_shared_part this with
      | Some p => Some (inr p)
      | None => cond
      end in
    notify_all_native cond.

(** [CondVar::~CondVar()] *)
Definition dtor (this : t) : M unit :=
  close this ;;;
  ret tt.

End CondVar.

(** ** template<class T> class Atomic *)

Module Atomic.

(** The cell.  [T] is an integral type of at most a machine word; its
    values are kept in [Z]. *)
Record t : Type := mk { state : Z }.

(** The three implementations of the header that define
    [compare_and_swap]: TIGHTDB_HAVE_CXX11_ATOMIC, gcc 4.7 or clang with
    [__atomic] builtins, and legacy gcc with [__sync] builtins.  (The
    _MSC_VER branch defines loads and stores only.) *)
Inductive implementation : Type :=
| cxx11_atomic
| gcc_atomic_builtins
| gcc_sync_builtins.

(** [std::atomic<T>::compare_exchange_weak(expected, desired)]: one atomic
    step that returns the result, the cell and [expected].  It may fail
    spuriously, that is, act as if the cell did not hold [expected]. *)
Definition compare_exchange_weak (spurious : bool) (this : t) (expected desired : Z)
    : bool * t * Z :=
  if (state this =? expected)%Z && negb spurious
  then (true, mk desired, expected)
  else (false, this, state this).

(** [__atomic_compare_exchange_n(ptr, expected, desired, weak, success,
    failure)].  Only the weak form may fail spuriously. *)
Definition __atomic_compare_exchange_n (spurious : bool) (this : t)
    (expected desired : Z) (weak : bool) : bool * t * Z :=
  if (state this =? expected)%Z && negb (weak && spurious)
  then (true, mk desired, expected)
  else (false, this, state this).

(** [__sync_val_compare_and_swap(ptr, oldval, newval)] returns the cell
    and what it held before the operation. *)
Definition __sync_val_compare_and_swap (this : t) (oldval newval : Z) : t * Z :=
  if (state this =? oldval)%Z
  then (mk newval, state this)
  else (this, state this).

(** [bool Atomic<T>::compare_and_swap(T& oldvalue, T newvalue)], in the
    three implementations.  The result is the returned flag, the cell
    and [oldvalue] after the call. *)
Definition compare_and_swap (impl : implementation) (spurious : bool) (this : t)
    (oldvalue newvalue : Z) : bool * t * Z :=
  match impl with
  | cxx11_atomic =>
      compare_exchange_weak spurious this oldvalue newvalue
  | gcc_atomic_builtins =>
      __atomic_compare_exchange_n spurious this oldvalue newvalue false
  | gcc_sync_builtins =>
      let ov := oldvalue in
      let '(this, oldvalue) := __sync_val_compare_and_swap this oldvalue newvalue in
      ((ov =? oldvalue)%Z, this, oldvalue)
  end.

(** *** Loads and stores of the legacy gcc implementation

    Before gcc 4.7 the header reads and writes [state] with plain
    accesses and with [__sync_bool_compare_and_swap].  Other threads may
    store to the cell between two accesses of the caller: [writes k] is
    what the caller's [k]-th access finds in the cell when another thread
    has stored to it since the access before. *)
Record cell : Type := mkCell {
  value : Z;          (* what the cell held after the caller's last access *)
  accesses : nat      (* the number of accesses the caller has made *)
}.

Definition current (writes : nat -> option Z) (c : cell) : Z :=
  default (value c) (writes (accesses c)).

(** [... = state] *)
Definition read_state (writes : nat -> option Z) (c : cell) : Z * cell :=
  let v := current writes c in
  (v, mkCell v (S (accesses c))).

(** [state = value] *)
Definition write_state (v : Z) (c : cell) : cell :=
  mkCell v (S (accesses c)).

(** [__sync_bool_compare_and_swap(&state, oldval, newval)] *)
Definition __sync_bool_compare_and_swap (writes : nat -> option Z) (c : cell)
    (oldval newval : Z) : bool * cell :=
  let v := current writes c in
  if (v =? oldval)%Z then (true, mkCell newval (S (accesses c)))
  else (false, mkCell v (S (accesses c))).

(** The loop [while (retval != val) { val = retval; retval = state; }] of
    [load_relaxed()]; [None] is the bound [fuel] on the iterations running
    out. *)
Fixpoint load_relaxed_loop (fuel : nat) (writes : nat -> option Z) (retval val : Z)
    (this : cell) : option (Z * cell) :=
  if negb (retval =? val)%Z then
    match fuel with
    | O => None
    | S fuel' =>
        let val := retval in
        let '(retval, this) := read_state writes this in
        load_relaxed_loop fuel' writes retval val this
    end
  else Some (retval, this).

(** [T Atomic<T>::load_relaxed() const] of the legacy implementation;
    [wide] is [sizeof(T) >= sizeof(ptrdiff_t)]. *)
Definition load_relaxed (fuel : nat) (wide : bool) (writes : nat -> option Z)
    (this : cell) : option (Z * cell) :=
  if wide then
    (* do repeated reads until we've seen the same value twice *)
    let '(retval, this) := read_state writes this in
    let '(val, this) := read_state writes this in
    load_relaxed_loop fuel writes retval val this
  else
    let '(retval, this) := read_state writes this in
    Some (retval, this).

(** [T Atomic<T>::load() const]: [__sync_synchronize(); return
    load_relaxed();] *)
Definition load (fuel : nat) (wide : bool) (writes : nat -> option Z)
    (this : cell) : option (Z * cell) :=
  load_relaxed fuel wide writes this.

(** The loop [while (!__sync_bool_compare_and_swap(&state, old_value,
    value)) { old_value = state; }] of [store()]. *)
Fixpoint store_loop (fuel : nat) (writes : nat -> option Z) (old_value value : Z)
    (this : cell) : option cell :=
  let '(swapped, this) := __sync_bool_compare_and_swap writes this old_value value in
  if negb swapped then
    match fuel with
    | O => None
    | S fuel' =>
        let '(old_value, this) := read_state writes this in
        store_loop fuel' writes old_value value this
    end
  else Some this.

(** [void Atomic<T>::store(T value)] of the legacy implementation *)
Definition store (fuel : nat) (wide : bool) (writes : nat -> option Z) (value : Z)
    (this : cell) : option cell :=
  if wide then
    let '(old_value, this) := read_state writes this in
    store_loop fuel writes old_value value this
  else
    Some (write_state value this).

End Atomic.

(** ** Results::Measurement::finish (test/bench/util/results.cpp) *)

Module Results.

(** [v[i]] on a std::vector is not checked; a read past the end is
    reported with the index and the size. *)
Inductive access (A : Type) : Type :=
| InBounds (a : A)
| OutOfBounds (index size : nat).
Arguments InBounds {A} a.
Arguments OutOfBounds {A} index size.

Definition subscript {A} (v : list A) (i : nat) : access A :=
  match v !! i with
  | Some a => InBounds a
  | None => OutOfBounds i (length v)
  end.

Definition access_bind {A B} (x : access A) (k : A -> access B) : access B :=
  match x with
  | InBounds a => k a
  | OutOfBounds i n => OutOfBounds i n
  end.

Section Finish.

(** [double], with the addition and the division by 2 that the median
    uses, and the two constants of <float.h>. *)
Variable double : Type.
Variable add : double -> double -> double.
Variable halve : double -> double.
Variables DBL_MAX DBL_MIN : double.

(** The fields of [Result] that the block "Compute min/max/median"
    assigns.  The constructor leaves [median] uninitialised. *)
Record Result : Type := mkResult {
  rep : nat;
  min : double;
  max : double;
  median : option double
}.

(** [Results::Result::Result(): min(DBL_MAX), max(DBL_MIN), total(0), rep(0)] *)
Definition Result_ctor : Result := mkResult 0 DBL_MAX DBL_MIN None.

(** The block "Compute min/max/median" of [finish], on the sorted local
    copy [samples]. *)
Definition finish_median (samples : list double) : access Result :=
  let r := Result_ctor in
  let r := mkResult (length samples) (min r) (max r) (median r) in
  if 0 <? rep r then
    let r := mkResult (rep r) (hd (min r) samples) (max r) (median r) in
    let r := mkResult (rep r) (min r) (List.last samples (max r)) (median r) in
    if rep r mod 2 =? 0 then
      (* Equal number of elements: median is the average of the two
         middle elements. *)
      access_bind (subscript samples (rep r / 2)) (fun a =>
      access_bind (subscript samples (rep r / 2 + 1)) (fun b =>
      InBounds (mkResult (rep r) (min r) (max r) (Some (halve (add a b))))))
    else
      (* Odd number of elements: median is the middle element. *)
      access_bind (subscript samples (rep r / 2)) (fun a =>
      InBounds (mkResult (rep r) (min r) (max r) (Some a)))
  else InBounds r.

End Finish.

Arguments mkResult {double} rep min max median.
Arguments rep {double} r.
Arguments min {double} r.
Arguments max {double} r.
Arguments median {double} r.
Arguments finish_median {double} add halve DBL_MAX DBL_MIN samples.

(** [void Results::submit(const char* ident, double seconds)].
    [m_measurements] is a std::map from the identifier to the
    [Measurement], which is its vector of samples. *)
Definition submit {double : Type} (ident : string) (seconds : double)
    (m_measurements : gmap string (list double)) : gmap string (list double) :=
  let '(samples, m_measurements) :=
    match m_measurements !! ident with
    | Some samples => (samples, m_measurements)
    | None => ([], <[ident := []]> m_measurements)
    end in
  <[ident := samples ++ [seconds]]> m_measurements.

End Results.

(** ** The mode of the samples (test/bench/util/results.cpp)

    The functions of the anonymous namespace that [finish] uses for the
    mode.  Here [double] is the binary64 of the kernel. *)

(** [std::numeric_limits<double>] *)
Module numeric_limits.
Import PrimFloat.

Definition epsilon : float := 0x1p-52%float.
Definition min : float := 0x1p-1022%float.
Definition quiet_NaN : float := nan.

End numeric_limits.

(** [bool almost_equal(double x, double y)] *)
Definition almost_equal (x y : PrimFloat.float) : bool :=
  PrimFloat.ltb (PrimFloat.abs (PrimFloat.sub x y))
    (PrimFloat.mul numeric_limits.epsilon (PrimFloat.abs (PrimFloat.add x y)))
  || PrimFloat.ltb (PrimFloat.abs (PrimFloat.sub x y)) numeric_limits.min.

(** The local variables of [findMode].  The counters are of type size_t;
    they stay below the size of the vector plus two. *)
Record findMode_locals : Type := mkLocals {
  count : nat;
  better_count : nat;
  mode : PrimFloat.float;
  better_mode : PrimFloat.float
}.

(** The body of [for (double sample : samples)] in [findMode]. *)
Definition findMode_body (st : findMode_locals) (sample : PrimFloat.float)
    : findMode_locals :=
  if almost_equal sample (mode st) then
    let st := mkLocals (S (count st)) (better_count st) (mode st) (better_mode st) in
    if better_count st <? count st
    then mkLocals (count st) (count st) (mode st) (mode st)
    else st
  else
    mkLocals 1 (better_count st) sample (better_mode st).

(** [double findMode(std::vector<double>& samples)] *)
Definition findMode (samples : list PrimFloat.float) : Results.access PrimFloat.float :=
  Results.access_bind (Results.subscript samples 0) (fun first =>
  let st := mkLocals 1 1 first first in
  let st := fold_left findMode_body samples st in
  Results.InBounds (better_mode st)).

(** [double tryFindMode(std::vector<double>& samples)] *)
Definition tryFindMode (samples : list PrimFloat.float) : Results.access PrimFloat.float :=
  if negb (length samples =? 0) then findMode samples
  else Results.InBounds numeric_limits.quiet_NaN.

(** ** Blocks that use the guards *)

(** Code run under a lock works on the data the mutex protects; like the
    recovery callback it returns, throws, or does not come back. *)
Definition critical_section_t : Type := gmap addr Z -> outcome unit * gmap addr Z.

Definition run_critical_section (body : critical_section_t) : M unit :=
  fun w =>
    let (r, d) := body (protected_data w) in
    (r, set_protected_data (fun _ => d) w).

(** Leaving a block: the destructor of a local object runs when the block
    is left by reaching its end or by an exception, and at no other time. *)
Definition leave_block (o : outcome unit) (dtor : M unit) : M unit :=
  match o with
  | Returned _ => dtor
  | Thrown e => dtor ;;; throw e
  | Terminated => terminate
  | Undefined => undefined
  | Blocked => blocked
  | OutOfFuel => out_of_fuel
  end.

(** [{ LockGuard l(m); body }] *)
Definition LockGuard_block (m : Mutex.t) (body : critical_section_t) : M unit :=
  let* l := LockGuard.LockGuard m in
  fun w =>
    let (o, w1) := run_critical_section body w in
    leave_block o (LockGuard.dtor l) w1.

(** The statements of a block that holds a [UniqueLock]: calls of its
    [lock()] and [unlock()], and other code. *)
Inductive stmt : Type :=
| stmt_lock
| stmt_unlock
| stmt_other (body : critical_section_t).

Definition run_stmt (s : stmt) (l : UniqueLock.t) : M UniqueLock.t :=
  match s with
  | stmt_lock => UniqueLock.lock l
  | stmt_unlock => UniqueLock.unlock l
  | stmt_other body => run_critical_section body ;;; ret l
  end.

(** Runs the statements in order and stops at the first that does not
    return; the guard is reported as that statement found it. *)
Fixpoint run_stmts (ss : list stmt) (l : UniqueLock.t) (w : World)
    : outcome unit * UniqueLock.t * World :=
  match ss with
  | [] => (Returned tt, l, w)
  | s :: ss' =>
      match run_stmt s l w with
      | (Returned l', w1) => run_stmts ss' l' w1
      | (Thrown e, w1) => (Thrown e, l, w1)
      | (Terminated, w1) => (Terminated, l, w1)
      | (Undefined, w1) => (Undefined, l, w1)
      | (Blocked, w1) => (Blocked, l, w1)
      | (OutOfFuel, w1) => (OutOfFuel, l, w1)
      end
  end.

(** [{ UniqueLock l(m); ss }] and [{ UniqueLock l(m, defer_lock_tag()); ss }] *)
Definition UniqueLock_block (defer : bool) (m : Mutex.t) (ss : list stmt) : M unit :=
  let* l := if defer then UniqueLock.UniqueLock_defer m else UniqueLock.UniqueLock m in
  fun w =>
    let '(o, l', w1) := run_stmts ss l w in
    leave_block o (UniqueLock.dtor l') w1.


(** ** Reading the world *)

Definition held_by_caller (m : addr) (w : World) : bool :=
  match mutexes w !! m with
  | Some mu => held mu
  | None => false
  end.

Definition signal_counter_at (p : addr) (sm : gmap addr SharedPart) : option N :=
  match sm !! p with
  | Some (SharedPart_emulation sc _) => Some sc
  | _ => None
  end.

#[global] Instance event_eq_dec : EqDecision event.
Proof. solve_decision. Defined.

(** How often [e] occurs in a trace. *)
Definition occurrences (e : event) (t : list event) : nat :=
  length (filter (fun x => x = e) t).

(** The <cerrno> values the model compares are different from each other. *)
Definition distinct_errno (c : Config) : Prop :=
  EOWNERDEAD c <> ENOTRECOVERABLE c /\ ETIMEDOUT c <> EOWNERDEAD c /\
  ETIMEDOUT c <> ENOTRECOVERABLE c.

(** ** Example configurations and worlds *)

(** The <cerrno> values of Darwin, where the header turns the emulation
    on, with the behaviour thread.cpp gives the undefined functions on a
    platform with robust mutexes. *)
Definition example_config (emulation debug : bool) : Config :=
  mkConfig emulation debug true 60 105 104 1 22
    (fun r => nr_throw (runtime_error r))
    (fun r => if (r =? 104)%Z then wea_throw NotRecoverable
              else if (r =? 105)%Z then wea_return
              else wea_terminate).

(** No other thread interferes; every OS call answers [result]. *)
Definition quiet_env (result : Z) : Env :=
  mkEnv (fun _ sm => sm) (fun _ v => v) (fun _ => false) (fun _ => result) (fun _ => false)
    (fun _ => None).

(** Another thread notifies once, while the caller is inside the [k]-th
    event. *)
Definition notifier_env (k : nat) (p : addr) : Env :=
  mkEnv
    (fun i sm =>
       if i =? k then
         match sm !! p with
         | Some (SharedPart_emulation sc wt) =>
             <[p := SharedPart_emulation (uint64_incr sc) (uint32_decr wt)]> sm
         | _ => sm
         end
       else sm)
    (fun i v => if i <? k then (v + 1)%N else v)
    (fun _ => false) (fun _ => 0%Z) (fun _ => false) (fun _ => None).

(** A world with a regular mutex at address 1, a robust mutex at address
    2, a shared part at address 3, a semaphore at address 4 and a private
    condition variable at address 5. *)
Definition example_world (c : Config) (e : Env) (regular robust : mutex_status)
    (sp : SharedPart) (permits : N) : World :=
  mkWorld c e
    (<[1 := mkMutex false regular]> (<[2 := mkMutex true robust]> ∅))
    (<[3 := sp]> ∅)
    (<[5 := cond_initialized]> ∅)
    (<[4 := permits]> ∅)
    ∅
    [].

(** ** The vocabulary of the properties *)

(** A computation preserves a relation between the world it starts in and
    the world it ends in, however it ends. *)
Definition preserves (R : World -> World -> Prop) {A} (c : M A) : Prop :=
  forall w o w', c w = (o, w') -> R w w'.

(** What [close()] on the handle [this] may change: nothing in shared
    memory, no mutex, no protected data; of the semaphores only [m_sem],
    and of the condition variables allocated with new only [m_cond]. *)
Definition close_frame (this : CondVar.t) (w w' : World) : Prop :=
  shared_memory w' = shared_memory w /\
  mutexes w' = mutexes w /\
  protected_data w' = protected_data w /\
  (forall s, CondVar.m_sem this <> Some s -> semaphores w' !! s = semaphores w !! s) /\
  (forall c, CondVar.m_cond this <> Some c -> private_conds w' !! c = private_conds w !! c).

(** The world after the lock at [m] has been acquired: the event [e] is
    logged, shared memory is as the other threads left it, and the mutex
    has status [s]. *)
Definition acquired (m : addr) (mu : pthread_mutex_t) (s : mutex_status) (e : event)
    (w : World) : World :=
  set_mutexes (fun ms => <[m := mkMutex (robust_attr mu) s]> ms)
    (set_shared_memory (other_threads (env w) (length (trace w)))
       (set_trace (fun t => t ++ [e]) w)).

(** The condition variable that the code after the preprocessor conditional
    waits on. *)
Definition native_cond (this : CondVar.t) (w : World) : option cond_ptr :=
  if TIGHTDB_CONDVAR_EMULATION (cfg w) then inl <$> CondVar.m_cond this
  else
    match CondVar.m_shared_part this with
    | Some p => Some (inr p)
    | None => inl <$> CondVar.m_cond this
    end.

(** What a wait of POSIX leaves alone. *)
Definition wait_frame (w w' : World) : Prop :=
  cfg w' = cfg w /\ env w' = env w /\ trace w' = trace w /\
  protected_data w' = protected_data w /\ semaphores w' = semaphores w /\
  private_conds w' = private_conds w.

(** The events of [n] iterations of the loop of [notify_all()], from a
    waiter count of [n] down to 1. *)
Fixpoint drain_events (p sem : addr) (n : nat) : list event :=
  match n with
  | O => []
  | S n' =>
      [ev_load_waiters p (N.of_nat n); ev_sem_post sem;
       ev_load_waiters p (N.of_nat n); ev_store_waiters p (N.of_nat n')]
      ++ drain_events p sem n'
  end.

Definition is_sem_post (e : event) : bool :=
  match e with ev_sem_post _ => true | _ => false end.

Definition is_signal_counter_store (e : event) : bool :=
  match e with ev_store_signal_counter _ _ => true | _ => false end.

(** No other thread or process changes the signal counter of the shared
    part at [p]. *)
Definition no_other_notifier (p : addr) (e : Env) : Prop :=
  forall k sm, signal_counter_at p (other_threads e k sm) = signal_counter_at p sm.

(** What the calls inside the loop of [wait] leave alone when nobody else
    notifies: the environment and the signal counter at [p]. *)
Definition keeps_signal_counter (p : addr) (w w' : World) : Prop :=
  env w' = env w /\
  (no_other_notifier p (env w) ->
   signal_counter_at p (shared_memory w') = signal_counter_at p (shared_memory w)).

(** The mutex at [m] as [unlock] leaves it. *)
Definition released (m : addr) (mu : pthread_mutex_t) (s : mutex_status) (w : World)
    : World :=
  set_mutexes (fun ms => <[m := mkMutex (robust_attr mu) s]> ms)
    (set_trace (fun t => t ++ [ev_pthread_mutex_unlock m]) w).

(** What holds of a [UniqueLock] on the regular mutex [m] between two
    statements of its block, whose events so far are [new]: the flag tells
    whether the caller holds the mutex, and the locks of [m] are the
    unlocks of [m], plus one while the flag is set. *)
Definition guard_inv (m : addr) (new : list event) (l : UniqueLock.t) (w : World) : Prop :=
  UniqueLock.m_mutex l = m /\
  mutexes w !! m
  = Some (mkMutex false (if UniqueLock.m_is_locked l then locked else unlocked)) /\
  occurrences (ev_pthread_mutex_lock m) new
  = occurrences (ev_pthread_mutex_unlock m) new
    + (if UniqueLock.m_is_locked l then 1 else 0).

(** What the calls of the loop of [wait] do to the log: a call that returns
    has logged exactly its own event, and the configuration is the same. *)
Definition logged (es : list event) (w w' : World) : Prop :=
  trace w' = trace w ++ es /\ cfg w' = cfg w.

(** The events of one [RobustMutex::lock]: the low-level lock, and the
    recovery when the previous holder had died. *)
Definition lock_events (m : addr) (recovered : bool) : list event :=
  ev_low_level_lock m ::
  (if recovered then [ev_recover_func; ev_mark_as_consistent m] else []).

(** The events of an iteration of the loop of [wait(LockGuard&)] that finds
    the signal counter at its snapshot [c], and of the iteration that
    finds it at [c'] and leaves the loop. *)
Definition retry_events (sem m p : addr) (c : N) : list event :=
  [ev_sem_wait sem; ev_pthread_mutex_lock m; ev_load_signal_counter p c;
   ev_sem_post sem; ev_sched_yield; ev_pthread_mutex_unlock m].

Definition last_events (sem m p : addr) (c' : N) : list event :=
  [ev_sem_wait sem; ev_pthread_mutex_lock m; ev_load_signal_counter p c'].

(** The same for [wait(RobustMutex&, ...)], where each lock may have
    recovered. *)
Definition retry_events_robust (sem m p : addr) (c : N) (recovered : bool) : list event :=
  [ev_sem_wait sem] ++ lock_events m recovered ++
  [ev_load_signal_counter p c; ev_sem_post sem; ev_sched_yield;
   ev_pthread_mutex_unlock m].

Definition last_events_robust (sem m p : addr) (c' : N) (recovered : bool) : list event :=
  [ev_sem_wait sem] ++ lock_events m recovered ++ [ev_load_signal_counter p c'].

(** What TIGHTDB_NOEXCEPT promises: the computation never ends by
    throwing. *)
Definition noexcept {A} (c : M A) : Prop :=
  forall w e, (c w).1 <> Thrown e.

(** The call of the operating system in the part of [wait(RobustMutex&,
    Func, const timespec* )] after the preprocessor conditional. *)
Definition native_wait_call (c : option cond_ptr) (m : addr) (tp : option Z) : M Z :=
  match tp with
  | None => pthread_cond_wait c m
  | Some t => pthread_cond_timedwait c m t
  end.

(** The event of that call. *)
Definition native_wait_event (c : cond_ptr) (m : addr) (tp : option Z) : event :=
  match tp with
  | None => ev_pthread_cond_wait c m
  | Some t => ev_pthread_cond_timedwait c m t
  end.

(** The monitor idiom [{ LockGuard l(m); cond.wait(l); }]. *)
Definition wait_block (fuel : nat) (this : CondVar.t) (m : Mutex.t) : M unit :=
  let* l := LockGuard.LockGuard m in
  fun w =>
    let (o, w1) := CondVar.wait fuel this l w in
    leave_block o (LockGuard.dtor l) w1.

(** What the calls that do not lock or unlock leave alone. *)
Definition keeps_mutexes (w w' : World) : Prop :=
  mutexes w' = mutexes w.

(** The values that the caller's next [n] reads of the cell return. *)
Fixpoint reads (writes : nat -> option Z) (c : Atomic.cell) (n : nat) : list Z :=
  match n with
  | O => []
  | S n' =>
      let '(v, c') := Atomic.read_state writes c in
      v :: reads writes c' n'
  end.

(** No other thread stores to the cell from the caller's [k]-th access on. *)
Definition quiet_from (writes : nat -> option Z) (k : nat) : Prop :=
  forall i, k <= i -> writes i = None.

(** The calls [submit(ident, seconds)] of a run, in order. *)
Definition submit_all {double : Type} (calls : list (string * double))
    (m_measurements : gmap string (list double)) : gmap string (list double) :=
  fold_left (fun m c => Results.submit c.1 c.2 m) calls m_measurements.

(** The values submitted under [ident], in the order of the calls. *)
Definition submitted {double : Type} (ident : string) (calls : list (string * double))
    : list double :=
  omap (fun c => if decide (c.1 = ident) then Some c.2 else None) calls.

(** No other thread or process writes to the shared parts. *)
Definition quiet_threads (e : Env) : Prop :=
  forall k sm, other_threads e k sm = sm.

(** What a call that does not write to a shared part leaves alone when
    nobody else writes either. *)
Definition keeps_shared (w w' : World) : Prop :=
  env w' = env w /\ cfg w' = cfg w /\
  (quiet_threads (env w) -> shared_memory w' = shared_memory w).

(** * Properties *)

(** Sequencing, run and inverted. *)
Lemma bind_run {A B} (c : M A) (k : A -> M B) (w w1 : World) (a : A) :
  c w = (Returned a, w1) -> bind c k w = k a w1.
Proof. intros H. unfold bind. rewrite H. reflexivity. Qed.

Lemma bind_inv {A B} (c : M A) (k : A -> M B) (w w2 : World) (b : B) :
  bind c k w = (Returned b, w2) ->
  exists a w1, c w = (Returned a, w1) /\ k a w1 = (Returned b, w2).
Proof.
  unfold bind. destruct (c w) as [[a| | | | |] w1]; try discriminate. eauto.
Qed.

(** The accesses to the shared part, run and inverted. *)
Lemma load_shared_part_inv (this : CondVar.t) (w w1 : World) (x : addr * N * N) :
  CondVar.load_shared_part this w = (Returned x, w1) ->
  w1 = w /\ CondVar.m_shared_part this = Some x.1.1 /\
  shared_memory w !! x.1.1 = Some (SharedPart_emulation x.1.2 x.2).
Proof.
  unfold CondVar.load_shared_part. destruct (CondVar.m_shared_part this) as [p|]; [|discriminate].
  unfold bind. cbn.
  destruct (shared_memory w !! p) as [[sc wt|pc]|] eqn:E; cbn; try discriminate.
  intros ?; simplify_eq. auto.
Qed.

Lemma load_shared_part_run (this : CondVar.t) (w : World) (p : addr) (sc wt : N) :
  CondVar.m_shared_part this = Some p ->
  shared_memory w !! p = Some (SharedPart_emulation sc wt) ->
  CondVar.load_shared_part this w = (Returned (p, sc, wt), w).
Proof.
  intros Hp Hm. unfold CondVar.load_shared_part, bind. cbn. rewrite Hp. cbn. rewrite Hm. reflexivity.
Qed.

Lemma load_waiters_inv (this : CondVar.t) (w w1 : World) (wt : N) :
  CondVar.load_waiters this w = (Returned wt, w1) ->
  exists p sc, CondVar.m_shared_part this = Some p /\
    shared_memory w !! p = Some (SharedPart_emulation sc wt) /\
    w1 = set_trace (fun t => t ++ [ev_load_waiters p wt]) w.
Proof.
  unfold CondVar.load_waiters. unfold bind at 1.
  destruct (CondVar.load_shared_part this w) as [[[[p sc] wt']| | | | |] w2] eqn:E;
    try discriminate.
  apply load_shared_part_inv in E as (-> & Hp & Hm). cbn in Hp, Hm.
  cbn. intros ?; simplify_eq. eauto.
Qed.

Lemma load_waiters_run (this : CondVar.t) (w : World) (p : addr) (sc wt : N) :
  CondVar.m_shared_part this = Some p ->
  shared_memory w !! p = Some (SharedPart_emulation sc wt) ->
  CondVar.load_waiters this w = (Returned wt, set_trace (fun t => t ++ [ev_load_waiters p wt]) w).
Proof.
  intros Hp Hm. unfold CondVar.load_waiters. unfold bind at 1.
  rewrite (load_shared_part_run _ _ _ _ _ Hp Hm). reflexivity.
Qed.

Lemma store_waiters_run (this : CondVar.t) (w : World) (p : addr) (sc wt v : N) :
  CondVar.m_shared_part this = Some p ->
  shared_memory w !! p = Some (SharedPart_emulation sc wt) ->
  CondVar.store_waiters this v w =
    (Returned tt,
     set_shared_memory (fun sm => <[p := SharedPart_emulation sc v]> sm)
       (set_trace (fun t => t ++ [ev_store_waiters p v]) w)).
Proof.
  intros Hp Hm. unfold CondVar.store_waiters. unfold bind at 1.
  rewrite (load_shared_part_run _ _ _ _ _ Hp Hm). reflexivity.
Qed.

Lemma decr_waiters_run (this : CondVar.t) (w : World) (p : addr) (sc wt : N) :
  CondVar.m_shared_part this = Some p ->
  shared_memory w !! p = Some (SharedPart_emulation sc wt) ->
  CondVar.decr_waiters this w =
    (Returned tt,
     set_shared_memory (fun sm => <[p := SharedPart_emulation sc (uint32_decr wt)]> sm)
       (set_trace (fun t => t ++ [ev_load_waiters p wt; ev_store_waiters p (uint32_decr wt)]) w)).
Proof.
  intros Hp Hm. unfold CondVar.decr_waiters. unfold bind at 1.
  rewrite (load_waiters_run _ _ _ _ _ Hp Hm).
  erewrite store_waiters_run by (cbn; eauto).
  unfold set_shared_memory, set_trace; cbn. rewrite <- app_assoc. reflexivity.
Qed.

Lemma sem_post_inv (sem : addr) (w w1 : World) (u : unit) :
  sem_post sem w = (Returned u, w1) ->
  exists v, semaphores w !! sem = Some v /\
    w1 = set_semaphores (fun ss => <[sem := (v + 1)%N]> ss)
           (set_trace (fun t => t ++ [ev_sem_post sem]) w).
Proof.
  unfold sem_post, bind. cbn.
  destruct (semaphores w !! sem) as [v|]; cbn; intros ?; simplify_eq. eauto.
Qed.

(** ** Frame conditions *)

Section Frames.

Variable R : World -> World -> Prop.
Hypothesis R_refl : forall w, R w w.
Hypothesis R_trans : forall w1 w2 w3, R w1 w2 -> R w2 w3 -> R w1 w3.

Lemma preserves_ret {A} (a : A) : preserves R (ret a).
Proof. intros w o w' H. cbn in H. simplify_eq. apply R_refl. Qed.

Lemma preserves_throw {A} (e : exn) : preserves R (throw (A := A) e).
Proof. intros w o w' H. cbn in H. simplify_eq. apply R_refl. Qed.

Lemma preserves_terminate {A} : preserves R (terminate (A := A)).
Proof. intros w o w' H. cbn in H. simplify_eq. apply R_refl. Qed.

Lemma preserves_undefined {A} : preserves R (undefined (A := A)).
Proof. intros w o w' H. cbn in H. simplify_eq. apply R_refl. Qed.

Lemma preserves_blocked {A} : preserves R (blocked (A := A)).
Proof. intros w o w' H. cbn in H. simplify_eq. apply R_refl. Qed.

Lemma preserves_out_of_fuel {A} : preserves R (out_of_fuel (A := A)).
Proof. intros w o w' H. cbn in H. simplify_eq. apply R_refl. Qed.

Lemma preserves_get {A} (f : World -> A) : preserves R (get f).
Proof. intros w o w' H. cbn in H. simplify_eq. apply R_refl. Qed.

Lemma preserves_now : preserves R now.
Proof. intros w o w' H. cbn in H. simplify_eq. apply R_refl. Qed.

Lemma preserves_modify (f : World -> World) :
  (forall w, R w (f w)) -> preserves R (modify f).
Proof. intros Hf w o w' H. cbn in H. simplify_eq. apply Hf. Qed.

Lemma preserves_log (e : event) :
  (forall w, R w (set_trace (fun t => t ++ [e]) w)) -> preserves R (log e).
Proof. intros Hf w o w' H. cbn in H. simplify_eq. apply Hf. Qed.

Lemma preserves_bind {A B} (c : M A) (k : A -> M B) :
  preserves R c -> (forall a, preserves R (k a)) -> preserves R (bind c k).
Proof.
  intros Hc Hk w o w' H. unfold bind in H.
  destruct (c w) as [o1 w1] eqn:E. apply Hc in E.
  destruct o1; simplify_eq; try exact E.
  eapply R_trans; [exact E|]. eapply Hk; eassumption.
Qed.

Lemma preserves_try_catch {A} (c : M A) (h : exn -> M A) :
  preserves R c -> (forall e, preserves R (h e)) -> preserves R (try_catch c h).
Proof.
  intros Hc Hh w o w' H. unfold try_catch in H.
  destruct (c w) as [o1 w1] eqn:E. apply Hc in E.
  destruct o1; simplify_eq; try exact E.
  eapply R_trans; [exact E|]. eapply Hh; eassumption.
Qed.

Lemma preserves_TIGHTDB_ASSERT (c : bool) : preserves R (TIGHTDB_ASSERT c).
Proof.
  unfold TIGHTDB_ASSERT. apply preserves_bind; [apply preserves_get|].
  intros debug. destruct (debug && negb c); [apply preserves_terminate | apply preserves_ret].
Qed.

End Frames.

(** Decomposes a frame condition along the structure of the computation. *)
Ltac frame_with leaf :=
  repeat first
    [ leaf
    | apply preserves_ret; assumption
    | apply preserves_throw; assumption
    | apply preserves_terminate; assumption
    | apply preserves_undefined; assumption
    | apply preserves_blocked; assumption
    | apply preserves_out_of_fuel; assumption
    | apply preserves_get; assumption
    | apply preserves_now; assumption
    | apply preserves_TIGHTDB_ASSERT; assumption
    | apply preserves_bind; try assumption; [ | intros ?]
    | apply preserves_try_catch; try assumption; [ | intros ?]
    | match goal with
      | |- preserves _ (match ?x with _ => _ end) => destruct x
      end ].

Ltac frame := frame_with fail.

(** ** Atomic: compare_and_swap *)

(** In the two gcc implementations the exchange is strong: it succeeds
    exactly when the cell holds the expected value. *)
Lemma compare_and_swap_strong (impl : Atomic.implementation) (spurious : bool)
    (this : Atomic.t) (oldvalue newvalue : Z) :
  impl <> Atomic.cxx11_atomic ->
  (Atomic.compare_and_swap impl spurious this oldvalue newvalue).1.1
  = (Atomic.state this =? oldvalue)%Z.
Proof.
  intros Himpl. destruct impl; [done| |]; cbn.
  - unfold Atomic.__atomic_compare_exchange_n. cbn.
    destruct (Atomic.state this =? oldvalue)%Z; reflexivity.
  - unfold Atomic.__sync_val_compare_and_swap.
    destruct (Atomic.state this =? oldvalue)%Z eqn:E; cbn.
    + apply Z.eqb_eq in E. subst. apply Z.eqb_refl.
    + rewrite Z.eqb_sym. exact E.
Qed.

(** C5.  In each of the three implementations, [compare_and_swap] returns
    true only when the cell held the expected value, and then the cell
    holds the new value; when it returns false the cell is unchanged and
    the expected value has been replaced by what the cell holds.  The
    C++11 implementation may fail although the cell holds the expected
    value. *)
Theorem compare_and_swap_sound :
  (forall (impl : Atomic.implementation) (spurious : bool) (this : Atomic.t)
          (oldvalue newvalue : Z),
     let '(ok, this', oldvalue') :=
       Atomic.compare_and_swap impl spurious this oldvalue newvalue in
     (ok = true ->
        Atomic.state this = oldvalue /\ Atomic.state this' = newvalue /\
        oldvalue' = oldvalue) /\
     (ok = false -> this' = this /\ oldvalue' = Atomic.state this)) /\
  (forall (v newvalue : Z),
     Atomic.compare_and_swap Atomic.cxx11_atomic true (Atomic.mk v) v newvalue
     = (false, Atomic.mk v, v)).
Proof.
  split.
  - intros impl spurious this oldvalue newvalue.
    destruct impl; cbn;
      unfold Atomic.compare_exchange_weak, Atomic.__atomic_compare_exchange_n,
        Atomic.__sync_val_compare_and_swap;
      destruct (Atomic.state this =? oldvalue)%Z eqn:E; cbn;
      try destruct spurious; cbn;
      try (apply Z.eqb_eq in E; subst; rewrite ?Z.eqb_refl);
      try (rewrite (Z.eqb_sym oldvalue), E);
      split; intros Hok; try discriminate; auto.
  - intros v newvalue. cbn. unfold Atomic.compare_exchange_weak. cbn.
    rewrite Z.eqb_refl. reflexivity.
Qed.

(** ** Results::Measurement::finish: the median *)

Lemma subscript_in_bounds {A} (v : list A) (i : nat) :
  i < length v -> exists a, v !! i = Some a /\ Results.subscript v i = Results.InBounds a.
Proof.
  intros Hi. destruct (lookup_lt_is_Some_2 v i Hi) as [a Ha].
  exists a. unfold Results.subscript. rewrite Ha. auto.
Qed.

(** C9.  For a non-empty sample list of size [rep] (sorted or not: the
    indices do not depend on the values), an odd [rep] reads index
    [rep / 2], which is in bounds, and that element is the median; an
    even [rep] reads the indices [rep / 2] and [rep / 2 + 1] and halves
    their sum; for [rep = 2] the second index equals [rep] and the read
    is out of bounds. *)
Theorem finish_median_reads (double : Type) (add : double -> double -> double)
    (halve : double -> double) (DBL_MAX DBL_MIN : double) (samples : list double) :
  samples <> [] ->
  let rep := length samples in
  let r := Results.finish_median add halve DBL_MAX DBL_MIN samples in
  (rep mod 2 = 1 ->
     rep / 2 < rep /\
     exists a, samples !! (rep / 2) = Some a /\
       r = Results.InBounds
             (Results.mkResult rep (hd DBL_MAX samples) (List.last samples DBL_MIN)
                (Some a))) /\
  (rep mod 2 = 0 ->
     exists a, samples !! (rep / 2) = Some a /\
       match samples !! (rep / 2 + 1) with
       | Some b =>
           r = Results.InBounds
                 (Results.mkResult rep (hd DBL_MAX samples) (List.last samples DBL_MIN)
                    (Some (halve (add a b))))
       | None => r = Results.OutOfBounds (rep / 2 + 1) rep
       end) /\
  (rep = 2 -> rep / 2 + 1 = rep /\ r = Results.OutOfBounds rep rep).
Proof.
  intros Hne rep r.
  assert (Hpos : 0 < rep) by (subst rep; destruct samples; [done | cbn; lia]).
  assert (Hhalf : rep / 2 < rep) by (apply Nat.div_lt; lia).
  destruct (subscript_in_bounds samples _ Hhalf) as (a & Ha & Hsa).
  assert (Hlt : (0 <? rep) = true) by (apply Nat.ltb_lt; exact Hpos).
  subst r. unfold Results.finish_median, Results.Result_ctor.
  cbn [Results.rep Results.min Results.max Results.median].
  change (length samples) with rep. rewrite Hlt.
  split; [|split].
  - intros Hodd. split; [exact Hhalf|]. exists a. split; [exact Ha|].
    replace (rep mod 2 =? 0) with false by (symmetry; apply Nat.eqb_neq; lia).
    rewrite Hsa. reflexivity.
  - intros Heven. exists a. split; [exact Ha|].
    rewrite Heven, Hsa. cbn [Nat.eqb Results.access_bind].
    unfold Results.subscript. change (length samples) with rep.
    destruct (samples !! (rep / 2 + 1)); reflexivity.
  - intros H2. rewrite H2. split; [reflexivity|].
    destruct samples as [|x [|y [|z l]]]; try discriminate. reflexivity.
Qed.

(** The theorem applied to the lists 1, 2, 3 and 1, 2 of integers. *)
Lemma finish_median_reads_witness :
  Results.finish_median Z.add (fun x => x / 2)%Z 1000%Z (-1000)%Z [1; 2]%Z
  = Results.OutOfBounds 2 2.
Proof.
  refine (proj2 (proj2 (proj2
    (finish_median_reads Z Z.add (fun x => x / 2)%Z 1000%Z (-1000)%Z
       [1; 2]%Z _)) _)); [discriminate | reflexivity].
Defined.

(** ** Thread *)

Lemma set_trace_app (t1 t2 : list event) (w : World) :
  set_trace (fun t => t ++ t2) (set_trace (fun t => t ++ t1) w)
  = set_trace (fun t => t ++ (t1 ++ t2)) w.
Proof. unfold set_trace; cbn. rewrite <- app_assoc. reflexivity. Qed.

(** A [start] that finds the thread not joinable, memory for the function
    object, a copy constructor that does not throw and a willing
    pthread_create returns a joinable thread. *)
Lemma Thread_start_succeeds (this : Thread.t) (func : nat) (w : World) :
  Thread.joinable this = false ->
  alloc_fails (env w) (length (trace w)) = false ->
  copy_throws (env w) (length (trace w)) = None ->
  os_result (env w) (S (length (trace w))) = 0%Z ->
  Thread.start this func w
  = (Returned (Thread.mk (Some (S (length (trace w)))) true),
     set_trace (fun t => t ++ [ev_new; ev_pthread_create func]) w).
Proof.
  unfold Thread.joinable. intros Hj Ha Hc Hr.
  unfold Thread.start, Thread.start_entry, operator_new, pthread_create, bind.
  rewrite Hj. cbn. rewrite Ha. cbn. rewrite Hc. cbn.
  rewrite length_app, Nat.add_1_r. cbn.
  rewrite Hr. cbn. rewrite set_trace_app. reflexivity.
Qed.

(** C10.  A default-constructed [Thread] is not joinable; a [start] or a
    construction with a function that returns leaves the thread joinable;
    [start] on a joinable thread and the destruction of a joinable thread
    call std::terminate. *)
Theorem Thread_joinable_or_terminate :
  Thread.joinable Thread.Thread = false /\
  (forall (this this' : Thread.t) (func : nat) (w w' : World),
     Thread.start this func w = (Returned this', w') -> Thread.joinable this' = true) /\
  (forall (this' : Thread.t) (func : nat) (w w' : World),
     Thread.Thread_F func w = (Returned this', w') -> Thread.joinable this' = true) /\
  (forall (this : Thread.t) (func : nat) (w : World),
     Thread.joinable this = true -> Thread.start this func w = (Terminated, w)) /\
  (forall (this : Thread.t) (w : World),
     Thread.joinable this = true -> Thread.dtor this w = (Terminated, w)) /\
  (forall (this : Thread.t) (w : World),
     Thread.joinable this = false -> Thread.dtor this w = (Returned tt, w)).
Proof.
  repeat split.
  - intros this this' func w w' H. unfold Thread.start in H.
    apply bind_inv in H as (_ & w1 & _ & H).
    apply bind_inv in H as (_ & w2 & _ & H).
    apply bind_inv in H as (t & w3 & _ & H).
    cbn in H. simplify_eq. reflexivity.
  - intros this' func w w' H. unfold Thread.Thread_F in H.
    apply bind_inv in H as (_ & w1 & _ & H).
    apply bind_inv in H as (t & w2 & H & H').
    cbn in H'. simplify_eq.
    unfold Thread.start_entry in H.
    apply bind_inv in H as ([r id] & w3 & _ & H).
    destruct (negb (r =? 0)%Z).
    + apply bind_inv in H as (n & w4 & _ & H). destruct n; discriminate.
    + cbn in H. simplify_eq. reflexivity.
  - intros this func w H. unfold Thread.joinable in H. unfold Thread.start, bind.
    rewrite H. reflexivity.
  - intros this w H. unfold Thread.joinable in H. unfold Thread.dtor. rewrite H. reflexivity.
  - intros this w H. unfold Thread.joinable in H. unfold Thread.dtor. rewrite H. reflexivity.
Qed.

(** A thread is started in a world where pthread_create succeeds, and is
    joinable afterwards. *)
Lemma Thread_joinable_or_terminate_witness :
  let w := example_world (example_config true true) (quiet_env 0) unlocked unlocked
             (SharedPart_emulation 0 0) 0 in
  (Thread.start Thread.Thread 0 w).1 = Returned (Thread.mk (Some 1) true) /\
  Thread.joinable (Thread.mk (Some 1) true) = true.
Proof.
  intros w. split; [vm_compute; reflexivity|].
  apply (proj1 (proj2 Thread_joinable_or_terminate) Thread.Thread _ 0 w
           (Thread.start Thread.Thread 0 w).2).
  vm_compute. reflexivity.
Defined.

(** ** CondVar::close *)

Lemma close_frame_refl (this : CondVar.t) (w : World) : close_frame this w w.
Proof. unfold close_frame. auto. Qed.

Lemma close_frame_trans (this : CondVar.t) (w1 w2 w3 : World) :
  close_frame this w1 w2 -> close_frame this w2 w3 -> close_frame this w1 w3.
Proof.
  intros (H1 & H2 & H3 & H4 & H5) (H1' & H2' & H3' & H4' & H5').
  repeat split; try congruence.
  - intros s Hs. rewrite H4', H4; auto.
  - intros c Hc. rewrite H5', H5; auto.
Qed.

(** C8.  However [close()] ends, the shared memory, and with it every
    field of every shared part, is what it was; so are the mutexes and the
    data they protect.  Of the semaphores only the handle of this
    condition variable can have gone, and of the condition variables
    allocated with new only the one this handle owns can have changed. *)
Theorem close_frames_shared_part (this : CondVar.t) (w w' : World)
    (o : outcome CondVar.t) :
  CondVar.close this w = (o, w') ->
  shared_memory w' = shared_memory w /\
  mutexes w' = mutexes w /\
  protected_data w' = protected_data w /\
  (forall s, CondVar.m_sem this <> Some s -> semaphores w' !! s = semaphores w !! s) /\
  (forall c, CondVar.m_cond this <> Some c -> private_conds w' !! c = private_conds w !! c).
Proof.
  revert w o w'. change (preserves (close_frame this) (CondVar.close this)).
  pose proof (close_frame_refl this) as Hrefl.
  pose proof (close_frame_trans this) as Htrans.
  unfold CondVar.close.
  destruct (CondVar.m_sem this) as [sem|] eqn:Hsem.
  - unfold sem_close. frame.
    + apply preserves_log. intros w. unfold close_frame; cbn. auto.
    + apply preserves_modify. intros w. unfold close_frame; cbn.
      repeat split; try done. intros s Hs. apply lookup_delete_ne. congruence.
  - destruct (CondVar.m_cond this) as [cond|] eqn:Hcond; [|frame].
    unfold pthread_cond_destroy, operator_delete. frame.
    all: try (apply preserves_log; intros w; unfold close_frame; cbn; auto).
    all: apply preserves_modify; intros w; unfold close_frame; cbn;
      repeat split; try done; intros c Hc.
    + apply lookup_insert_ne. congruence.
    + apply lookup_delete_ne. congruence.
Qed.

(** [close()] on the handle of an emulated condition variable bound to the
    shared part at address 3. *)
Lemma close_frames_shared_part_witness :
  let w := example_world (example_config true true) (quiet_env 0) unlocked unlocked
             (SharedPart_emulation 7 3) 1 in
  shared_memory (CondVar.close (CondVar.mk (Some 3) (Some 4) None) w).2 !! 3
  = Some (SharedPart_emulation 7 3).
Proof.
  intros w.
  rewrite (proj1 (close_frames_shared_part (CondVar.mk (Some 3) (Some 4) None) w _ _
                    (surjective_pairing _))).
  reflexivity.
Defined.

(** ** RobustMutex::lock *)

(** Case analysis on the first [match] or [if] that blocks the evaluation
    of a run. *)
Ltac break_run H :=
  repeat (cbn in H;
          match type of H with
          | context [match ?x with _ => _ end] =>
              lazymatch x with
              | context [match _ with _ => _ end] => fail
              | _ => let E := fresh "E" in destruct x eqn:E
              end
          end);
  cbn in H.

Lemma low_level_lock_inv (this : RobustMutex.t) (w w1 : World) (b : bool) :
  distinct_errno (cfg w) ->
  RobustMutex.low_level_lock this w = (Returned b, w1) ->
  exists mu, mutexes w !! this = Some mu /\
    if b then
      status mu = unlocked /\ w1 = acquired this mu locked (ev_low_level_lock this) w
    else
      status mu = abandoned /\ robust_attr mu = true /\ robust_platform (cfg w) = true /\
      w1 = acquired this mu locked_inconsistent (ev_low_level_lock this) w.
Proof.
  intros (Hd1 & Hd2 & Hd3) H.
  unfold RobustMutex.low_level_lock, mutex_lock_effect, interference, set_status, bind in H.
  cbn in H.
  destruct (mutexes w !! this) as [mu|] eqn:Hmu; cbn in H; [|discriminate].
  exists mu. split; [reflexivity|].
  destruct (status mu) eqn:Hs; cbn in H; try discriminate.
  - simplify_eq. auto.
  - destruct (robust_attr mu) eqn:Hr; cbn in H; [|discriminate].
    rewrite Pos.eqb_refl in H.
    destruct (robust_platform (cfg w)) eqn:Hp; cbn in H; [|discriminate].
    simplify_eq. unfold acquired. rewrite Hr. auto.
  - destruct (robust_platform (cfg w)) eqn:Hp; cbn in H; [|discriminate].
    rewrite Pos.eqb_refl in H.
    destruct (ENOTRECOVERABLE (cfg w) =? EOWNERDEAD (cfg w))%positive eqn:E;
      cbn in H; [|discriminate].
    apply Pos.eqb_eq in E. congruence.
Qed.

(** When [low_level_lock] does not return, neither does [lock], and
    nothing else has been done. *)
Lemma lock_ends_with_low_level_lock (this : addr) (recover_func : recover_func_t)
    (w w1 : World) (o : outcome bool) :
  RobustMutex.low_level_lock this w = (o, w1) ->
  (forall b, o <> Returned b) ->
  (RobustMutex.lock this recover_func w).2 = w1 /\
  (forall u, (RobustMutex.lock this recover_func w).1 <> Returned u).
Proof.
  intros H Ho. unfold RobustMutex.lock, bind. rewrite H.
  destruct o; cbn; try done. exfalso. eapply Ho. reflexivity.
Qed.

(** C1.  [lock(recover_func)] first performs [low_level_lock()].  When
    that reports true, [lock] returns at once, in the world
    [low_level_lock] left, and the callback has not been invoked.  When
    it reports false the callback is invoked; if the callback returns,
    [mark_as_consistent()] is called and [lock] returns with the lock
    held and consistent; if the callback throws, [unlock()] is called,
    [mark_as_consistent()] is not, the exception is propagated and the
    mutex is left unrecoverable. *)
Theorem RobustMutex_lock_recovery (this : addr) (recover_func : recover_func_t)
    (w w1 : World) (b : bool) :
  distinct_errno (cfg w) ->
  RobustMutex.low_level_lock this w = (Returned b, w1) ->
  trace w1 = trace w ++ [ev_low_level_lock this] /\
  held_by_caller this w1 = true /\
  if b then
    RobustMutex.lock this recover_func w = (Returned tt, w1)
  else
    match recover_func (protected_data w1) with
    | (Returned _, d) =>
        exists w', RobustMutex.lock this recover_func w = (Returned tt, w') /\
          trace w' = trace w ++ [ev_low_level_lock this; ev_recover_func;
                                 ev_mark_as_consistent this] /\
          status <$> mutexes w' !! this = Some locked /\
          protected_data w' = d
    | (Thrown e, d) =>
        exists w', RobustMutex.lock this recover_func w = (Thrown e, w') /\
          trace w' = trace w ++ [ev_low_level_lock this; ev_recover_func;
                                 ev_pthread_mutex_unlock this] /\
          status <$> mutexes w' !! this = Some unrecoverable /\
          protected_data w' = d
    | (_, d) =>
        exists w', (RobustMutex.lock this recover_func w).2 = w' /\
          (forall u, (RobustMutex.lock this recover_func w).1 <> Returned u) /\
          trace w' = trace w ++ [ev_low_level_lock this; ev_recover_func] /\
          protected_data w' = d
    end.
Proof.
  intros Hd H.
  destruct (low_level_lock_inv _ _ _ _ Hd H) as (mu & Hmu & Hb).
  unfold RobustMutex.lock. rewrite (bind_run _ _ _ _ _ H).
  destruct b.
  - destruct Hb as (Hs & ->). unfold held_by_caller. cbn.
    rewrite lookup_insert_eq. auto.
  - destruct Hb as (Hs & Hr & Hp & ->). unfold held_by_caller. cbn.
    rewrite lookup_insert_eq. split; [reflexivity|]. split; [reflexivity|].
    unfold try_catch, call_recover_func, RobustMutex.mark_as_consistent,
      RobustMutex.unlock, Mutex.unlock, pthread_mutex_unlock, mutex_unlock_effect,
      mutex_consistent_effect, set_status, TIGHTDB_ASSERT, bind.
    cbn. destruct (recover_func (protected_data w)) as [[[]| e | | | |] d]; cbn;
      rewrite ?Hp; cbn; rewrite ?lookup_insert_eq; cbn;
      rewrite ?andb_false_r; cbn; rewrite ?lookup_insert_eq; cbn;
      (eexists; split; [reflexivity|]); cbn;
      rewrite ?lookup_insert_eq, <- ?app_assoc; cbn; repeat split; done.
Qed.

(** The theorem at a robust mutex whose holder died, with a callback that
    repairs the data and with one that throws. *)
Lemma RobustMutex_lock_recovery_witness :
  let w := example_world (example_config true true) (quiet_env 0) unlocked abandoned
             (SharedPart_emulation 0 0) 0 in
  (exists w', RobustMutex.lock 2 (fun d => (Returned tt, <[0 := 1%Z]> d)) w = (Returned tt, w') /\
     trace w' = [ev_low_level_lock 2; ev_recover_func; ev_mark_as_consistent 2] /\
     status <$> mutexes w' !! 2 = Some locked) /\
  (exists w', RobustMutex.lock 2 (fun d => (Thrown (app_exception 9), d)) w
              = (Thrown (app_exception 9), w') /\
     trace w' = [ev_low_level_lock 2; ev_recover_func; ev_pthread_mutex_unlock 2] /\
     status <$> mutexes w' !! 2 = Some unrecoverable).
Proof.
  intros w.
  assert (Hd : distinct_errno (cfg w)) by (repeat split; discriminate).
  assert (Hl : RobustMutex.low_level_lock 2 w
               = (Returned false, (RobustMutex.low_level_lock 2 w).2))
    by (vm_compute; reflexivity).
  split.
  - destruct (RobustMutex_lock_recovery 2 (fun d => (Returned tt, <[0 := 1%Z]> d))
                w _ false Hd Hl) as (_ & _ & w' & H1 & H2 & H3 & _).
    exists w'. auto.
  - destruct (RobustMutex_lock_recovery 2 (fun d => (Thrown (app_exception 9), d))
                w _ false Hd Hl) as (_ & _ & w' & H1 & H2 & H3 & _).
    exists w'. auto.
Defined.

(** ** CondVar::wait on a robust mutex: the timeout *)

Lemma cond_wait_effect_frame (c : option cond_ptr) (m : addr) (k : nat) :
  preserves wait_frame (cond_wait_effect c m k).
Proof.
  assert (Hrefl : forall w, wait_frame w w) by (intros w; repeat split).
  assert (Htrans : forall w1 w2 w3, wait_frame w1 w2 -> wait_frame w2 w3 -> wait_frame w1 w3).
  { intros w1 w2 w3 (?&?&?&?&?&?) (?&?&?&?&?&?). repeat split; congruence. }
  unfold cond_wait_effect, deref_cond, interference, set_status. frame.
  all: apply preserves_modify; intros w; repeat split.
Qed.

Lemma pthread_cond_timedwait_inv (c : option cond_ptr) (m : addr) (t r : Z) (w w1 : World) :
  pthread_cond_timedwait c m t w = (Returned r, w1) ->
  exists c', c = Some c' /\
    cfg w1 = cfg w /\ env w1 = env w /\
    trace w1 = trace w ++ [ev_pthread_cond_timedwait c' m t] /\
    protected_data w1 = protected_data w /\
    r = os_result (env w) (length (trace w)).
Proof.
  unfold pthread_cond_timedwait. intros H.
  apply bind_inv in H as (k & w0 & Hk & H). cbn in Hk. simplify_eq.
  apply bind_inv in H as ([] & w2 & Hlog & H).
  destruct c as [c'|]; cbn in Hlog; simplify_eq.
  exists c'. split; [reflexivity|].
  pose proof (cond_wait_effect_frame _ _ _ _ _ _ H) as (H1 & H2 & H3 & H4 & _).
  cbn in *. repeat split; try done.
  unfold cond_wait_effect, deref_cond, interference, set_status, bind in H.
  break_run H; simplify_eq; reflexivity.
Qed.

(** C6.  Outside the emulation, with a timeout [tp]: when
    pthread_cond_timedwait reports ETIMEDOUT, [wait] returns normally in
    the world the primitive left.  The call of the primitive is the only
    event: the recovery callback is not invoked, and neither
    [handle_wait_error], [mark_as_consistent] nor [unlock] is called; the
    protected data is untouched.  All of this holds as well when the
    primitive reports success: [wait] returns void, and the outcome of a
    timeout is the outcome of a wake-up. *)
Theorem wait_timeout_returns (fuel : nat) (this : CondVar.t) (m : addr)
    (recover_func : recover_func_t) (tp r : Z) (w w1 : World) :
  TIGHTDB_CONDVAR_EMULATION (cfg w) = false \/ CondVar.m_sem this = None ->
  r = Z.pos (ETIMEDOUT (cfg w)) \/ r = 0%Z ->
  pthread_cond_timedwait (native_cond this w) m tp w = (Returned r, w1) ->
  CondVar.wait_robust fuel this m recover_func (Some tp) w = (Returned tt, w1) /\
  (exists c, native_cond this w = Some c /\
     trace w1 = trace w ++ [ev_pthread_cond_timedwait c m tp]) /\
  protected_data w1 = protected_data w.
Proof.
  intros Hnative Hr H.
  destruct (pthread_cond_timedwait_inv _ _ _ _ _ _ H) as (c & Hc & Hcfg & _ & Ht & Hd & _).
  split; [|split; [exists c; auto | exact Hd]].
  assert (Hn : CondVar.wait_robust_native (native_cond this w) m recover_func (Some tp) w
               = (Returned tt, w1)).
  { unfold CondVar.wait_robust_native, bind. rewrite H. cbn.
    destruct Hr as [-> | ->]; cbn.
    - rewrite Hcfg, Pos.eqb_refl. reflexivity.
    - reflexivity. }
  unfold CondVar.wait_robust, bind. cbn.
  unfold native_cond in Hn.
  destruct (TIGHTDB_CONDVAR_EMULATION (cfg w)); [|exact Hn].
  destruct Hnative as [Hf | Hsem]; [discriminate|]. rewrite Hsem. exact Hn.
Qed.

(** A process-local condition variable, a robust mutex the caller holds,
    and an operating system that answers ETIMEDOUT (60). *)
Lemma wait_timeout_returns_witness :
  let w := example_world (example_config true true) (quiet_env 60) unlocked locked
             (SharedPart_emulation 0 0) 0 in
  exists w1,
    CondVar.wait_robust 0 (CondVar.mk None None (Some 5)) 2
      (fun d => (Thrown NotRecoverable, d)) (Some 1000%Z) w
    = (Returned tt, w1) /\
    trace w1 = [ev_pthread_cond_timedwait (inl 5) 2 1000].
Proof.
  intros w.
  destruct (wait_timeout_returns 0 (CondVar.mk None None (Some 5)) 2
              (fun d => (Thrown NotRecoverable, d)) 1000 60 w
              (pthread_cond_timedwait (Some (inl 5)) 2 1000 w).2
              (or_intror eq_refl) (or_introl eq_refl))
    as (H1 & (c & Hc & H2) & _).
  - vm_compute. reflexivity.
  - eexists. split; [exact H1|].
    cbv in Hc. injection Hc as <-. exact H2.
Defined.

(** The timeout is not an outcome of its own.  The same call in two
    worlds that differ only in the answer of pthread_cond_timedwait,
    ETIMEDOUT (60) in one and success in the other: both calls return,
    and they leave the same mutexes, shared parts, condition variables,
    semaphores, protected data and events. *)
Lemma wait_timeout_not_distinct :
  let this := CondVar.mk None None (Some 5) in
  let recover_func : recover_func_t := fun d => (Thrown NotRecoverable, d) in
  let timeout :=
    CondVar.wait_robust 0 this 2 recover_func (Some 1000%Z)
      (example_world (example_config true true) (quiet_env 60) unlocked locked
         (SharedPart_emulation 0 0) 0) in
  let success :=
    CondVar.wait_robust 0 this 2 recover_func (Some 1000%Z)
      (example_world (example_config true true) (quiet_env 0) unlocked locked
         (SharedPart_emulation 0 0) 0) in
  timeout.1 = Returned tt /\ success.1 = Returned tt /\
  mutexes timeout.2 = mutexes success.2 /\
  shared_memory timeout.2 = shared_memory success.2 /\
  private_conds timeout.2 = private_conds success.2 /\
  semaphores timeout.2 = semaphores success.2 /\
  protected_data timeout.2 = protected_data success.2 /\
  trace timeout.2 = trace success.2.
Proof. vm_compute. repeat split. Qed.

(** ** CondVar::notify and CondVar::notify_all under emulation *)

(** One unfolding of the loop of [notify_all()]. *)
Lemma notify_all_loop_unfold (this : CondVar.t) (sem : addr) (w : World) :
  CondVar.notify_all_loop this sem w =
  match CondVar.load_waiters this w with
  | (Returned wt, w1) =>
      if (wt =? 0)%N then (Returned tt, w1)
      else
        match (sem_post sem ;;; CondVar.decr_waiters this) w1 with
        | (Returned _, w2) => CondVar.notify_all_loop this sem w2
        | (o, w2) => (o, w2)
        end
  | (Thrown e, w1) => (Thrown e, w1)
  | (Terminated, w1) => (Terminated, w1)
  | (Undefined, w1) => (Undefined, w1)
  | (Blocked, w1) => (Blocked, w1)
  | (OutOfFuel, w1) => (OutOfFuel, w1)
  end.
Proof.
  destruct (CondVar.load_waiters this w) as [o w1] eqn:E.
  simp notify_all_loop.
  generalize (inspect (CondVar.load_waiters this w)). intros [[o' w1'] H].
  assert (Heq : (o', w1') = (o, w1)) by congruence. simplify_eq.
  destruct o as [wt| | | | |]; simp notify_all_loop; try reflexivity.
  destruct wt as [|n]; cbn [N.eqb]; unfold inspect; simp notify_all_loop; [reflexivity|].
  generalize (inspect ((sem_post sem ;;; CondVar.decr_waiters this) w1)).
  intros [[o2 w2] H2].
  symmetry. etransitivity; [rewrite H2; reflexivity|].
  destruct o2; simp notify_all_loop; reflexivity.
Qed.

Lemma drain_events_posts (p sem : addr) (n : nat) :
  List.filter is_sem_post (drain_events p sem n) = repeat (ev_sem_post sem) n /\
  List.filter is_signal_counter_store (drain_events p sem n) = [].
Proof.
  induction n as [|n [IH1 IH2]]; [split; reflexivity|].
  cbn [drain_events app List.filter is_sem_post is_signal_counter_store repeat].
  rewrite IH1, IH2. split; reflexivity.
Qed.

Lemma uint32_decr_succ (n : nat) :
  is_uint32 (N.of_nat (S n)) -> uint32_decr (N.of_nat (S n)) = N.of_nat n.
Proof.
  unfold is_uint32, uint32_decr. intros H.
  replace (N.of_nat (S n) + (2 ^ 32 - 1))%N with (N.of_nat n + 1 * 2 ^ 32)%N by lia.
  rewrite N.Div0.mod_add. apply N.mod_small. lia.
Qed.

(** The loop of [notify_all()] posts once per waiter and leaves no waiter. *)
Lemma notify_all_loop_run (n : nat) :
  forall (this : CondVar.t) (sem p : addr) (sc v : N) (w : World),
    CondVar.m_shared_part this = Some p ->
    shared_memory w !! p = Some (SharedPart_emulation sc (N.of_nat n)) ->
    is_uint32 (N.of_nat n) ->
    semaphores w !! sem = Some v ->
    CondVar.notify_all_loop this sem w =
    (Returned tt,
     mkWorld (cfg w) (env w) (mutexes w)
       (<[p := SharedPart_emulation sc 0]> (shared_memory w))
       (private_conds w)
       (<[sem := (v + N.of_nat n)%N]> (semaphores w))
       (protected_data w)
       (trace w ++ drain_events p sem n ++ [ev_load_waiters p 0])).
Proof.
  induction n as [|n IH]; intros this sem p sc v w Hp Hm Hwt Hv;
    rewrite notify_all_loop_unfold;
    rewrite (load_waiters_run _ _ _ _ _ Hp Hm).
  - cbn. rewrite N.add_0_r, !insert_id by assumption. reflexivity.
  - replace (N.of_nat (S n) =? 0)%N with false by (symmetry; apply N.eqb_neq; lia).
    unfold bind at 1. unfold sem_post at 1. unfold bind. cbn [log modify get].
    cbn [semaphores set_trace]. rewrite Hv.
    cbn [modify]. erewrite decr_waiters_run; [|exact Hp|cbn; exact Hm].
    rewrite (uint32_decr_succ _ Hwt).
    erewrite IH; [|exact Hp|cbn; apply lookup_insert_eq| |cbn; apply lookup_insert_eq].
    2: { unfold is_uint32 in *. lia. }
    cbn. rewrite !insert_insert_eq. f_equal. f_equal.
    + f_equal. lia.
    + rewrite <- !app_assoc. reflexivity.
Qed.

Lemma load_signal_counter_run (this : CondVar.t) (w : World) (p : addr) (sc wt : N) :
  CondVar.m_shared_part this = Some p ->
  shared_memory w !! p = Some (SharedPart_emulation sc wt) ->
  CondVar.load_signal_counter this w
  = (Returned sc, set_trace (fun t => t ++ [ev_load_signal_counter p sc]) w).
Proof.
  intros Hp Hm. unfold CondVar.load_signal_counter. unfold bind at 1.
  rewrite (load_shared_part_run _ _ _ _ _ Hp Hm). reflexivity.
Qed.

Lemma incr_signal_counter_run (this : CondVar.t) (w : World) (p : addr) (sc wt : N) :
  CondVar.m_shared_part this = Some p ->
  shared_memory w !! p = Some (SharedPart_emulation sc wt) ->
  CondVar.incr_signal_counter this w =
  (Returned tt,
   set_shared_memory (fun sm => <[p := SharedPart_emulation (uint64_incr sc) wt]> sm)
     (set_trace (fun t => t ++ [ev_load_signal_counter p sc;
                                ev_store_signal_counter p (uint64_incr sc)]) w)).
Proof.
  intros Hp Hm. unfold CondVar.incr_signal_counter. unfold bind at 1.
  rewrite (load_signal_counter_run _ _ _ _ _ Hp Hm).
  unfold CondVar.store_signal_counter. unfold bind at 1.
  erewrite load_shared_part_run; [|exact Hp|cbn; exact Hm].
  cbn. unfold set_shared_memory, set_trace. cbn. rewrite <- app_assoc. reflexivity.
Qed.

Lemma incr_waiters_run (this : CondVar.t) (w : World) (p : addr) (sc wt : N) :
  CondVar.m_shared_part this = Some p ->
  shared_memory w !! p = Some (SharedPart_emulation sc wt) ->
  CondVar.incr_waiters this w =
  (Returned tt,
   set_shared_memory (fun sm => <[p := SharedPart_emulation sc (uint32_incr wt)]> sm)
     (set_trace (fun t => t ++ [ev_load_waiters p wt;
                                ev_store_waiters p (uint32_incr wt)]) w)).
Proof.
  intros Hp Hm. unfold CondVar.incr_waiters. unfold bind at 1.
  rewrite (load_waiters_run _ _ _ _ _ Hp Hm).
  erewrite store_waiters_run; [|exact Hp|cbn; exact Hm].
  cbn. unfold set_shared_memory, set_trace. cbn. rewrite <- app_assoc. reflexivity.
Qed.

Lemma TIGHTDB_ASSERT_true (w : World) : TIGHTDB_ASSERT true w = (Returned tt, w).
Proof. unfold TIGHTDB_ASSERT, bind. cbn. rewrite andb_false_r. reflexivity. Qed.

(** C3.  Under emulation [notify_all()] returns; it has stored the signal
    counter once, incremented by one; it has posted the semaphore of the
    handle once for each waiter that was registered, and no other; and the
    waiter count is zero. *)
Theorem notify_all_posts_per_waiter (this : CondVar.t) (sem p : addr) (sc wt v : N)
    (w : World) :
  TIGHTDB_CONDVAR_EMULATION (cfg w) = true ->
  CondVar.m_sem this = Some sem ->
  CondVar.m_shared_part this = Some p ->
  shared_memory w !! p = Some (SharedPart_emulation sc wt) ->
  is_uint32 wt ->
  semaphores w !! sem = Some v ->
  let new := [ev_load_signal_counter p sc; ev_store_signal_counter p (uint64_incr sc)]
             ++ drain_events p sem (N.to_nat wt) ++ [ev_load_waiters p 0] in
  CondVar.notify_all this w =
  (Returned tt,
   mkWorld (cfg w) (env w) (mutexes w)
     (<[p := SharedPart_emulation (uint64_incr sc) 0]> (shared_memory w))
     (private_conds w)
     (<[sem := (v + wt)%N]> (semaphores w))
     (protected_data w)
     (trace w ++ new)) /\
  List.filter is_sem_post new = repeat (ev_sem_post sem) (N.to_nat wt) /\
  List.filter is_signal_counter_store new = [ev_store_signal_counter p (uint64_incr sc)].
Proof.
  intros He Hsem Hp Hm Hwt Hv new.
  destruct (drain_events_posts p sem (N.to_nat wt)) as [Hposts Hstores].
  split; [|split].
  - unfold CondVar.notify_all, bind at 1. cbn [get]. rewrite He, Hsem, Hp.
    cbn [CondVar.non_null]. unfold bind at 1. rewrite TIGHTDB_ASSERT_true.
    unfold bind. rewrite (incr_signal_counter_run _ _ _ _ _ Hp Hm).
    rewrite (notify_all_loop_run (N.to_nat wt) this sem p (uint64_incr sc) v);
      [|exact Hp|cbn; rewrite N2Nat.id; apply lookup_insert_eq
       |rewrite N2Nat.id; exact Hwt|cbn; exact Hv].
    cbn. rewrite N2Nat.id, insert_insert_eq. subst new.
    rewrite <- !app_assoc. reflexivity.
  - subst new. cbn [app List.filter is_sem_post].
    rewrite List.filter_app, Hposts. cbn. apply app_nil_r.
  - subst new. cbn [app List.filter is_signal_counter_store].
    rewrite List.filter_app, Hstores. reflexivity.
Qed.

(** [notify_all()] with three registered waiters. *)
Lemma notify_all_posts_per_waiter_witness :
  let w := example_world (example_config true true) (quiet_env 0) locked unlocked
             (SharedPart_emulation 7 3) 0 in
  let w' := (CondVar.notify_all (CondVar.mk (Some 3) (Some 4) None) w).2 in
  shared_memory w' !! 3 = Some (SharedPart_emulation 8 0) /\
  semaphores w' !! 4 = Some 3%N /\
  List.filter is_sem_post (trace w') = [ev_sem_post 4; ev_sem_post 4; ev_sem_post 4].
Proof.
  intros w w'.
  destruct (notify_all_posts_per_waiter (CondVar.mk (Some 3) (Some 4) None) 4 3 7 3 0 w
              eq_refl eq_refl eq_refl eq_refl eq_refl eq_refl) as (H & _ & _).
  subst w'. rewrite H. vm_compute. auto.
Defined.

Lemma keeps_signal_counter_refl (p : addr) (w : World) : keeps_signal_counter p w w.
Proof. split; auto. Qed.

Lemma keeps_signal_counter_trans (p : addr) (w1 w2 w3 : World) :
  keeps_signal_counter p w1 w2 -> keeps_signal_counter p w2 w3 ->
  keeps_signal_counter p w1 w3.
Proof.
  intros [He1 H1] [He2 H2]. split; [congruence|].
  intros Hq. rewrite H2, H1; auto. rewrite He1. exact Hq.
Qed.

(** Solves the frame conditions of the primitives, which change the world
    only through [modify]. *)
Ltac frame_modify R_refl R_trans :=
  pose proof R_refl as Hrefl; pose proof R_trans as Htrans;
  frame; apply preserves_modify; intros w.

Lemma sem_wait_keeps (p s : addr) : preserves (keeps_signal_counter p) (sem_wait s).
Proof.
  unfold sem_wait, log.
  frame_modify (keeps_signal_counter_refl p) (keeps_signal_counter_trans p);
    split; auto.
Qed.

Lemma sem_post_keeps (p s : addr) : preserves (keeps_signal_counter p) (sem_post s).
Proof.
  unfold sem_post, log.
  frame_modify (keeps_signal_counter_refl p) (keeps_signal_counter_trans p);
    split; auto.
Qed.

Lemma sched_yield_keeps (p : addr) : preserves (keeps_signal_counter p) sched_yield.
Proof.
  unfold sched_yield, log.
  frame_modify (keeps_signal_counter_refl p) (keeps_signal_counter_trans p);
    split; auto.
Qed.

Lemma mutex_lock_effect_keeps (p m : addr) (k : nat) :
  preserves (keeps_signal_counter p) (mutex_lock_effect m k).
Proof.
  unfold mutex_lock_effect, interference, set_status.
  frame_modify (keeps_signal_counter_refl p) (keeps_signal_counter_trans p);
    split; auto; intros Hq; cbn; apply Hq.
Qed.

Lemma Mutex_lock_keeps (p m : addr) : preserves (keeps_signal_counter p) (Mutex.lock m).
Proof.
  pose proof (mutex_lock_effect_keeps p m) as Heff.
  unfold Mutex.lock, pthread_mutex_lock, log.
  pose proof (keeps_signal_counter_refl p) as Hrefl.
  pose proof (keeps_signal_counter_trans p) as Htrans.
  frame_with ltac:(apply Heff). apply preserves_modify; intros w; split; auto.
Qed.

Lemma Mutex_unlock_keeps (p m : addr) : preserves (keeps_signal_counter p) (Mutex.unlock m).
Proof.
  unfold Mutex.unlock, pthread_mutex_unlock, mutex_unlock_effect, set_status, log.
  frame_modify (keeps_signal_counter_refl p) (keeps_signal_counter_trans p);
    split; auto.
Qed.

Lemma load_signal_counter_inv (this : CondVar.t) (w w1 : World) (sc : N) :
  CondVar.load_signal_counter this w = (Returned sc, w1) ->
  exists p, CondVar.m_shared_part this = Some p /\
    signal_counter_at p (shared_memory w) = Some sc /\
    w1 = set_trace (fun t => t ++ [ev_load_signal_counter p sc]) w.
Proof.
  unfold CondVar.load_signal_counter. intros H.
  apply bind_inv in H as ([[p sc'] wt] & w2 & H & H').
  apply load_shared_part_inv in H as (-> & Hp & Hm). cbn in Hp, Hm, H'.
  simplify_eq. exists p. unfold signal_counter_at. rewrite Hm. auto.
Qed.

(** While nobody else notifies, the loop of [wait(LockGuard&)] does not
    leave: whatever the bound on the iterations, it does not return. *)
Lemma wait_loop_keeps_waiting (fuel : nat) :
  forall (this : CondVar.t) (sem p : addr) (l : LockGuard.t) (c : N) (w : World),
    CondVar.m_shared_part this = Some p ->
    no_other_notifier p (env w) ->
    signal_counter_at p (shared_memory w) = Some c ->
    forall u w', CondVar.wait_loop fuel this sem l c w <> (Returned u, w').
Proof.
  induction fuel as [|fuel IH]; intros this sem p l c w Hp Hq Hc u w' H; [discriminate|].
  cbn [CondVar.wait_loop] in H.
  apply bind_inv in H as (? & w1 & H1 & H).
  pose proof (sem_wait_keeps p _ _ _ _ H1) as K1.
  apply bind_inv in H as (? & w2 & H2 & H).
  pose proof (Mutex_lock_keeps p _ _ _ _ H2) as K2.
  apply bind_inv in H as (sc & w3 & H3 & H).
  pose proof (keeps_signal_counter_trans _ _ _ _ K1 K2) as [He12 H12].
  apply load_signal_counter_inv in H3 as (p' & Hp' & Hsc & ->).
  assert (p' = p) by congruence. subst p'.
  rewrite (H12 Hq), Hc in Hsc. injection Hsc as <-.
  rewrite N.eqb_refl in H. cbn [negb] in H.
  apply bind_inv in H as (? & w4 & H4 & H).
  pose proof (sem_post_keeps p _ _ _ _ H4) as K4.
  apply bind_inv in H as (? & w5 & H5 & H).
  pose proof (sched_yield_keeps p _ _ _ H5) as K5.
  apply bind_inv in H as (? & w6 & H6 & H).
  pose proof (Mutex_unlock_keeps p _ _ _ _ H6) as K6.
  pose proof (keeps_signal_counter_trans _ _ _ _ K4
                (keeps_signal_counter_trans _ _ _ _ K5 K6)) as [He36 H36].
  cbn in He36, H36. rewrite He12 in He36, H36.
  eapply (IH this sem p l c w6); [exact Hp| rewrite He36; exact Hq | | exact H].
  rewrite (H36 Hq). rewrite (H12 Hq). exact Hc.
Qed.

Lemma uint32_decr_pred (wt : N) :
  is_uint32 wt -> wt <> 0%N -> uint32_decr wt = (wt - 1)%N.
Proof.
  unfold is_uint32, uint32_decr. intros H Hnz.
  replace (wt + (2 ^ 32 - 1))%N with (wt - 1 + 1 * 2 ^ 32)%N by lia.
  rewrite N.Div0.mod_add. apply N.mod_small. lia.
Qed.

(** C4.  Under emulation [notify()] returns and has incremented the signal
    counter.  With at least one waiter registered it has posted the
    semaphore once and the waiter count is one less; with none it has
    posted nothing, and the waiter count and the semaphore are as they
    were.  A [wait] that follows a [notify()] issued without waiters is
    not satisfied by it: unless somebody else notifies, that [wait] does
    not return. *)
Theorem notify_posts_one_or_none (this : CondVar.t) (sem p : addr) (sc wt v : N)
    (w : World) :
  TIGHTDB_CONDVAR_EMULATION (cfg w) = true ->
  CondVar.m_sem this = Some sem ->
  CondVar.m_shared_part this = Some p ->
  shared_memory w !! p = Some (SharedPart_emulation sc wt) ->
  is_uint32 wt ->
  semaphores w !! sem = Some v ->
  CondVar.notify this w =
  (Returned tt,
   if (wt =? 0)%N then
     mkWorld (cfg w) (env w) (mutexes w)
       (<[p := SharedPart_emulation (uint64_incr sc) 0]> (shared_memory w))
       (private_conds w) (semaphores w) (protected_data w)
       (trace w ++ [ev_load_signal_counter p sc;
                    ev_store_signal_counter p (uint64_incr sc);
                    ev_load_waiters p 0])
   else
     mkWorld (cfg w) (env w) (mutexes w)
       (<[p := SharedPart_emulation (uint64_incr sc) (wt - 1)]> (shared_memory w))
       (private_conds w) (<[sem := (v + 1)%N]> (semaphores w)) (protected_data w)
       (trace w ++ [ev_load_signal_counter p sc;
                    ev_store_signal_counter p (uint64_incr sc);
                    ev_load_waiters p wt; ev_sem_post sem;
                    ev_load_waiters p wt; ev_store_waiters p (wt - 1)])) /\
  (wt = 0%N -> no_other_notifier p (env w) ->
   forall (fuel : nat) (l : LockGuard.t) (u : unit) (w' : World),
     (CondVar.notify this ;;; CondVar.wait fuel this l) w <> (Returned u, w')).
Proof.
  intros He Hsem Hp Hm Hwt Hv.
  assert (Hrun : CondVar.notify this w =
    (Returned tt,
     if (wt =? 0)%N then
       mkWorld (cfg w) (env w) (mutexes w)
         (<[p := SharedPart_emulation (uint64_incr sc) 0]> (shared_memory w))
         (private_conds w) (semaphores w) (protected_data w)
         (trace w ++ [ev_load_signal_counter p sc;
                      ev_store_signal_counter p (uint64_incr sc);
                      ev_load_waiters p 0])
     else
       mkWorld (cfg w) (env w) (mutexes w)
         (<[p := SharedPart_emulation (uint64_incr sc) (wt - 1)]> (shared_memory w))
         (private_conds w) (<[sem := (v + 1)%N]> (semaphores w)) (protected_data w)
         (trace w ++ [ev_load_signal_counter p sc;
                      ev_store_signal_counter p (uint64_incr sc);
                      ev_load_waiters p wt; ev_sem_post sem;
                      ev_load_waiters p wt; ev_store_waiters p (wt - 1)]))).
  { unfold CondVar.notify, bind at 1. cbn [get]. rewrite He, Hsem, Hp.
    cbn [CondVar.non_null]. unfold bind at 1. rewrite TIGHTDB_ASSERT_true.
    unfold bind at 1. rewrite (incr_signal_counter_run _ _ _ _ _ Hp Hm).
    unfold bind at 1.
    erewrite load_waiters_run; [|exact Hp|cbn; apply lookup_insert_eq].
    destruct (N.eqb_spec wt 0) as [->|Hnz]; cbn [negb].
    - cbn. unfold set_trace, set_shared_memory. cbn.
      rewrite <- app_assoc. reflexivity.
    - unfold bind at 1. unfold sem_post at 1. unfold bind. cbn [log modify get].
      cbn [semaphores set_trace set_shared_memory]. rewrite Hv. cbn [modify].
      erewrite decr_waiters_run; [|exact Hp|cbn; apply lookup_insert_eq].
      rewrite (uint32_decr_pred _ Hwt Hnz). cbn.
      unfold set_trace, set_shared_memory, set_semaphores. cbn.
      rewrite insert_insert_eq, <- !app_assoc. reflexivity. }
  split; [exact Hrun|].
  intros -> Hq fuel l u w' H.
  unfold bind at 1 in H. rewrite Hrun in H. cbn [N.eqb] in H.
  unfold CondVar.wait in H. unfold bind at 1 in H. cbn [get cfg] in H.
  rewrite He, Hsem, Hp in H. cbn [CondVar.non_null] in H.
  unfold bind at 1 in H. rewrite TIGHTDB_ASSERT_true in H.
  unfold bind at 1 in H.
  erewrite incr_waiters_run in H; [|exact Hp|cbn; apply lookup_insert_eq].
  unfold bind at 1 in H.
  erewrite load_signal_counter_run in H; [|exact Hp|cbn; apply lookup_insert_eq].
  apply bind_inv in H as (? & w1 & H1 & H).
  pose proof (Mutex_unlock_keeps p _ _ _ _ H1) as [He1 K1].
  cbn in He1, K1.
  eapply (wait_loop_keeps_waiting fuel this sem p l (uint64_incr sc) w1);
    [exact Hp | rewrite He1; exact Hq | | exact H].
  rewrite (K1 Hq). unfold signal_counter_at. rewrite lookup_insert_eq. reflexivity.
Qed.

(** A [notify()] with no waiter, then a [wait] with an allowance of a
    thousand iterations, in a world where nobody else notifies. *)
Lemma notify_posts_one_or_none_witness :
  let w := example_world (example_config true true) (quiet_env 0) locked unlocked
             (SharedPart_emulation 7 0) 1 in
  let this := CondVar.mk (Some 3) (Some 4) None in
  (CondVar.notify this w).1 = Returned tt /\
  semaphores (CondVar.notify this w).2 !! 4 = Some 1%N /\
  forall u w', (CondVar.notify this ;;; CondVar.wait 1000 this (LockGuard.mk 1)) w
               <> (Returned u, w').
Proof.
  intros w this.
  destruct (notify_posts_one_or_none this 4 3 7 0 1 w
              eq_refl eq_refl eq_refl eq_refl eq_refl eq_refl) as [H1 H2].
  rewrite H1. cbn [N.eqb fst snd semaphores].
  split; [reflexivity|]. split; [reflexivity|].
  intros u w'. apply H2; [reflexivity|]. intros k sm. reflexivity.
Defined.

(** ** LockGuard and UniqueLock *)

(** [Mutex::lock] returns only with a lock that was free. *)
Lemma Mutex_lock_inv (m : addr) (w w1 : World) (o : outcome unit) :
  Mutex.lock m w = (o, w1) ->
  match o with
  | Returned _ =>
      exists mu, mutexes w !! m = Some mu /\ status mu = unlocked /\
        w1 = acquired m mu locked (ev_pthread_mutex_lock m) w
  | Thrown _ => False
  | _ => True
  end.
Proof.
  unfold Mutex.lock, pthread_mutex_lock, mutex_lock_effect, interference, set_status, bind.
  cbn. intros H.
  destruct (mutexes w !! m) as [mu|] eqn:Hmu; cbn in H; [|simplify_eq; done].
  destruct (status mu) eqn:Hs; cbn in H; try (simplify_eq; done).
  - simplify_eq. eauto.
  - destruct (robust_attr mu); cbn in H; simplify_eq; done.
Qed.

Lemma Mutex_lock_run (m : addr) (mu : pthread_mutex_t) (w : World) :
  mutexes w !! m = Some mu -> status mu = unlocked ->
  Mutex.lock m w = (Returned tt, acquired m mu locked (ev_pthread_mutex_lock m) w).
Proof.
  intros Hmu Hs.
  unfold Mutex.lock, pthread_mutex_lock, mutex_lock_effect, interference, set_status, bind.
  cbn. rewrite Hmu. cbn. rewrite Hs. reflexivity.
Qed.

(** [Mutex::unlock] on a regular mutex returns only when the caller held
    the lock. *)
Lemma Mutex_unlock_inv (m : addr) (mu : pthread_mutex_t) (w w1 : World) (o : outcome unit) :
  Mutex.unlock m w = (o, w1) ->
  mutexes w !! m = Some mu -> robust_attr mu = false ->
  match o with
  | Returned _ =>
      (status mu = locked /\ w1 = released m mu unlocked w) \/
      (status mu = locked_inconsistent /\ w1 = released m mu unrecoverable w)
  | Thrown _ => False
  | _ => True
  end.
Proof.
  unfold Mutex.unlock, pthread_mutex_unlock, mutex_unlock_effect, set_status,
    TIGHTDB_ASSERT, bind.
  cbn. intros H Hmu Hr. rewrite Hmu in H. cbn in H. rewrite Hr in H.
  destruct (status mu) eqn:Hs; cbn in H; rewrite ?andb_false_r in H; cbn in H;
    simplify_eq; unfold released; rewrite ?Hr; auto.
Qed.

Lemma Mutex_unlock_run (m : addr) (mu : pthread_mutex_t) (w : World) :
  mutexes w !! m = Some mu -> status mu = locked ->
  Mutex.unlock m w = (Returned tt, released m mu unlocked w).
Proof.
  intros Hmu Hs.
  unfold Mutex.unlock, pthread_mutex_unlock, mutex_unlock_effect, set_status,
    TIGHTDB_ASSERT, bind.
  cbn. rewrite Hmu. cbn. rewrite Hs. cbn. rewrite andb_false_r. reflexivity.
Qed.

Lemma occurrences_app (e : event) (t1 t2 : list event) :
  occurrences e (t1 ++ t2) = occurrences e t1 + occurrences e t2.
Proof. unfold occurrences. rewrite filter_app, length_app. reflexivity. Qed.

Lemma occurrences_singleton (e e' : event) :
  occurrences e [e'] = if decide (e' = e) then 1 else 0.
Proof.
  unfold occurrences. rewrite filter_cons, filter_nil.
  destruct (decide (e' = e)); reflexivity.
Qed.

Lemma run_stmt_inv (m : addr) (t0 new : list event) (s : stmt) (l l' : UniqueLock.t)
    (w w' : World) :
  guard_inv m new l w -> trace w = t0 ++ new ->
  run_stmt s l w = (Returned l', w') ->
  exists new', trace w' = t0 ++ new' /\ guard_inv m new' l' w'.
Proof.
  intros (Hl & Hm & Hocc) Ht H. destruct s; cbn [run_stmt] in H.
  - unfold UniqueLock.lock in H. apply bind_inv in H as (? & w1 & H1 & H).
    cbn in H. simplify_eq.
    apply Mutex_lock_inv in H1 as (mu & Hmu & Hs & ->).
    rewrite Hm in Hmu. simplify_eq. cbn in Hs.
    destruct (UniqueLock.m_is_locked l); [discriminate|].
    exists (new ++ [ev_pthread_mutex_lock (UniqueLock.m_mutex l)]).
    split; [cbn; rewrite Ht, <- app_assoc; reflexivity|].
    split; [reflexivity|]. split; [cbn; apply lookup_insert_eq|].
    rewrite !occurrences_app, !occurrences_singleton, Hocc.
    repeat case_decide; try discriminate; try congruence; cbn; lia.
  - unfold UniqueLock.unlock in H. apply bind_inv in H as (? & w1 & H1 & H).
    cbn in H. simplify_eq.
    eapply Mutex_unlock_inv in H1; [|exact Hm|reflexivity].
    cbn in H1. destruct (UniqueLock.m_is_locked l); [|destruct H1 as [[? _]|[? _]]; discriminate].
    destruct H1 as [[_ ->]|[? _]]; [|discriminate].
    exists (new ++ [ev_pthread_mutex_unlock (UniqueLock.m_mutex l)]).
    split; [cbn; rewrite Ht, <- app_assoc; reflexivity|].
    split; [reflexivity|]. split; [cbn; apply lookup_insert_eq|].
    rewrite !occurrences_app, !occurrences_singleton, Hocc.
    repeat case_decide; try discriminate; try congruence; cbn; lia.
  - apply bind_inv in H as (? & w1 & H1 & H). cbn in H. simplify_eq.
    unfold run_critical_section in H1.
    destruct (body (protected_data w)) as [o d]. simplify_eq.
    exists new. split; [exact Ht|]. repeat split; assumption.
Qed.

Lemma run_stmt_thrown (m : addr) (new : list event) (s : stmt) (l : UniqueLock.t)
    (w w' : World) (e : exn) :
  guard_inv m new l w ->
  run_stmt s l w = (Thrown e, w') ->
  trace w' = trace w /\ guard_inv m new l w'.
Proof.
  intros (Hl & Hm & Hocc) H. subst m. destruct s; cbn [run_stmt] in H.
  - unfold UniqueLock.lock, bind in H.
    destruct (Mutex.lock _ w) as [o w1] eqn:E. apply Mutex_lock_inv in E.
    destruct o; cbn in H; simplify_eq; done.
  - unfold UniqueLock.unlock, bind in H.
    destruct (Mutex.unlock _ w) as [o w1] eqn:E.
    eapply Mutex_unlock_inv in E; [|exact Hm|reflexivity].
    destruct o; cbn in H; simplify_eq; done.
  - unfold bind, run_critical_section in H.
    destruct (body (protected_data w)) as [o d]. destruct o; cbn in H; simplify_eq.
    split; [reflexivity|]. repeat split; assumption.
Qed.

Lemma run_stmts_inv (m : addr) (t0 : list event) (ss : list stmt) :
  forall (new : list event) (l l' : UniqueLock.t) (w w' : World) (o : outcome unit),
    guard_inv m new l w -> trace w = t0 ++ new ->
    run_stmts ss l w = (o, l', w') ->
    (o = Returned tt \/ exists e, o = Thrown e) ->
    exists new', trace w' = t0 ++ new' /\ guard_inv m new' l' w'.
Proof.
  induction ss as [|s ss IH]; intros new l l' w w' o Hinv Ht H Ho; cbn [run_stmts] in H.
  - simplify_eq. eauto.
  - destruct (run_stmt s l w) as [o1 w1] eqn:E.
    destruct o1 as [l1|e| | | |]; simplify_eq;
      try (destruct Ho as [Ho|[e' Ho]]; discriminate).
    + destruct (run_stmt_inv _ _ _ _ _ _ _ _ Hinv Ht E) as (new1 & Ht1 & Hinv1).
      eapply IH; eauto.
    + destruct (run_stmt_thrown _ _ _ _ _ _ _ Hinv E) as (Ht1 & Hinv1).
      exists new. split; [congruence | exact Hinv1].
Qed.

(** The destructor unlocks exactly when the flag is set, and leaves the
    locks and the unlocks of [m] in balance. *)
Lemma dtor_balances (m : addr) (new : list event) (l : UniqueLock.t) (w : World) :
  guard_inv m new l w ->
  exists w',
    UniqueLock.dtor l w = (Returned tt, w') /\
    trace w' = trace w ++ (if UniqueLock.m_is_locked l
                           then [ev_pthread_mutex_unlock m] else []) /\
    mutexes w' !! m = Some (mkMutex false unlocked) /\
    protected_data w' = protected_data w /\
    occurrences (ev_pthread_mutex_lock m)
      (new ++ if UniqueLock.m_is_locked l then [ev_pthread_mutex_unlock m] else [])
    = occurrences (ev_pthread_mutex_unlock m)
        (new ++ if UniqueLock.m_is_locked l then [ev_pthread_mutex_unlock m] else []).
Proof.
  intros (Hl & Hm & Hocc). unfold UniqueLock.dtor. rewrite Hl.
  destruct (UniqueLock.m_is_locked l).
  - rewrite (Mutex_unlock_run _ _ _ Hm eq_refl). eexists. split; [reflexivity|].
    cbn. rewrite lookup_insert_eq. repeat split.
    rewrite !occurrences_app, !occurrences_singleton, Hocc.
    repeat case_decide; try discriminate; try congruence; cbn; lia.
  - exists w. cbn. rewrite !app_nil_r. repeat split; try done. lia.
Qed.

Lemma guard_inv_held (m : addr) (new : list event) (l : UniqueLock.t) (w : World) :
  guard_inv m new l w -> UniqueLock.m_is_locked l = held_by_caller m w.
Proof.
  intros (_ & Hm & _). unfold held_by_caller, held. rewrite Hm. cbn.
  destruct (UniqueLock.m_is_locked l); reflexivity.
Qed.

Lemma leave_block_run (o : outcome unit) (dtor : M unit) (w w' : World) :
  dtor w = (Returned tt, w') ->
  o = Returned tt \/ (exists e, o = Thrown e) ->
  leave_block o dtor w = (o, w').
Proof.
  intros Hd [->|[e ->]]; cbn [leave_block]; [exact Hd|].
  unfold bind. rewrite Hd. reflexivity.
Qed.

(** C7.  On a regular mutex [m] that the caller does not hold:

    - a block guarded by a [LockGuard] locks [m] at the construction and
      unlocks it once, at the destruction, whether the block is left at
      its end or by an exception;
    - a [UniqueLock] starts with [m_is_locked] true when constructed from
      the mutex alone and false with [defer_lock_tag]; after any statements
      of its block, [m_is_locked] is true exactly when the caller holds
      [m]; the destructor then unlocks exactly when [m_is_locked] is true,
      and over the whole block, left at its end or by an exception, [m] was
      locked as often as unlocked and ends up not held;
    - [lock()] sets the flag and [unlock()] clears it. *)
Theorem guards_unlock_once (m : addr) (w : World) :
  mutexes w !! m = Some (mkMutex false unlocked) ->
  (forall (body : critical_section_t) (o : outcome unit) (d : gmap addr Z),
     body (protected_data w) = (o, d) ->
     o = Returned tt \/ (exists e, o = Thrown e) ->
     exists w',
       LockGuard_block m body w = (o, w') /\
       trace w' = trace w ++ [ev_pthread_mutex_lock m; ev_pthread_mutex_unlock m] /\
       mutexes w' !! m = Some (mkMutex false unlocked)) /\
  (forall defer : bool,
     exists (l0 : UniqueLock.t) (w0 : World),
       (if defer then UniqueLock.UniqueLock_defer m else UniqueLock.UniqueLock m) w
       = (Returned l0, w0) /\
       UniqueLock.m_is_locked l0 = negb defer /\
       forall (ss : list stmt) (o : outcome unit) (l' : UniqueLock.t) (w' : World),
         run_stmts ss l0 w0 = (o, l', w') ->
         o = Returned tt \/ (exists e, o = Thrown e) ->
         UniqueLock.m_is_locked l' = held_by_caller m w' /\
         exists (w'' : World) (new : list event),
           UniqueLock_block defer m ss w = (o, w'') /\
           trace w'' = trace w' ++ (if UniqueLock.m_is_locked l'
                                    then [ev_pthread_mutex_unlock m] else []) /\
           trace w'' = trace w ++ new /\
           occurrences (ev_pthread_mutex_lock m) new
           = occurrences (ev_pthread_mutex_unlock m) new /\
           mutexes w'' !! m = Some (mkMutex false unlocked)) /\
  (forall (l l' : UniqueLock.t) (w1 w1' : World),
     UniqueLock.lock l w1 = (Returned l', w1') ->
     UniqueLock.m_is_locked l' = true /\
     held_by_caller (UniqueLock.m_mutex l') w1' = true) /\
  (forall (l l' : UniqueLock.t) (w1 w1' : World),
     UniqueLock.unlock l w1 = (Returned l', w1') ->
     UniqueLock.m_is_locked l' = false).
Proof.
  intros Hm. split; [|split; [|split]].
  - intros body o d Hbody Ho.
    unfold LockGuard_block, LockGuard.LockGuard. cbn [LockGuard.m_mutex].
    unfold bind at 1. unfold bind at 1.
    rewrite (Mutex_lock_run _ _ _ Hm eq_refl). cbn [ret].
    unfold run_critical_section. cbn [protected_data acquired set_mutexes
      set_shared_memory set_trace]. rewrite Hbody.
    eexists. split.
    + apply leave_block_run; [|exact Ho]. unfold LockGuard.dtor. cbn [LockGuard.m_mutex].
      apply (Mutex_unlock_run m (mkMutex false locked)); [|reflexivity].
      cbn. apply lookup_insert_eq.
    + cbn. rewrite lookup_insert_eq, <- app_assoc. split; reflexivity.
  - intros defer.
    assert (Hctor : exists l0 w0 new0,
      (if defer then UniqueLock.UniqueLock_defer m else UniqueLock.UniqueLock m) w
      = (Returned l0, w0) /\
      UniqueLock.m_is_locked l0 = negb defer /\
      trace w0 = trace w ++ new0 /\ guard_inv m new0 l0 w0).
    { destruct defer.
      - exists (UniqueLock.mk m false), w, []. rewrite app_nil_r.
        repeat split; try reflexivity. exact Hm.
      - eexists (UniqueLock.mk m true), _, [ev_pthread_mutex_lock m].
        unfold UniqueLock.UniqueLock, bind.
        rewrite (Mutex_lock_run _ _ _ Hm eq_refl). cbn.
        repeat split; try reflexivity.
        + cbn. apply lookup_insert_eq.
        + cbn [UniqueLock.m_is_locked]. rewrite !occurrences_singleton.
          repeat case_decide; try discriminate; try congruence; reflexivity. }
    destruct Hctor as (l0 & w0 & new0 & Hctor & Hflag & Ht0 & Hinv0).
    exists l0, w0. split; [exact Hctor|]. split; [exact Hflag|].
    intros ss o l' w' Hrun Ho.
    destruct (run_stmts_inv m (trace w) ss _ _ _ _ _ _ Hinv0 Ht0 Hrun Ho)
      as (new' & Ht' & Hinv').
    split; [apply (guard_inv_held _ _ _ _ Hinv')|].
    destruct (dtor_balances _ _ _ _ Hinv') as (w'' & Hd & Htd & Hmd & _ & Hocc).
    exists w'', (new' ++ if UniqueLock.m_is_locked l'
                        then [ev_pthread_mutex_unlock m] else []).
    split; [|split; [exact Htd|split; [|split; [exact Hocc|exact Hmd]]]].
    + unfold UniqueLock_block, bind. rewrite Hctor, Hrun.
      apply leave_block_run; assumption.
    + rewrite Htd, Ht', <- app_assoc. reflexivity.
  - intros l l' w1 w1' H. unfold UniqueLock.lock in H.
    apply bind_inv in H as (? & w2 & H2 & H). cbn in H. simplify_eq.
    apply Mutex_lock_inv in H2 as (mu & Hmu & Hs & ->).
    split; [reflexivity|]. unfold held_by_caller. cbn.
    rewrite lookup_insert_eq. reflexivity.
  - intros l l' w1 w1' H. unfold UniqueLock.unlock in H.
    apply bind_inv in H as (? & w2 & H2 & H). cbn in H. simplify_eq. reflexivity.
Qed.

(** A block that defers the lock, locks, unlocks, locks again and is then
    left by an exception. *)
Lemma guards_unlock_once_witness :
  let w := example_world (example_config true true) (quiet_env 0) unlocked unlocked
             (SharedPart_emulation 0 0) 0 in
  let ss := [stmt_lock; stmt_unlock; stmt_lock;
             stmt_other (fun d => (Thrown bad_alloc, d))] in
  exists w'',
    UniqueLock_block true 1 ss w = (Thrown bad_alloc, w'') /\
    mutexes w'' !! 1 = Some (mkMutex false unlocked) /\
    trace w'' = [ev_pthread_mutex_lock 1; ev_pthread_mutex_unlock 1;
                 ev_pthread_mutex_lock 1; ev_pthread_mutex_unlock 1].
Proof.
  intros w ss.
  destruct (proj1 (proj2 (guards_unlock_once 1 w eq_refl)) true)
    as (l0 & w0 & Hctor & _ & H).
  cbn in Hctor. injection Hctor as <- <-.
  destruct (H ss (Thrown bad_alloc) (run_stmts ss (UniqueLock.mk 1 false) w).1.2
              (run_stmts ss (UniqueLock.mk 1 false) w).2)
    as (_ & w'' & new & Hb & _ & _ & _ & Hm).
  - vm_compute. reflexivity.
  - right. eexists. reflexivity.
  - exists w''. split; [exact Hb|]. split; [exact Hm|].
    pose proof (f_equal snd Hb) as Hw. cbn [snd] in Hw.
    rewrite <- Hw. vm_compute. reflexivity.
Defined.

(** ** CondVar::wait under emulation *)

Lemma logged_trans (es1 es2 : list event) (w1 w2 w3 : World) :
  logged es1 w1 w2 -> logged es2 w2 w3 -> logged (es1 ++ es2) w1 w3.
Proof.
  intros [Ht1 Hc1] [Ht2 Hc2]. split; [|congruence].
  rewrite Ht2, Ht1, <- app_assoc. reflexivity.
Qed.

Lemma sem_wait_inv (s : addr) (w w1 : World) (u : unit) :
  sem_wait s w = (Returned u, w1) -> logged [ev_sem_wait s] w w1.
Proof.
  unfold sem_wait, bind. cbn. intros H.
  destruct (semaphores w !! s) as [v|]; cbn in H; [|discriminate].
  destruct (sem_interrupted (env w) (length (trace w))); cbn in H;
    [simplify_eq; split; reflexivity|].
  destruct (other_posts (env w) (length (trace w)) v =? 0)%N; cbn in H;
    simplify_eq; split; reflexivity.
Qed.

Lemma sem_post_logged (s : addr) (w w1 : World) (u : unit) :
  sem_post s w = (Returned u, w1) -> logged [ev_sem_post s] w w1.
Proof.
  intros H. apply sem_post_inv in H as (v & _ & ->). split; reflexivity.
Qed.

Lemma sched_yield_logged (w w1 : World) (u : unit) :
  sched_yield w = (Returned u, w1) -> logged [ev_sched_yield] w w1.
Proof. unfold sched_yield. cbn. intros H. simplify_eq. split; reflexivity. Qed.

Lemma Mutex_lock_logged (m : addr) (w w1 : World) (u : unit) :
  Mutex.lock m w = (Returned u, w1) ->
  logged [ev_pthread_mutex_lock m] w w1 /\ held_by_caller m w1 = true.
Proof.
  intros H. apply Mutex_lock_inv in H as (mu & _ & _ & ->).
  split; [split; reflexivity|]. unfold held_by_caller. cbn.
  rewrite lookup_insert_eq. reflexivity.
Qed.

Lemma Mutex_unlock_logged (m : addr) (w w1 : World) (u : unit) :
  Mutex.unlock m w = (Returned u, w1) -> logged [ev_pthread_mutex_unlock m] w w1.
Proof.
  unfold Mutex.unlock, pthread_mutex_unlock, mutex_unlock_effect, set_status,
    TIGHTDB_ASSERT, bind.
  cbn. intros H.
  destruct (mutexes w !! m) as [mu|]; cbn in H; [|discriminate].
  destruct (status mu); cbn in H; try destruct (robust_attr mu); cbn in H;
    try destruct (TIGHTDB_DEBUG (cfg w)); cbn in H; simplify_eq; split; reflexivity.
Qed.

Lemma load_signal_counter_logged (this : CondVar.t) (w w1 : World) (sc : N) :
  CondVar.load_signal_counter this w = (Returned sc, w1) ->
  exists p, CondVar.m_shared_part this = Some p /\
    signal_counter_at p (shared_memory w1) = Some sc /\
    logged [ev_load_signal_counter p sc] w w1 /\
    mutexes w1 = mutexes w.
Proof.
  intros H. apply load_signal_counter_inv in H as (p & Hp & Hsc & ->).
  exists p. repeat split; assumption.
Qed.

Lemma TIGHTDB_ASSERT_inv (c : bool) (w w1 : World) (u : unit) :
  TIGHTDB_ASSERT c w = (Returned u, w1) -> w1 = w.
Proof.
  unfold TIGHTDB_ASSERT, bind. cbn.
  destruct (TIGHTDB_DEBUG (cfg w) && negb c); cbn; intros H; simplify_eq. reflexivity.
Qed.

Lemma incr_waiters_inv (this : CondVar.t) (w w1 : World) (u : unit) :
  CondVar.incr_waiters this w = (Returned u, w1) ->
  exists p sc wt,
    CondVar.m_shared_part this = Some p /\
    shared_memory w !! p = Some (SharedPart_emulation sc wt) /\
    shared_memory w1 !! p = Some (SharedPart_emulation sc (uint32_incr wt)) /\
    logged [ev_load_waiters p wt; ev_store_waiters p (uint32_incr wt)] w w1.
Proof.
  intros H. pose proof H as H0. unfold CondVar.incr_waiters in H0.
  apply bind_inv in H0 as (wt & w2 & H2 & _).
  apply load_waiters_inv in H2 as (p & sc & Hp & Hm & _).
  rewrite (incr_waiters_run _ _ _ _ _ Hp Hm) in H. simplify_eq.
  exists p, sc, wt. repeat split; try assumption. cbn. apply lookup_insert_eq.
Qed.

Lemma RobustMutex_lock_inv (m : addr) (recover_func : recover_func_t) (w w1 : World)
    (u : unit) :
  distinct_errno (cfg w) ->
  RobustMutex.lock m recover_func w = (Returned u, w1) ->
  exists recovered, logged (lock_events m recovered) w w1 /\ held_by_caller m w1 = true.
Proof.
  intros Hd H. unfold RobustMutex.lock in H.
  apply bind_inv in H as (b & w2 & H2 & H).
  destruct (low_level_lock_inv _ _ _ _ Hd H2) as (mu & Hmu & Hb).
  destruct b.
  - destruct Hb as (_ & ->). cbn in H. simplify_eq. exists false.
    split; [split; reflexivity|]. unfold held_by_caller. cbn.
    rewrite lookup_insert_eq. reflexivity.
  - destruct Hb as (_ & Hr & Hp & ->). exists true.
    unfold try_catch, call_recover_func, RobustMutex.mark_as_consistent,
      RobustMutex.unlock, Mutex.unlock, pthread_mutex_unlock, mutex_unlock_effect,
      mutex_consistent_effect, set_status, TIGHTDB_ASSERT, bind in H.
    cbn in H. destruct (recover_func (protected_data w)) as [[[]| e | | | |] d];
      cbn in H; rewrite ?Hp in H; cbn in H; rewrite ?lookup_insert_eq in H; cbn in H;
      rewrite ?andb_false_r in H; cbn in H; rewrite ?lookup_insert_eq in H; cbn in H;
      try discriminate.
    simplify_eq. split; [split; cbn; [rewrite <- !app_assoc|]; reflexivity|].
    unfold held_by_caller. cbn. rewrite lookup_insert_eq. reflexivity.
Qed.

(** The loop of [wait(LockGuard&)] returns only from an iteration that
    read a signal counter different from the snapshot, after retries that
    each read the snapshot, posted the permit back, yielded and released
    the mutex. *)
Lemma wait_loop_returns (fuel : nat) :
  forall (this : CondVar.t) (sem : addr) (l : LockGuard.t) (c : N) (w w' : World)
         (u : unit),
    CondVar.wait_loop fuel this sem l c w = (Returned u, w') ->
    exists (p : addr) (n : nat) (c' : N),
      CondVar.m_shared_part this = Some p /\
      n < fuel /\
      logged (concat (repeat (retry_events sem (LockGuard.m_mutex l) p c) n)
              ++ last_events sem (LockGuard.m_mutex l) p c') w w' /\
      c' <> c /\
      signal_counter_at p (shared_memory w') = Some c' /\
      held_by_caller (LockGuard.m_mutex l) w' = true.
Proof.
  induction fuel as [|fuel IH]; intros this sem l c w w' u H; [discriminate|].
  cbn [CondVar.wait_loop] in H.
  apply bind_inv in H as (? & w1 & H1 & H). apply sem_wait_inv in H1.
  apply bind_inv in H as (? & w2 & H2 & H). apply Mutex_lock_logged in H2 as [H2 Hheld].
  apply bind_inv in H as (sc & w3 & H3 & H).
  apply load_signal_counter_logged in H3 as (p & Hp & Hsc & H3 & Hmx).
  pose proof (logged_trans _ _ _ _ _ H1 (logged_trans _ _ _ _ _ H2 H3)) as H13.
  destruct (N.eqb_spec sc c) as [->|Hne]; cbn [negb] in H.
  - apply bind_inv in H as (? & w4 & H4 & H). apply sem_post_logged in H4.
    apply bind_inv in H as (? & w5 & H5 & H). apply sched_yield_logged in H5.
    apply bind_inv in H as (? & w6 & H6 & H). apply Mutex_unlock_logged in H6.
    pose proof (logged_trans _ _ _ _ _ H13
                  (logged_trans _ _ _ _ _ H4 (logged_trans _ _ _ _ _ H5 H6))) as H16.
    destruct (IH _ _ _ _ _ _ _ H) as (p' & n & c' & Hp' & Hn & Hlog & Hc' & Hsc' & Hh').
    assert (p' = p) by congruence. subst p'.
    exists p, (S n), c'. repeat split; try assumption; try lia.
    + destruct (logged_trans _ _ _ _ _ H16 Hlog) as [Ht _]. rewrite Ht.
      cbn [repeat concat]. unfold retry_events at 2. rewrite <- !app_assoc. reflexivity.
    + destruct (logged_trans _ _ _ _ _ H16 Hlog) as [_ Hc]. exact Hc.
  - cbn in H. simplify_eq. exists p, 0, sc. repeat split; try assumption; try lia.
    + destruct H13 as [Ht _]. rewrite Ht. reflexivity.
    + destruct H13 as [_ Hc]. exact Hc.
    + unfold held_by_caller in *. rewrite Hmx. exact Hheld.
Qed.

Lemma distinct_errno_cfg (w w' : World) :
  cfg w' = cfg w -> distinct_errno (cfg w) -> distinct_errno (cfg w').
Proof. intros ->. auto. Qed.

(** The loop of [wait(RobustMutex&, ...)] likewise. *)
Lemma wait_robust_loop_returns (fuel : nat) :
  forall (this : CondVar.t) (sem m : addr) (recover_func : recover_func_t) (c : N)
         (w w' : World) (u : unit),
    distinct_errno (cfg w) ->
    CondVar.wait_robust_loop fuel this sem m recover_func c w = (Returned u, w') ->
    exists (p : addr) (rs : list bool) (r : bool) (c' : N),
      CondVar.m_shared_part this = Some p /\
      length rs < fuel /\
      logged (concat (map (retry_events_robust sem m p c) rs)
              ++ last_events_robust sem m p c' r) w w' /\
      c' <> c /\
      signal_counter_at p (shared_memory w') = Some c' /\
      held_by_caller m w' = true.
Proof.
  induction fuel as [|fuel IH]; intros this sem m f c w w' u Hd H; [discriminate|].
  cbn [CondVar.wait_robust_loop] in H.
  apply bind_inv in H as (? & w1 & H1 & H). apply sem_wait_inv in H1.
  apply bind_inv in H as (? & w2 & H2 & H).
  apply RobustMutex_lock_inv in H2 as (r & H2 & Hheld);
    [|apply (distinct_errno_cfg w); [apply H1 | exact Hd]].
  apply bind_inv in H as (sc & w3 & H3 & H).
  apply load_signal_counter_logged in H3 as (p & Hp & Hsc & H3 & Hmx).
  pose proof (logged_trans _ _ _ _ _ H1 (logged_trans _ _ _ _ _ H2 H3)) as H13.
  destruct (N.eqb_spec sc c) as [->|Hne]; cbn [negb] in H.
  - apply bind_inv in H as (? & w4 & H4 & H). apply sem_post_logged in H4.
    apply bind_inv in H as (? & w5 & H5 & H). apply sched_yield_logged in H5.
    apply bind_inv in H as (? & w6 & H6 & H). unfold RobustMutex.unlock in H6.
    apply Mutex_unlock_logged in H6.
    pose proof (logged_trans _ _ _ _ _ H13
                  (logged_trans _ _ _ _ _ H4 (logged_trans _ _ _ _ _ H5 H6))) as H16.
    destruct (IH _ _ _ _ _ _ _ _ (distinct_errno_cfg w w6 (proj2 H16) Hd) H)
      as (p' & rs & r' & c' & Hp' & Hn & Hlog & Hc' & Hsc' & Hh').
    assert (p' = p) by congruence. subst p'.
    exists p, (r :: rs), r', c'. repeat split; try assumption; try (cbn; lia).
    + destruct (logged_trans _ _ _ _ _ H16 Hlog) as [Ht _]. rewrite Ht.
      cbn [map concat]. unfold retry_events_robust at 2.
      rewrite <- !app_assoc. reflexivity.
    + destruct (logged_trans _ _ _ _ _ H16 Hlog) as [_ Hc]. exact Hc.
  - cbn in H. simplify_eq. exists p, [], r, sc.
    repeat split; try assumption; try (cbn; lia).
    + destruct H13 as [Ht _]. rewrite Ht. unfold last_events_robust.
      cbn [map concat]. rewrite <- ?app_assoc. reflexivity.
    + destruct H13 as [_ Hc]. exact Hc.
    + unfold held_by_caller in *. rewrite Hmx. exact Hheld.
Qed.

(** C2.  Under emulation, a [wait] that returns, in either overload, has

    - first loaded and stored the waiter count, incremented by one, and
      loaded the signal counter [c], its snapshot, and only then released
      the mutex;
    - then gone through retries, each of which waited for the semaphore,
      took the mutex, read the signal counter at the snapshot, posted the
      semaphore, yielded and released the mutex;
    - and last waited for the semaphore, taken the mutex and read a signal
      counter [c'] different from the snapshot.

    On return the signal counter in shared memory is [c'], not the
    snapshot, and the caller holds the mutex. *)
Theorem wait_returns_after_signal (this : CondVar.t) (sem : addr) (w : World) :
  TIGHTDB_CONDVAR_EMULATION (cfg w) = true ->
  CondVar.m_sem this = Some sem ->
  (forall (fuel : nat) (l : LockGuard.t) (u : unit) (w' : World),
     CondVar.wait fuel this l w = (Returned u, w') ->
     let m := LockGuard.m_mutex l in
     exists (p : addr) (c wt : N) (n : nat) (c' : N),
       CondVar.m_shared_part this = Some p /\
       shared_memory w !! p = Some (SharedPart_emulation c wt) /\
       trace w' = trace w
         ++ [ev_load_waiters p wt; ev_store_waiters p (uint32_incr wt);
             ev_load_signal_counter p c; ev_pthread_mutex_unlock m]
         ++ concat (repeat (retry_events sem m p c) n)
         ++ last_events sem m p c' /\
       c' <> c /\
       signal_counter_at p (shared_memory w') = Some c' /\
       held_by_caller m w' = true) /\
  (forall (fuel : nat) (m : addr) (recover_func : recover_func_t) (tp : option Z)
          (u : unit) (w' : World),
     distinct_errno (cfg w) ->
     CondVar.wait_robust fuel this m recover_func tp w = (Returned u, w') ->
     exists (p : addr) (c wt : N) (rs : list bool) (r : bool) (c' : N),
       CondVar.m_shared_part this = Some p /\
       shared_memory w !! p = Some (SharedPart_emulation c wt) /\
       trace w' = trace w
         ++ [ev_load_waiters p wt; ev_store_waiters p (uint32_incr wt);
             ev_load_signal_counter p c; ev_pthread_mutex_unlock m]
         ++ concat (map (retry_events_robust sem m p c) rs)
         ++ last_events_robust sem m p c' r /\
       c' <> c /\
       signal_counter_at p (shared_memory w') = Some c' /\
       held_by_caller m w' = true).
Proof.
  intros He Hsem. split.
  - intros fuel l u w' H m. unfold CondVar.wait in H.
    apply bind_inv in H as (e & w0 & H0 & H). cbn in H0. simplify_eq.
    rewrite He, Hsem in H.
    apply bind_inv in H as (? & w1 & H1 & H). apply TIGHTDB_ASSERT_inv in H1. subst w1.
    apply bind_inv in H as (? & w2 & H2 & H).
    apply incr_waiters_inv in H2 as (p & c & wt & Hp & Hm & Hm2 & H2).
    apply bind_inv in H as (c0 & w3 & H3 & H).
    pose proof (load_signal_counter_inv _ _ _ _ H3) as (p' & Hp' & Hsc0 & _).
    assert (p' = p) by congruence. subst p'.
    unfold signal_counter_at in Hsc0. rewrite Hm2 in Hsc0. injection Hsc0 as <-.
    apply load_signal_counter_logged in H3 as (p' & Hp'' & _ & H3 & _).
    assert (p' = p) by congruence. subst p'.
    apply bind_inv in H as (? & w4 & H4 & H). apply Mutex_unlock_logged in H4.
    apply wait_loop_returns in H as (p' & n & c' & Hp3 & _ & Hlog & Hc' & Hsc' & Hh).
    assert (p' = p) by congruence. subst p'.
    exists p, c, wt, n, c'. repeat split; try assumption.
    destruct (logged_trans _ _ _ _ _ H2
                (logged_trans _ _ _ _ _ H3 (logged_trans _ _ _ _ _ H4 Hlog))) as [Ht _].
    rewrite Ht. reflexivity.
  - intros fuel m f tp u w' Hd H. unfold CondVar.wait_robust in H.
    apply bind_inv in H as (e & w0 & H0 & H). cbn in H0. simplify_eq.
    rewrite He, Hsem in H.
    apply bind_inv in H as (? & w1 & H1 & H). apply TIGHTDB_ASSERT_inv in H1. subst w1.
    apply bind_inv in H as (? & w1 & H1 & H). apply TIGHTDB_ASSERT_inv in H1. subst w1.
    apply bind_inv in H as (? & w2 & H2 & H).
    apply incr_waiters_inv in H2 as (p & c & wt & Hp & Hm & Hm2 & H2).
    apply bind_inv in H as (c0 & w3 & H3 & H).
    pose proof (load_signal_counter_inv _ _ _ _ H3) as (p' & Hp' & Hsc0 & _).
    assert (p' = p) by congruence. subst p'.
    unfold signal_counter_at in Hsc0. rewrite Hm2 in Hsc0. injection Hsc0 as <-.
    apply load_signal_counter_logged in H3 as (p' & Hp'' & _ & H3 & _).
    assert (p' = p) by congruence. subst p'.
    apply bind_inv in H as (? & w4 & H4 & H). unfold RobustMutex.unlock in H4.
    apply Mutex_unlock_logged in H4.
    pose proof (logged_trans _ _ _ _ _ H2 (logged_trans _ _ _ _ _ H3 H4)) as H24.
    apply wait_robust_loop_returns in H
      as (p' & rs & r & c' & Hp3 & _ & Hlog & Hc' & Hsc' & Hh);
      [|apply (distinct_errno_cfg w0); [apply H24 | exact Hd]].
    assert (p' = p) by congruence. subst p'.
    exists p, c, wt, rs, r, c'. repeat split; try assumption.
    destruct (logged_trans _ _ _ _ _ H24 Hlog) as [Ht _].
    rewrite Ht. rewrite <- !app_assoc. reflexivity.
Qed.

(** A waiter that is notified during its second attempt: the theorem
    applied to both overloads, in a world where another thread increments
    the signal counter while the caller takes the mutex for the second
    time. *)
Lemma wait_returns_after_signal_witness :
  let w := example_world (example_config true true) (notifier_env 11 3) locked locked
             (SharedPart_emulation 7 0) 0 in
  let this := CondVar.mk (Some 3) (Some 4) None in
  let w1 := (CondVar.wait 2 this (LockGuard.mk 1) w).2 in
  let w2 := (CondVar.wait_robust 2 this 2 (fun d => (Returned tt, d)) None w).2 in
  (exists c', signal_counter_at 3 (shared_memory w1) = Some c' /\ c' <> 7%N /\
     held_by_caller 1 w1 = true) /\
  (exists c', signal_counter_at 3 (shared_memory w2) = Some c' /\ c' <> 7%N /\
     held_by_caller 2 w2 = true).
Proof.
  intros w this w1 w2.
  destruct (wait_returns_after_signal this 4 w eq_refl eq_refl) as [H1 H2].
  split.
  - destruct (H1 2 (LockGuard.mk 1) tt w1) as (p & c & wt & n & c' & Hp & Hm & _ & Hc & Hsc & Hh).
    + vm_compute. reflexivity.
    + injection Hp as <-. vm_compute in Hm. injection Hm as <- <-.
      exists c'. auto.
  - destruct (H2 2 2 (fun d => (Returned tt, d)) None tt w2)
      as (p & c & wt & rs & r & c' & Hp & Hm & _ & Hc & Hsc & Hh).
    + repeat split; discriminate.
    + vm_compute. reflexivity.
    + injection Hp as <-. vm_compute in Hm. injection Hm as <- <-.
      exists c'. auto.
Defined.

(** The other direction: a waiter that finds a permit, and the signal
    counter changed by the time it has the mutex again, returns from its
    first iteration. *)
Lemma wait_returns_when_notified (fuel : nat) (this : CondVar.t) (sem p m : addr)
    (c c' wt v : N) (w : World) :
  TIGHTDB_CONDVAR_EMULATION (cfg w) = true ->
  CondVar.m_sem this = Some sem ->
  CondVar.m_shared_part this = Some p ->
  shared_memory w !! p = Some (SharedPart_emulation c wt) ->
  mutexes w !! m = Some (mkMutex false locked) ->
  semaphores w !! sem = Some v ->
  sem_interrupted (env w) (length (trace w) + 4) = false ->
  other_posts (env w) (length (trace w) + 4) v <> 0%N ->
  signal_counter_at p
    (other_threads (env w) (length (trace w) + 5)
       (<[p := SharedPart_emulation c (uint32_incr wt)]> (shared_memory w))) = Some c' ->
  c' <> c ->
  exists w', CondVar.wait (S fuel) this (LockGuard.mk m) w = (Returned tt, w').
Proof.
  intros He Hsem Hp Hm Hmx Hv Hintr Hposts Hsc Hne.
  unfold CondVar.wait. unfold bind at 1. cbn [get]. rewrite He, Hsem, Hp.
  cbn [CondVar.non_null LockGuard.m_mutex]. unfold bind at 1. rewrite TIGHTDB_ASSERT_true.
  unfold bind at 1. rewrite (incr_waiters_run _ _ _ _ _ Hp Hm).
  unfold bind at 1.
  erewrite load_signal_counter_run; [|exact Hp|cbn; apply lookup_insert_eq].
  unfold bind at 1.
  erewrite Mutex_unlock_run; [|cbn; exact Hmx|reflexivity].
  cbn [CondVar.wait_loop LockGuard.m_mutex].
  assert (Hlen : forall a b c0 d : event,
            length (((trace w ++ [a; b]) ++ [c0]) ++ [d]) = length (trace w) + 4)
    by (intros; rewrite !length_app; cbn; lia).
  unfold bind at 1. unfold sem_wait. unfold bind. cbn.
  rewrite Hv. cbn. rewrite !Hlen, Hintr. cbn.
  destruct (N.eqb_spec (other_posts (env w) (length (trace w) + 4) v) 0) as [E|_];
    [contradiction|]. cbn.
  unfold Mutex.lock, pthread_mutex_lock, mutex_lock_effect, interference, set_status,
    bind. cbn. rewrite lookup_insert_eq. cbn.
  rewrite length_app, !Hlen. cbn [length].
  replace (length (trace w) + 4 + 1) with (length (trace w) + 5) by lia.
  unfold signal_counter_at in Hsc.
  destruct (other_threads (env w) (length (trace w) + 5) _ !! p)
    as [[c0 wt'|?]|] eqn:Hl; try discriminate.
  injection Hsc as ->.
  unfold CondVar.load_signal_counter, CondVar.load_shared_part, bind. rewrite Hp. cbn.
  rewrite Hl. cbn.
  destruct (N.eqb_spec c' c) as [E|_]; [contradiction|]. cbn. eauto.
Qed.

(** ** Member functions declared TIGHTDB_NOEXCEPT *)

Lemma noexcept_bind {A B} (c : M A) (k : A -> M B) :
  noexcept c -> (forall a, noexcept (k a)) -> noexcept (bind c k).
Proof.
  intros Hc Hk w e. unfold bind. specialize (Hc w).
  destruct (c w) as [[a|e'| | | |] w1]; cbn in *; try discriminate.
  - apply Hk.
  - intros _. exact (Hc e' eq_refl).
Qed.

Lemma noexcept_TIGHTDB_ASSERT (c : bool) : noexcept (TIGHTDB_ASSERT c).
Proof.
  intros w e. unfold TIGHTDB_ASSERT, bind. cbn.
  destruct (TIGHTDB_DEBUG (cfg w) && negb c); discriminate.
Qed.

(** Decomposes [noexcept] along the structure of the computation. *)
Ltac noexcept_with leaf :=
  repeat first
    [ leaf
    | apply noexcept_TIGHTDB_ASSERT
    | apply noexcept_bind; [ | intros ?]
    | match goal with
      | |- noexcept (match ?x with _ => _ end) => destruct x
      end
    | solve [intros ? ?; cbn; discriminate] ].

Lemma noexcept_Mutex_lock (m : addr) : noexcept (Mutex.lock m).
Proof.
  unfold Mutex.lock, pthread_mutex_lock, mutex_lock_effect, interference, set_status.
  noexcept_with fail.
Qed.

Lemma noexcept_Mutex_unlock (m : addr) : noexcept (Mutex.unlock m).
Proof.
  unfold Mutex.unlock, pthread_mutex_unlock, mutex_unlock_effect, set_status.
  noexcept_with fail.
Qed.

Lemma noexcept_load_shared_part (this : CondVar.t) : noexcept (CondVar.load_shared_part this).
Proof. unfold CondVar.load_shared_part. noexcept_with fail. Qed.

Lemma noexcept_load_signal_counter (this : CondVar.t) :
  noexcept (CondVar.load_signal_counter this).
Proof.
  unfold CondVar.load_signal_counter.
  noexcept_with ltac:(apply noexcept_load_shared_part).
Qed.

Lemma noexcept_incr_signal_counter (this : CondVar.t) :
  noexcept (CondVar.incr_signal_counter this).
Proof.
  unfold CondVar.incr_signal_counter, CondVar.store_signal_counter.
  noexcept_with ltac:(first [apply noexcept_load_signal_counter
                            | apply noexcept_load_shared_part]).
Qed.

Lemma noexcept_load_waiters (this : CondVar.t) : noexcept (CondVar.load_waiters this).
Proof.
  unfold CondVar.load_waiters.
  noexcept_with ltac:(apply noexcept_load_shared_part).
Qed.

Lemma noexcept_store_waiters (this : CondVar.t) (v : N) :
  noexcept (CondVar.store_waiters this v).
Proof.
  unfold CondVar.store_waiters.
  noexcept_with ltac:(apply noexcept_load_shared_part).
Qed.

Lemma noexcept_sem_post (s : addr) : noexcept (sem_post s).
Proof. unfold sem_post. noexcept_with fail. Qed.

Lemma noexcept_sem_wait (s : addr) : noexcept (sem_wait s).
Proof. unfold sem_wait. noexcept_with fail. Qed.

Lemma noexcept_cond_wait_effect (c : option cond_ptr) (m : addr) (k : nat) :
  noexcept (cond_wait_effect c m k).
Proof.
  unfold cond_wait_effect, deref_cond, interference, set_status. noexcept_with fail.
Qed.

Lemma noexcept_cond_notify_effect (c : option cond_ptr) : noexcept (cond_notify_effect c).
Proof. unfold cond_notify_effect, deref_cond. noexcept_with fail. Qed.

Lemma noexcept_wait_loop (fuel : nat) (this : CondVar.t) (sem : addr) (l : LockGuard.t)
    (my_counter : N) :
  noexcept (CondVar.wait_loop fuel this sem l my_counter).
Proof.
  induction fuel as [|fuel IH]; cbn [CondVar.wait_loop]; [intros ? ?; cbn; discriminate|].
  unfold sched_yield.
  noexcept_with ltac:(first [apply noexcept_sem_wait | apply noexcept_sem_post
                            | apply noexcept_Mutex_lock | apply noexcept_Mutex_unlock
                            | apply noexcept_load_signal_counter | exact IH]).
Qed.

Lemma noexcept_decr_waiters (this : CondVar.t) : noexcept (CondVar.decr_waiters this).
Proof.
  unfold CondVar.decr_waiters.
  noexcept_with ltac:(first [apply noexcept_load_waiters | apply noexcept_store_waiters]).
Qed.

Lemma noexcept_notify_all_loop (this : CondVar.t) (sem : addr) :
  noexcept (CondVar.notify_all_loop this sem).
Proof.
  intros w e.
  funelim (CondVar.notify_all_loop this sem w); cbn; try discriminate.
  - intros _.
    match goal with
    | E : CondVar.load_waiters _ _ = (Thrown _, _) |- _ =>
        eapply (noexcept_load_waiters this w); rewrite E; reflexivity
    end.
  - auto.
  - intros _.
    assert (Hn : noexcept (sem_post sem ;;; CondVar.decr_waiters this)).
    { noexcept_with ltac:(first [apply noexcept_sem_post | apply noexcept_decr_waiters]). }
    match goal with
    | E : _ ?w1 = (Thrown _, _) |- _ => eapply (Hn w1); rewrite E; reflexivity
    end.
Qed.

(** X1.  The member functions that the header declares TIGHTDB_NOEXCEPT
    and defines inline never end by throwing, in whatever state they are
    called: the locks and unlocks of [Mutex], [LockGuard], [UniqueLock],
    [RobustMutex::unlock] and the destructor of [RobustLockGuard], the
    [wait(LockGuard&)], [notify()], [notify_all()], [close()] and the
    destructor of [CondVar], the destructor of [Thread], and the
    [entry_point] of a thread, whatever the function of the thread does.
    They return, end the process, block, or run into undefined
    behaviour. *)
Theorem noexcept_members_never_throw :
  (forall m, noexcept (Mutex.lock m)) /\
  (forall m, noexcept (Mutex.unlock m)) /\
  (forall m, noexcept (LockGuard.LockGuard m)) /\
  (forall l, noexcept (LockGuard.dtor l)) /\
  (forall m, noexcept (UniqueLock.UniqueLock m)) /\
  (forall m, noexcept (UniqueLock.UniqueLock_defer m)) /\
  (forall l, noexcept (UniqueLock.dtor l)) /\
  (forall l, noexcept (UniqueLock.lock l)) /\
  (forall l, noexcept (UniqueLock.unlock l)) /\
  (forall m, noexcept (RobustMutex.unlock m)) /\
  (forall l, noexcept (RobustLockGuard.dtor l)) /\
  (forall fuel this l, noexcept (CondVar.wait fuel this l)) /\
  (forall this, noexcept (CondVar.notify this)) /\
  (forall this, noexcept (CondVar.notify_all this)) /\
  (forall this, noexcept (CondVar.close this)) /\
  (forall this, noexcept (CondVar.dtor this)) /\
  (forall this, noexcept (Thread.dtor this)) /\
  (forall func, noexcept (Thread.entry_point func)).
Proof.
  pose proof noexcept_Mutex_lock as Hlock.
  pose proof noexcept_Mutex_unlock as Hunlock.
  assert (Hwait : forall c m, noexcept (pthread_cond_wait c m)).
  { intros c m. unfold pthread_cond_wait.
    noexcept_with ltac:(apply noexcept_cond_wait_effect). }
  assert (Hnotify : forall c, noexcept (CondVar.notify_native c)).
  { intros c. unfold CondVar.notify_native, pthread_cond_signal.
    noexcept_with ltac:(apply noexcept_cond_notify_effect). }
  assert (Hnotify_all : forall c, noexcept (CondVar.notify_all_native c)).
  { intros c. unfold CondVar.notify_all_native, pthread_cond_broadcast.
    noexcept_with ltac:(apply noexcept_cond_notify_effect). }
  assert (Hclose : forall this, noexcept (CondVar.close this)).
  { intros this. unfold CondVar.close, sem_close, pthread_cond_destroy, operator_delete.
    noexcept_with fail. }
  repeat split; intros.
  - apply Hlock.
  - apply Hunlock.
  - unfold LockGuard.LockGuard. noexcept_with ltac:(apply Hlock).
  - apply Hunlock.
  - unfold UniqueLock.UniqueLock. noexcept_with ltac:(apply Hlock).
  - unfold UniqueLock.UniqueLock_defer. noexcept_with fail.
  - unfold UniqueLock.dtor. noexcept_with ltac:(apply Hunlock).
  - unfold UniqueLock.lock. noexcept_with ltac:(apply Hlock).
  - unfold UniqueLock.unlock. noexcept_with ltac:(apply Hunlock).
  - apply Hunlock.
  - apply Hunlock.
  - unfold CondVar.wait, CondVar.wait_native.
    noexcept_with ltac:(first [apply Hwait | apply Hunlock | apply noexcept_wait_loop
                              | apply noexcept_load_signal_counter
                              | apply noexcept_load_waiters
                              | apply noexcept_store_waiters]).
  - unfold CondVar.notify.
    noexcept_with ltac:(first [apply Hnotify | apply noexcept_incr_signal_counter
                              | apply noexcept_load_waiters | apply noexcept_sem_post
                              | apply noexcept_decr_waiters]).
  - unfold CondVar.notify_all.
    noexcept_with ltac:(first [apply Hnotify_all | apply noexcept_incr_signal_counter
                              | apply noexcept_notify_all_loop]).
  - apply Hclose.
  - unfold CondVar.dtor. noexcept_with ltac:(apply Hclose).
  - unfold Thread.dtor. noexcept_with fail.
  - intros w e. unfold Thread.entry_point, try_catch.
    destruct (func w) as [[[]|e'| | | |] w1]; discriminate.
Qed.

(** ** RobustLockGuard *)

Lemma RobustMutex_lock_thrown (m : addr) (recover_func : recover_func_t) (w w' : World)
    (e : exn) :
  RobustMutex.lock m recover_func w = (Thrown e, w') -> held_by_caller m w' = false.
Proof.
  unfold RobustMutex.lock, RobustMutex.low_level_lock, mutex_lock_effect, interference,
    set_status, try_catch, call_recover_func, RobustMutex.mark_as_consistent,
    RobustMutex.unlock, Mutex.unlock, pthread_mutex_unlock, mutex_unlock_effect,
    mutex_consistent_effect, set_status, TIGHTDB_ASSERT, bind, held_by_caller.
  intros H. cbn in H.
  destruct (mutexes w !! m) as [mu|] eqn:Hmu; cbn in H; [|discriminate].
  destruct (status mu) eqn:Hs; cbn in H; try discriminate.
  - destruct (robust_attr mu) eqn:Hr; cbn in H; [|discriminate].
    rewrite Pos.eqb_refl in H.
    destruct (robust_platform (cfg w)) eqn:Hp; cbn in H; [|discriminate].
    destruct (recover_func (protected_data w)) as [[[]|e'| | | |] d]; cbn in H;
      rewrite ?Hp in H; cbn in H; rewrite ?lookup_insert_eq in H; cbn in H;
      rewrite ?andb_false_r in H; cbn in H; try discriminate.
    simplify_eq. cbn. rewrite lookup_insert_eq. reflexivity.
  - destruct (robust_platform (cfg w)) eqn:Hp; cbn in H; [|discriminate].
    destruct (ENOTRECOVERABLE (cfg w) =? EOWNERDEAD (cfg w))%positive eqn:E; cbn in H.
    + destruct (recover_func (protected_data w)) as [[[]|e'| | | |] d]; cbn in H;
        rewrite ?Hp in H; cbn in H; rewrite ?Hmu in H; cbn in H; rewrite ?Hs in H;
        cbn in H; try discriminate.
      * destruct (TIGHTDB_DEBUG (cfg w) && _); cbn in H; discriminate.
      * destruct (robust_attr mu); cbn in H; [|discriminate].
        destruct (TIGHTDB_DEBUG (cfg w) && _); cbn in H; [discriminate|].
        simplify_eq. cbn. rewrite Hmu. unfold held. rewrite Hs. reflexivity.
    + rewrite Pos.eqb_refl in H. cbn in H. simplify_eq. cbn. rewrite Hmu.
      unfold held. rewrite Hs. reflexivity.
Qed.




(** ** CondVar::wait on a robust mutex: the holder died *)

Lemma native_wait_call_owner_died (c : option cond_ptr) (m : addr) (tp : option Z)
    (w w1 : World) :
  native_wait_call c m tp w = (Returned (Z.pos (EOWNERDEAD (cfg w))), w1) ->
  exists c' mu,
    c = Some c' /\ mutexes w !! m = Some mu /\
    w1 = set_mutexes (fun ms => <[m := mkMutex (robust_attr mu) locked_inconsistent]> ms)
           (set_shared_memory (other_threads (env w) (length (trace w)))
              (set_trace (fun t => t ++ [native_wait_event c' m tp]) w)).
Proof.
  intros H.
  assert (He : exists c', c = Some c' /\
            cond_wait_effect c m (length (trace w))
              (set_trace (fun t => t ++ [native_wait_event c' m tp]) w)
            = (Returned (Z.pos (EOWNERDEAD (cfg w))), w1)).
  { destruct tp as [t|]; unfold native_wait_call, pthread_cond_wait,
      pthread_cond_timedwait, bind in H; cbn in H;
      (destruct c as [c'|]; [exists c'; split; [reflexivity|exact H] | discriminate]). }
  destruct He as (c' & -> & He). exists c'.
  unfold cond_wait_effect, deref_cond, interference, set_status, bind in He.
  break_run He; try discriminate; simplify_eq;
    try (eexists; repeat split; reflexivity);
    exfalso;
    repeat match goal with
    | E : (os_result _ _ =? _)%Z = false, E' : os_result _ _ = _ |- _ =>
        rewrite E' in E; cbn in E; rewrite Pos.eqb_refl in E; discriminate
    end.
Qed.

(** X3.  Outside the emulation, when the wait of the operating system
    reports EOWNERDEAD (the mutex was handed over because its holder
    died) and [handle_wait_error] returns, [wait] recovers as [lock] does:
    it invokes the recovery callback; when the callback returns it calls
    [mark_as_consistent()] and returns with the mutex held and
    consistent; when the callback throws it unlocks the mutex, which
    becomes unrecoverable, and propagates the exception. *)
Theorem wait_recovers_after_owner_died (fuel : nat) (this : CondVar.t) (m : addr)
    (recover_func : recover_func_t) (tp : option Z) (w w1 : World) :
  TIGHTDB_CONDVAR_EMULATION (cfg w) = false \/ CondVar.m_sem this = None ->
  distinct_errno (cfg w) ->
  robust_platform (cfg w) = true ->
  handle_wait_error (cfg w) (Z.pos (EOWNERDEAD (cfg w))) = wea_return ->
  native_wait_call (native_cond this w) m tp w
  = (Returned (Z.pos (EOWNERDEAD (cfg w))), w1) ->
  status <$> mutexes w1 !! m = Some locked_inconsistent /\
  match recover_func (protected_data w1) with
  | (Returned _, d) =>
      exists w', CondVar.wait_robust fuel this m recover_func tp w = (Returned tt, w') /\
        trace w' = trace w1 ++ [ev_handle_wait_error (Z.pos (EOWNERDEAD (cfg w)));
                                ev_recover_func; ev_mark_as_consistent m] /\
        status <$> mutexes w' !! m = Some locked /\
        protected_data w' = d
  | (Thrown e, d) =>
      exists w', CondVar.wait_robust fuel this m recover_func tp w = (Thrown e, w') /\
        trace w' = trace w1 ++ [ev_handle_wait_error (Z.pos (EOWNERDEAD (cfg w)));
                                ev_recover_func; ev_pthread_mutex_unlock m] /\
        status <$> mutexes w' !! m = Some unrecoverable /\
        protected_data w' = d
  | (_, d) =>
      forall u, (CondVar.wait_robust fuel this m recover_func tp w).1 <> Returned u
  end.
Proof.
  intros Hnative (Hd1 & Hd2 & Hd3) Hp Hh H.
  destruct (native_wait_call_owner_died _ _ _ _ _ H) as (c & mu & Hc & Hmu & Hw1).
  split; [subst w1; cbn; rewrite lookup_insert_eq; reflexivity|].
  assert (Hn : CondVar.wait_robust fuel this m recover_func tp w
               = CondVar.wait_robust_native (native_cond this w) m recover_func tp w).
  { unfold CondVar.wait_robust, bind, native_cond. cbn.
    destruct (TIGHTDB_CONDVAR_EMULATION (cfg w)); [|reflexivity].
    destruct Hnative as [Hf|Hsem]; [discriminate|]. rewrite Hsem. reflexivity. }
  rewrite Hn. clear Hn.
  assert (Hr : (match tp with
                | None => let* r := pthread_cond_wait (native_cond this w) m in
                          ret (inl r)
                | Some t =>
                    let* r := pthread_cond_timedwait (native_cond this w) m t in
                    let* etimedout := get (fun w => Z.pos (ETIMEDOUT (cfg w))) in
                    if (r =? etimedout)%Z then ret (inr tt) else ret (inl r)
                end) w
               = (Returned (inl (Z.pos (EOWNERDEAD (cfg w)))), w1)).
  { destruct tp as [t|]; cbn [native_wait_call] in H; unfold bind; rewrite H; cbn.
    - replace (cfg w1) with (cfg w) by (subst w1; reflexivity).
      destruct (EOWNERDEAD (cfg w) =? ETIMEDOUT (cfg w))%positive eqn:E; [|reflexivity].
      apply Pos.eqb_eq in E. congruence.
    - reflexivity. }
  unfold CondVar.wait_robust_native. rewrite (bind_run _ _ _ _ _ Hr). clear Hr H.
  cbn [Z.eqb].
  unfold CondVar.call_handle_wait_error, try_catch, call_recover_func,
    RobustMutex.mark_as_consistent, RobustMutex.unlock, Mutex.unlock,
    pthread_mutex_unlock, mutex_unlock_effect, mutex_consistent_effect, set_status,
    TIGHTDB_ASSERT, bind.
  subst w1. cbn. rewrite Hh. cbn.
  destruct (recover_func (protected_data w)) as [[[]|e| | | |] d]; cbn;
    rewrite ?Hp; cbn; rewrite ?lookup_insert_eq; cbn;
    rewrite ?andb_false_r; cbn; rewrite ?lookup_insert_eq; cbn;
    try (intros u; discriminate);
    (eexists; split; [reflexivity|]); cbn;
    rewrite ?lookup_insert_eq, <- ?app_assoc; cbn; repeat split; done.
Qed.

(** A process-local condition variable and a robust mutex that the caller
    holds; the wait reports EOWNERDEAD (105) and the callback repairs the
    data. *)
Lemma wait_recovers_after_owner_died_witness :
  let w := example_world (example_config false true) (quiet_env 105) unlocked locked
             (SharedPart_native cond_initialized) 0 in
  exists w',
    CondVar.wait_robust 0 (CondVar.mk None None (Some 5)) 2
      (fun d => (Returned tt, <[0 := 1%Z]> d)) None w = (Returned tt, w') /\
    status <$> mutexes w' !! 2 = Some locked /\
    protected_data w' = <[0 := 1%Z]> ∅.
Proof.
  intros w.
  assert (Hd : distinct_errno (cfg w)) by (repeat split; discriminate).
  destruct (wait_recovers_after_owner_died 0 (CondVar.mk None None (Some 5)) 2
              (fun d => (Returned tt, <[0 := 1%Z]> d)) None w
              (native_wait_call (Some (inl 5)) 2 None w).2
              (or_introl eq_refl) Hd eq_refl eq_refl)
    as (_ & H).
  - vm_compute. reflexivity.
  - cbn in H. destruct H as (w' & H1 & _ & H3 & H4).
    exists w'. split; [exact H1|]. split; [exact H3|exact H4].
Defined.

(** ** CondVar::wait under emulation: the timeout *)

(** X4.  Under emulation, on a condition variable with a semaphore,
    [wait(m, recover_func, tp)] with a non-null [tp] does not wait with a
    timeout: in a debug build the assertion [tp == 0] ends the process
    before anything else is done, and in a release build the call does
    what the call without timeout does. *)
Theorem wait_emulated_ignores_timeout (fuel : nat) (this : CondVar.t) (sem : addr)
    (m : addr) (recover_func : recover_func_t) (t : Z) (w : World) :
  TIGHTDB_CONDVAR_EMULATION (cfg w) = true ->
  CondVar.m_sem this = Some sem ->
  CondVar.wait_robust fuel this m recover_func (Some t) w =
  if TIGHTDB_DEBUG (cfg w) then (Terminated, w)
  else CondVar.wait_robust fuel this m recover_func None w.
Proof.
  intros He Hs. unfold CondVar.wait_robust, TIGHTDB_ASSERT, bind. cbn.
  rewrite He, Hs.
  destruct (CondVar.m_shared_part this);
    destruct (TIGHTDB_DEBUG (cfg w)) eqn:Hdebug; cbn;
    repeat (rewrite ?Hdebug; cbn); reflexivity.
Qed.

(** A debug build: the wait with a timeout of 1000 ends the process and
    logs nothing. *)
Lemma wait_emulated_ignores_timeout_witness :
  let w := example_world (example_config true true) (quiet_env 0) unlocked locked
             (SharedPart_emulation 7 0) 1 in
  CondVar.wait_robust 5 (CondVar.mk (Some 3) (Some 4) None) 2
    (fun d => (Returned tt, d)) (Some 1000%Z) w = (Terminated, w).
Proof.
  intros w.
  exact (wait_emulated_ignores_timeout 5 (CondVar.mk (Some 3) (Some 4) None) 4 2
           (fun d => (Returned tt, d)) 1000 w eq_refl eq_refl).
Defined.

(** ** CondVar::close, called again, and the handle after it *)

Lemma close_inv (this this1 : CondVar.t) (w w1 : World) :
  CondVar.close this w = (Returned this1, w1) ->
  cfg w1 = cfg w /\
  match CondVar.m_sem this with
  | Some sem =>
      this1 = CondVar.mk (CondVar.m_shared_part this) None (CondVar.m_cond this) /\
      trace w1 = trace w ++ [ev_sem_close sem]
  | None =>
      this1 = CondVar.mk None None None /\
      trace w1 = trace w ++ match CondVar.m_cond this with
                            | Some cond => [ev_pthread_cond_destroy cond; ev_delete cond]
                            | None => []
                            end
  end.
Proof.
  unfold CondVar.close, sem_close, pthread_cond_destroy, operator_delete, bind.
  intros H. cbn in H.
  destruct (CondVar.m_sem this) as [sem|] eqn:Hs; cbn in H.
  - simplify_eq. auto.
  - destruct (CondVar.m_cond this) as [cond|] eqn:Hc; cbn in H.
    + break_run H; simplify_eq; cbn; rewrite ?Hs, <- ?app_assoc; auto.
    + simplify_eq. cbn. rewrite Hs, Hc, app_nil_r. auto.
Qed.

(** X5.  Calling [close()] again is harmless: over two calls that return,
    the semaphore of the handle is closed once and its private condition
    variable is destroyed and freed once, nothing else is logged, and the
    handle ends with its three pointers null.  On such a handle a further
    [close()], and the destructor, do nothing at all. *)
Theorem close_twice_releases_once (this this1 this2 : CondVar.t) (w w1 w2 : World) :
  CondVar.close this w = (Returned this1, w1) ->
  CondVar.close this1 w1 = (Returned this2, w2) ->
  this2 = CondVar.mk None None None /\
  trace w2 = trace w
    ++ match CondVar.m_sem this with Some sem => [ev_sem_close sem] | None => [] end
    ++ match CondVar.m_cond this with
       | Some cond => [ev_pthread_cond_destroy cond; ev_delete cond]
       | None => []
       end /\
  CondVar.close this2 w2 = (Returned this2, w2) /\
  CondVar.dtor this2 w2 = (Returned tt, w2).
Proof.
  intros H1 H2.
  apply close_inv in H1 as (_ & H1). apply close_inv in H2 as (_ & H2).
  destruct (CondVar.m_sem this) as [sem|].
  - destruct H1 as (-> & Ht1). cbn in H2. destruct H2 as (-> & Ht2).
    rewrite Ht2, Ht1, <- app_assoc. auto.
  - destruct H1 as (-> & Ht1). cbn in H2. destruct H2 as (-> & Ht2).
    rewrite Ht2, Ht1, app_nil_r. auto.
Qed.

(** The handle of a process-local condition variable at address 5: the
    first [close()] destroys and frees it, the second logs nothing. *)
Lemma close_twice_releases_once_witness :
  let w := example_world (example_config true true) (quiet_env 0) unlocked unlocked
             (SharedPart_emulation 0 0) 0 in
  let this := CondVar.mk None None (Some 5) in
  let r1 := CondVar.close this w in
  let r2 := CondVar.close (CondVar.mk None None None) r1.2 in
  trace r2.2 = [ev_pthread_cond_destroy 5; ev_delete 5].
Proof.
  intros w this r1 r2.
  refine (proj1 (proj2 (close_twice_releases_once this (CondVar.mk None None None)
                          (CondVar.mk None None None) w r1.2 r2.2 _ _)));
    vm_compute; reflexivity.
Defined.

(** X6.  A handle that has been closed must not be used: [notify()],
    [notify_all()] and [wait()] on it pass a null pointer to the
    operating system, which is undefined behaviour.  (The handle is the
    one of a process-local condition variable, or of an emulated one.) *)
Theorem closed_handle_is_unusable (this this1 : CondVar.t) (w w1 : World) :
  TIGHTDB_CONDVAR_EMULATION (cfg w) = true \/ CondVar.m_sem this = None ->
  CondVar.m_sem this = None \/ CondVar.m_cond this = None ->
  CondVar.close this w = (Returned this1, w1) ->
  CondVar.notify this1 w1 = (Undefined, w1) /\
  CondVar.notify_all this1 w1 = (Undefined, w1) /\
  (forall fuel l, CondVar.wait fuel this1 l w1 = (Undefined, w1)) /\
  (forall fuel m recover_func,
     CondVar.wait_robust fuel this1 m recover_func None w1 = (Undefined, w1)).
Proof.
  intros He Hown H. apply close_inv in H as (Hcfg & H).
  assert (Hcase : CondVar.m_sem this1 = None /\ CondVar.m_cond this1 = None /\
                  (TIGHTDB_CONDVAR_EMULATION (cfg w1) = true \/
                   CondVar.m_shared_part this1 = None)).
  { rewrite Hcfg. destruct (CondVar.m_sem this) as [sem|].
    - destruct H as (-> & _). cbn.
      destruct He as [He|?]; [|discriminate].
      destruct Hown as [?|Hc]; [discriminate|]. auto.
    - destruct H as (-> & _). cbn. auto. }
  clear H He Hown. destruct Hcase as (Hs & Hc & He).
  unfold CondVar.notify, CondVar.notify_all, CondVar.wait, CondVar.wait_robust,
    CondVar.notify_native, CondVar.notify_all_native, CondVar.wait_native,
    CondVar.wait_robust_native, pthread_cond_signal, pthread_cond_broadcast,
    pthread_cond_wait, bind.
  cbn. rewrite Hs, Hc. cbn.
  destruct (TIGHTDB_CONDVAR_EMULATION (cfg w1)); cbn; [auto|].
  destruct He as [?|Hp]; [discriminate|]. rewrite Hp. cbn. auto.
Qed.

(** The handle of an emulated condition variable, closed and then
    notified. *)
Lemma closed_handle_is_unusable_witness :
  let w := example_world (example_config true true) (quiet_env 0) unlocked unlocked
             (SharedPart_emulation 7 3) 1 in
  let r := CondVar.close (CondVar.mk (Some 3) (Some 4) None) w in
  CondVar.notify (CondVar.mk (Some 3) None None) r.2 = (Undefined, r.2).
Proof.
  intros w r.
  refine (proj1 (closed_handle_is_unusable (CondVar.mk (Some 3) (Some 4) None)
                   (CondVar.mk (Some 3) None None) w r.2
                   (or_introl eq_refl) (or_intror eq_refl) _)).
  vm_compute. reflexivity.
Defined.

(** ** Thread: a start that fails *)

(** X7.  How [start(func)] on a thread that is not joinable, and the
    constructor from a function, fail.  When the allocation of the
    function object fails, std::bad_alloc is thrown; when the copy
    constructor of the function object throws, its exception is
    propagated; in both cases pthread_create has not been called.
    Otherwise pthread_create is called once, and when it reports an
    error [r] the call ends as [create_failed(r)] does.  (The function
    object is freed when [create_failed] throws; its destructor is taken
    not to throw.) *)
Theorem Thread_start_failure (this : Thread.t) (func : nat) (w w' : World)
    (o : outcome Thread.t) :
  Thread.joinable this = false ->
  Thread.start this func w = (o, w') \/ Thread.Thread_F func w = (o, w') ->
  (forall t, o <> Returned t) ->
  let k := length (trace w) in
  (alloc_fails (env w) k = true /\ o = Thrown bad_alloc /\
   trace w' = trace w ++ [ev_new]) \/
  (alloc_fails (env w) k = false /\
   (exists e, copy_throws (env w) k = Some e /\ o = Thrown e) /\
   trace w' = trace w ++ [ev_new]) \/
  (alloc_fails (env w) k = false /\ copy_throws (env w) k = None /\
   os_result (env w) (S k) <> 0%Z /\
   never_returns (create_failed (cfg w) (os_result (env w) (S k))) w' = (o, w') /\
   trace w' = trace w ++ [ev_new; ev_pthread_create func]).
Proof.
  intros Hj H Ho k. subst k. unfold Thread.joinable in Hj.
  assert (Hlen : length (trace w ++ [ev_new]) = S (length (trace w)))
    by (rewrite length_app, Nat.add_1_r; reflexivity).
  destruct H as [H|H];
    unfold Thread.start, Thread.Thread_F, Thread.start_entry, operator_new,
      pthread_create, bind in H; rewrite ?Hj in H; cbn in H;
    (destruct (alloc_fails (env w) (length (trace w))); cbn in H;
     [left; simplify_eq; auto|right]);
    (destruct (copy_throws (env w) (length (trace w))) as [e|]; cbn in H;
     [left; simplify_eq; eauto|right]);
    rewrite Hlen in H;
    (destruct (os_result (env w) (S (length (trace w))) =? 0)%Z eqn:Hr; cbn in H;
     [exfalso; simplify_eq; eapply Ho; reflexivity|]);
    apply Z.eqb_neq in Hr;
    (split; [reflexivity|]); (split; [reflexivity|]); (split; [exact Hr|]);
    destruct (create_failed (cfg w) (os_result (env w) (S (length (trace w)))));
    cbn in H |- *; simplify_eq; cbn; rewrite <- app_assoc; auto.
Qed.

(** The copy constructor of the function object throws: [start]
    propagates the exception, and no thread has been created. *)
Lemma Thread_start_failure_witness :
  let e := mkEnv (fun _ sm => sm) (fun _ v => v) (fun _ => false) (fun _ => 0%Z)
             (fun _ => false) (fun _ => Some (app_exception 3)) in
  let w := example_world (example_config true true) e unlocked unlocked
             (SharedPart_emulation 0 0) 0 in
  (Thread.start Thread.Thread 0 w).1 = Thrown (app_exception 3) /\
  trace (Thread.start Thread.Thread 0 w).2 = [ev_new].
Proof.
  intros e w.
  destruct (Thread_start_failure Thread.Thread 0 w (Thread.start Thread.Thread 0 w).2
              (Thread.start Thread.Thread 0 w).1 eq_refl
              (or_introl (surjective_pairing _)))
    as [(Ha & _)|[(_ & _ & Ht)|(_ & Hc & _)]].
  - intros t. vm_compute. discriminate.
  - vm_compute in Ha. discriminate.
  - split; [vm_compute; reflexivity | exact Ht].
  - vm_compute in Hc. discriminate.
Defined.

(** ** CondVar::wait under emulation: the permits of a retry *)

(** X8.  One retry of the loop of [wait(LockGuard&)]: the semaphore yields
    (a permit is there, or sem_wait is interrupted by a signal), the mutex
    is free, and the signal counter is found at the snapshot.  The retry
    gives the permit back, releases the mutex and waits again.  After it
    the semaphore holds what it held when sem_wait looked at it; but when
    sem_wait was interrupted no permit had been taken, and the semaphore
    holds one permit more. *)
Theorem wait_retry_returns_permit (fuel : nat) (this : CondVar.t) (sem p : addr)
    (l : LockGuard.t) (c v : N) (w : World) :
  let m := LockGuard.m_mutex l in
  let k := length (trace w) in
  let v' := other_posts (env w) k v in
  let interrupted := sem_interrupted (env w) k in
  CondVar.m_shared_part this = Some p ->
  semaphores w !! sem = Some v ->
  mutexes w !! m = Some (mkMutex false unlocked) ->
  interrupted = true \/ v' <> 0%N ->
  signal_counter_at p (other_threads (env w) (S k) (shared_memory w)) = Some c ->
  exists w1,
    CondVar.wait_loop (S fuel) this sem l c w = CondVar.wait_loop fuel this sem l c w1 /\
    semaphores w1 !! sem = Some (if interrupted then v' + 1 else v')%N /\
    mutexes w1 !! m = Some (mkMutex false unlocked) /\
    trace w1 = trace w ++ retry_events sem m p c.
Proof.
  intros m k v' interrupted Hp Hv Hm Hperm Hc.
  cbn [CondVar.wait_loop]. fold m.
  set (w1 := set_semaphores
               (fun ss => <[sem := (if interrupted then v' else v' - 1)%N]> ss)
               (set_trace (fun t => t ++ [ev_sem_wait sem]) w)).
  assert (H1 : sem_wait sem w = (Returned tt, w1)).
  { unfold sem_wait, bind. cbn. rewrite Hv. cbn. fold k v' interrupted.
    destruct interrupted eqn:Hi; [reflexivity|].
    destruct Hperm as [?|Hperm]; [discriminate|].
    apply N.eqb_neq in Hperm. rewrite Hperm. reflexivity. }
  rewrite (bind_run _ _ _ _ _ H1).
  assert (Hm1 : mutexes w1 !! m = Some (mkMutex false unlocked)) by exact Hm.
  rewrite (bind_run _ _ _ _ _ (Mutex_lock_run m _ w1 Hm1 eq_refl)).
  set (w2 := acquired m _ locked (ev_pthread_mutex_lock m) w1).
  unfold signal_counter_at in Hc.
  destruct (other_threads (env w) (S k) (shared_memory w) !! p) as [[sc wt|]|] eqn:Hsm;
    try discriminate.
  injection Hc as ->.
  assert (Hsm2 : shared_memory w2 !! p = Some (SharedPart_emulation c wt)).
  { subst w2 w1. cbn. rewrite length_app, Nat.add_1_r. exact Hsm. }
  rewrite (bind_run _ _ _ _ _ (load_signal_counter_run this w2 p c wt Hp Hsm2)).
  rewrite N.eqb_refl. cbn [negb].
  unfold sem_post, sched_yield, Mutex.unlock, pthread_mutex_unlock, mutex_unlock_effect,
    set_status, TIGHTDB_ASSERT, bind.
  cbn. repeat (rewrite ?lookup_insert_eq, ?andb_false_r; cbn).
  eexists. split; [reflexivity|]. cbn.
  rewrite !lookup_insert_eq, <- !app_assoc. cbn. repeat split.
  destruct interrupted; [reflexivity|].
  destruct Hperm as [?|Hperm]; [discriminate|]. do 2 f_equal. lia.
Qed.

(** A semaphore without permits and a sem_wait that a signal interrupts:
    after the retry the semaphore holds a permit. *)
Lemma wait_retry_returns_permit_witness :
  let e := mkEnv (fun _ sm => sm) (fun _ v => v) (fun _ => true) (fun _ => 0%Z)
             (fun _ => false) (fun _ => None) in
  let w := example_world (example_config true true) e unlocked unlocked
             (SharedPart_emulation 7 1) 0 in
  exists w1,
    CondVar.wait_loop 1 (CondVar.mk (Some 3) (Some 4) None) 4 (LockGuard.mk 1) 7 w
    = CondVar.wait_loop 0 (CondVar.mk (Some 3) (Some 4) None) 4 (LockGuard.mk 1) 7 w1 /\
    semaphores w1 !! 4 = Some 1%N.
Proof.
  intros e w.
  destruct (wait_retry_returns_permit 0 (CondVar.mk (Some 3) (Some 4) None) 4 3
              (LockGuard.mk 1) 7 0 w eq_refl eq_refl eq_refl (or_introl eq_refl) eq_refl)
    as (w1 & H1 & H2 & _).
  exists w1. split; [exact H1 | exact H2].
Defined.

(** ** The monitor idiom: a wait inside a LockGuard *)

Lemma keeps_mutexes_refl (w : World) : keeps_mutexes w w.
Proof. reflexivity. Qed.

Lemma keeps_mutexes_trans (w1 w2 w3 : World) :
  keeps_mutexes w1 w2 -> keeps_mutexes w2 w3 -> keeps_mutexes w1 w3.
Proof. unfold keeps_mutexes. congruence. Qed.

Lemma sem_wait_keeps_mutexes (s : addr) : preserves keeps_mutexes (sem_wait s).
Proof.
  unfold sem_wait. frame_modify keeps_mutexes_refl keeps_mutexes_trans; reflexivity.
Qed.

Lemma sem_post_keeps_mutexes (s : addr) : preserves keeps_mutexes (sem_post s).
Proof.
  unfold sem_post. frame_modify keeps_mutexes_refl keeps_mutexes_trans; reflexivity.
Qed.

Lemma sched_yield_keeps_mutexes : preserves keeps_mutexes sched_yield.
Proof.
  unfold sched_yield. frame_modify keeps_mutexes_refl keeps_mutexes_trans; reflexivity.
Qed.

Lemma incr_waiters_keeps_mutexes (this : CondVar.t) :
  preserves keeps_mutexes (CondVar.incr_waiters this).
Proof.
  unfold CondVar.incr_waiters, CondVar.load_waiters, CondVar.store_waiters,
    CondVar.load_shared_part.
  frame_modify keeps_mutexes_refl keeps_mutexes_trans; reflexivity.
Qed.

Lemma load_signal_counter_keeps_mutexes (this : CondVar.t) :
  preserves keeps_mutexes (CondVar.load_signal_counter this).
Proof.
  unfold CondVar.load_signal_counter, CondVar.load_shared_part.
  frame_modify keeps_mutexes_refl keeps_mutexes_trans; reflexivity.
Qed.

(** When the loop of [wait(LockGuard&)] returns, the caller holds the
    mutex in the consistent state. *)
Lemma wait_loop_returns_locked (fuel : nat) :
  forall (this : CondVar.t) (sem : addr) (l : LockGuard.t) (c : N) (w w' : World)
         (u : unit),
    (exists s, mutexes w !! LockGuard.m_mutex l = Some (mkMutex false s)) ->
    CondVar.wait_loop fuel this sem l c w = (Returned u, w') ->
    mutexes w' !! LockGuard.m_mutex l = Some (mkMutex false locked).
Proof.
  induction fuel as [|fuel IH]; intros this sem l c w w' u [s Hs] H; [discriminate|].
  cbn [CondVar.wait_loop] in H.
  apply bind_inv in H as (? & w1 & H1 & H). apply sem_wait_keeps_mutexes in H1.
  apply bind_inv in H as (? & w2 & H2 & H).
  apply Mutex_lock_inv in H2 as (mu & Hmu & _ & Hw2).
  rewrite H1, Hs in Hmu. injection Hmu as <-.
  apply bind_inv in H as (sc & w3 & H3 & H).
  apply load_signal_counter_keeps_mutexes in H3.
  assert (Hm3 : mutexes w3 !! LockGuard.m_mutex l = Some (mkMutex false locked)).
  { rewrite H3, Hw2. cbn. apply lookup_insert_eq. }
  destruct (negb (sc =? c)%N).
  - cbn in H. simplify_eq. exact Hm3.
  - apply bind_inv in H as (? & w4 & H4 & H). apply sem_post_keeps_mutexes in H4.
    apply bind_inv in H as (? & w5 & H5 & H). apply sched_yield_keeps_mutexes in H5.
    apply bind_inv in H as (? & w6 & H6 & H).
    assert (Hm5 : mutexes w5 !! LockGuard.m_mutex l = Some (mkMutex false locked))
      by (rewrite H5, H4; exact Hm3).
    pose proof (Mutex_unlock_inv _ _ _ _ _ H6 Hm5 eq_refl) as [[_ ->]|[Hx _]];
      [|discriminate].
    eapply IH; [|exact H]. exists unlocked. cbn. apply lookup_insert_eq.
Qed.

Lemma occurrences_retry_events (sem m p : addr) (c : N) (n : nat) :
  occurrences (ev_pthread_mutex_lock m) (concat (repeat (retry_events sem m p c) n)) = n /\
  occurrences (ev_pthread_mutex_unlock m) (concat (repeat (retry_events sem m p c) n)) = n.
Proof.
  induction n as [|n [IH1 IH2]]; [split; reflexivity|].
  cbn [repeat concat]. rewrite !occurrences_app, IH1, IH2.
  unfold occurrences, retry_events. cbn.
  repeat case_decide; try discriminate; try congruence; cbn; auto.
Qed.

Lemma pthread_cond_wait_success (c : option cond_ptr) (m : addr) (w w1 : World) :
  pthread_cond_wait c m w = (Returned 0%Z, w1) ->
  mutexes w1 = mutexes w /\
  exists c', trace w1 = trace w ++ [ev_pthread_cond_wait c' m].
Proof.
  unfold pthread_cond_wait, cond_wait_effect, deref_cond, interference, set_status, bind.
  intros H. cbn in H. destruct c as [c'|]; cbn in H; [|discriminate].
  break_run H; try discriminate; simplify_eq; cbn;
    try (split; [reflexivity|eexists; reflexivity]);
    exfalso;
    repeat match goal with
    | E : (os_result ?e ?k =? Z.pos _)%Z = true, E' : os_result ?e ?k = 0%Z |- _ =>
        rewrite E' in E; discriminate
    end.
Qed.

Lemma wait_returns_balanced (fuel : nat) (this : CondVar.t) (m : addr) (w w' : World)
    (u : unit) :
  mutexes w !! m = Some (mkMutex false locked) ->
  CondVar.wait fuel this (LockGuard.mk m) w = (Returned u, w') ->
  mutexes w' !! m = Some (mkMutex false locked) /\
  exists es, trace w' = trace w ++ es /\
    occurrences (ev_pthread_mutex_lock m) es = occurrences (ev_pthread_mutex_unlock m) es.
Proof.
  intros Hm H. unfold CondVar.wait in H.
  apply bind_inv in H as (e & w0 & H0 & H). cbn in H0. simplify_eq.
  assert (Hnative : forall cond,
            CondVar.wait_native cond (LockGuard.mk m) w0 = (Returned u, w') ->
            mutexes w' !! m = Some (mkMutex false locked) /\
            exists es, trace w' = trace w0 ++ es /\
              occurrences (ev_pthread_mutex_lock m) es
              = occurrences (ev_pthread_mutex_unlock m) es).
  { intros cond Hn. unfold CondVar.wait_native in Hn.
    apply bind_inv in Hn as (r & w1 & Hr & Hn).
    destruct (Z.eqb_spec r 0) as [->|Hne]; [|discriminate]. cbn in Hn. simplify_eq.
    apply pthread_cond_wait_success in Hr as (Hmx & c' & Ht).
    rewrite Hmx. split; [exact Hm|]. eexists. split; [exact Ht|].
    unfold occurrences. cbn. repeat case_decide; try discriminate; reflexivity. }
  destruct (TIGHTDB_CONDVAR_EMULATION (cfg w0)); [|eapply Hnative; exact H].
  destruct (CondVar.m_sem this) as [sem|]; [|eapply Hnative; exact H]. clear Hnative.
  apply bind_inv in H as (? & w1 & H1 & H). apply TIGHTDB_ASSERT_inv in H1. subst w1.
  apply bind_inv in H as (? & w2 & H2 & H).
  pose proof (incr_waiters_keeps_mutexes _ _ _ _ H2) as Hm2.
  apply incr_waiters_inv in H2 as (p & c & wt & Hp & _ & _ & H2).
  apply bind_inv in H as (c0 & w3 & H3 & H).
  apply load_signal_counter_logged in H3 as (p' & Hp' & _ & H3 & Hm3).
  assert (p' = p) by congruence. subst p'.
  apply bind_inv in H as (? & w4 & H4 & H).
  assert (Hmu3 : mutexes w3 !! m = Some (mkMutex false locked))
    by (rewrite Hm3, Hm2; exact Hm).
  pose proof (Mutex_unlock_inv _ _ _ _ _ H4 Hmu3 eq_refl) as [[_ Hw4]|[Hx _]];
    [|discriminate].
  apply Mutex_unlock_logged in H4.
  assert (Hmu4 : exists s, mutexes w4 !! m = Some (mkMutex false s)).
  { exists unlocked. rewrite Hw4. cbn. apply lookup_insert_eq. }
  pose proof (wait_loop_returns_locked fuel this sem (LockGuard.mk m) c0 w4 w' u Hmu4 H)
    as Hlocked.
  cbn [LockGuard.m_mutex] in *.
  apply wait_loop_returns in H as (p' & n & c' & Hp3 & _ & Hlog & _).
  assert (p' = p) by congruence. subst p'.
  split; [exact Hlocked|].
  destruct (logged_trans _ _ _ _ _ H2
              (logged_trans _ _ _ _ _ H3 (logged_trans _ _ _ _ _ H4 Hlog))) as [Ht _].
  eexists. split; [exact Ht|]. cbn [LockGuard.m_mutex].
  rewrite !occurrences_app.
  destruct (occurrences_retry_events sem m p c0 n) as [-> ->].
  unfold occurrences, last_events. cbn.
  repeat case_decide; try discriminate; try congruence; cbn; lia.
Qed.

(** X9.  The monitor idiom [{ LockGuard l(m); cond.wait(l); }] on a regular
    mutex that is free, with or without emulation: when the block is left
    normally the mutex is free again, and the block has locked the mutex
    as often as it has unlocked it, the retries of the emulated wait
    included. *)
Theorem wait_block_balanced (fuel : nat) (this : CondVar.t) (m : addr) (w w' : World) :
  mutexes w !! m = Some (mkMutex false unlocked) ->
  wait_block fuel this m w = (Returned tt, w') ->
  mutexes w' !! m = Some (mkMutex false unlocked) /\
  exists new, trace w' = trace w ++ new /\
    occurrences (ev_pthread_mutex_lock m) new
    = occurrences (ev_pthread_mutex_unlock m) new.
Proof.
  intros Hm H. unfold wait_block, LockGuard.LockGuard in H.
  apply bind_inv in H as (l & w0 & Hl & H).
  apply bind_inv in Hl as (? & w0' & Hl & Hr). cbn in Hr, Hl. simplify_eq.
  apply Mutex_lock_inv in Hl as (mu & Hmu & _ & ->).
  rewrite Hm in Hmu. injection Hmu as <-.
  set (w0 := acquired m _ locked (ev_pthread_mutex_lock m) w) in *.
  assert (Hm0 : mutexes w0 !! m = Some (mkMutex false locked))
    by (subst w0; cbn; apply lookup_insert_eq).
  destruct (CondVar.wait fuel this (LockGuard.mk m) w0) as [o w1] eqn:Hw.
  assert (Ho : o = Returned tt /\ LockGuard.dtor (LockGuard.mk m) w1 = (Returned tt, w')).
  { destruct o as [[]|e| | | |]; cbn in H; try discriminate; [auto|].
    unfold bind in H. destruct (LockGuard.dtor (LockGuard.mk m) w1) as [[[]| | | | |] ?];
      discriminate. }
  destruct Ho as [-> Hd].
  destruct (wait_returns_balanced _ _ _ _ _ _ Hm0 Hw) as (Hm1 & es & Ht & Hocc).
  unfold LockGuard.dtor in Hd. cbn in Hd.
  rewrite (Mutex_unlock_run m _ w1 Hm1 eq_refl) in Hd. simplify_eq.
  split; [cbn; apply lookup_insert_eq|].
  exists ([ev_pthread_mutex_lock m] ++ es ++ [ev_pthread_mutex_unlock m]).
  split.
  - cbn [released set_mutexes set_trace trace]. rewrite Ht. subst w0. cbn.
    rewrite <- !app_assoc. reflexivity.
  - rewrite !occurrences_app, !occurrences_singleton.
    repeat case_decide; try discriminate; try congruence; lia.
Qed.

(** Under emulation, with a notifier that signals during the second
    attempt of the wait. *)
Lemma wait_block_balanced_witness :
  let w := example_world (example_config true true) (notifier_env 12 3) unlocked locked
             (SharedPart_emulation 7 0) 0 in
  let w' := (wait_block 2 (CondVar.mk (Some 3) (Some 4) None) 1 w).2 in
  mutexes w' !! 1 = Some (mkMutex false unlocked).
Proof.
  intros w w'.
  refine (proj1 (wait_block_balanced 2 (CondVar.mk (Some 3) (Some 4) None) 1 w w'
                   eq_refl _)).
  vm_compute. reflexivity.
Defined.

(** ** Atomic: loads and stores of the legacy implementation *)

Lemma load_relaxed_loop_inv (fuel : nat) :
  forall (writes : nat -> option Z) (retval val v : Z) (c c' : Atomic.cell),
    Atomic.load_relaxed_loop fuel writes retval val c = Some (v, c') ->
    exists n, n <= fuel /\
      Atomic.accesses c' = Atomic.accesses c + n /\
      (n = 0 -> v = retval /\ retval = val) /\
      (0 < n -> retval <> val /\
                reads writes c n !! (n - 1) = Some v /\
                (n = 1 -> v = retval) /\
                (1 < n -> reads writes c n !! (n - 2) = Some v)).
Proof.
  induction fuel as [|fuel IH]; intros writes retval val v c c' H;
    cbn [Atomic.load_relaxed_loop] in H;
    destruct (Z.eqb_spec retval val) as [Heq|Hne]; cbn [negb] in H; try discriminate.
  - simplify_eq. exists 0. repeat split; try lia.
  - simplify_eq. exists 0. repeat split; try lia.
  - destruct (Atomic.read_state writes c) as [r0 c1] eqn:Hr.
    apply IH in H as (n & Hn & Hacc & H0 & Hpos).
    exists (S n). split; [lia|]. split.
    { unfold Atomic.read_state in Hr. simplify_eq. cbn in Hacc. lia. }
    split; [lia|]. intros _. split; [exact Hne|].
    cbn [reads]. rewrite Hr.
    destruct n as [|n].
    + destruct (H0 eq_refl) as [-> ->]. cbn. auto.
    + destruct (Hpos ltac:(lia)) as (_ & Hlast & H1 & H2).
      replace (S (S n) - 1) with (S (S n - 1)) by lia. cbn [lookup list_lookup].
      split; [exact Hlast|]. split; [lia|]. intros _.
      destruct n as [|n].
      * cbn. f_equal. symmetry. apply H1. reflexivity.
      * replace (S (S (S n)) - 2) with (S (S (S n) - 2)) by lia. cbn [lookup list_lookup].
        apply H2. lia.
Qed.

(** X10.  The legacy [load_relaxed()] of a wide type returns only a value
    that it has read twice.  When it returns [v] after [n + 2] reads, the
    last read returned [v], and so did the read before it; except after
    exactly three reads, where the second read is dropped: then the
    first read returned [v] and the second did not. *)
Theorem load_relaxed_reads_twice (fuel : nat) (writes : nat -> option Z) (v : Z)
    (this this' : Atomic.cell) :
  Atomic.load_relaxed fuel true writes this = Some (v, this') ->
  exists n, n <= fuel /\
    Atomic.accesses this' = Atomic.accesses this + (n + 2) /\
    let rs := reads writes this (n + 2) in
    rs !! (n + 1) = Some v /\
    (n <> 1 -> rs !! n = Some v) /\
    (n = 1 -> rs !! 0 = Some v /\ rs !! 1 <> Some v).
Proof.
  unfold Atomic.load_relaxed. intros H.
  destruct (Atomic.read_state writes this) as [r0 c1] eqn:Hr0.
  destruct (Atomic.read_state writes c1) as [r1 c2] eqn:Hr1.
  apply load_relaxed_loop_inv in H as (n & Hn & Hacc & H0 & Hpos).
  exists n. split; [exact Hn|]. split.
  { unfold Atomic.read_state in Hr0, Hr1. simplify_eq. cbn in Hacc. lia. }
  replace (n + 2) with (S (S n)) by lia. cbn [reads]. rewrite Hr0, Hr1.
  destruct n as [|n].
  - destruct (H0 eq_refl) as [-> ->]. cbn. split; [reflexivity|].
    split; [reflexivity|lia].
  - destruct (Hpos ltac:(lia)) as (Hne & Hlast & H1 & H2).
    replace (S n + 1) with (S (S (S n - 1))) by lia. cbn [lookup list_lookup].
    split; [exact Hlast|]. split.
    + intros Hn1. destruct n as [|n]; [lia|].
      replace (S (S n) - 2) with n in H2 by lia. cbn [lookup list_lookup].
      apply H2. lia.
    + intros Hn1. injection Hn1 as ->. cbn. rewrite (H1 eq_refl).
      split; [reflexivity|]. congruence.
Qed.

(** The cell is read as 5, 6, 5: the load returns 5 after three reads. *)
Lemma load_relaxed_reads_twice_witness :
  let writes := fun k => match k with 1 => Some 6%Z | 2 => Some 5%Z | _ => None end in
  exists n, n <= 4 /\
    reads writes (Atomic.mkCell 5 0) (n + 2) !! (n + 1) = Some 5%Z.
Proof.
  intros writes.
  destruct (load_relaxed_reads_twice 4 writes 5 (Atomic.mkCell 5 0) (Atomic.mkCell 5 3)
              eq_refl) as (n & Hn & _ & H & _).
  exists n. split; [exact Hn | exact H].
Defined.

Lemma current_quiet (writes : nat -> option Z) (c : Atomic.cell) :
  quiet_from writes (Atomic.accesses c) -> Atomic.current writes c = Atomic.value c.
Proof. intros Hq. unfold Atomic.current. rewrite (Hq _ (le_n _)). reflexivity. Qed.

Lemma store_loop_stores (fuel : nat) :
  forall (writes : nat -> option Z) (old_value value : Z) (c c' : Atomic.cell),
    Atomic.store_loop fuel writes old_value value c = Some c' ->
    Atomic.value c' = value /\ Atomic.accesses c < Atomic.accesses c'.
Proof.
  induction fuel as [|fuel IH]; intros writes old_value value c c' H;
    cbn [Atomic.store_loop] in H; unfold Atomic.__sync_bool_compare_and_swap in H;
    destruct (Atomic.current writes c =? old_value)%Z; cbn in H; simplify_eq;
    try (cbn; split; [reflexivity|lia]).
  apply IH in H as [H1 H2]. cbn in H2. split; [exact H1|lia].
Qed.

(** X11.  In the legacy implementation [store(value)] returns only with
    [value] in the cell, whatever other threads did meanwhile; a [load()]
    that follows, and that no store of another thread disturbs, returns
    [value].  A store that nobody disturbs makes two accesses for a wide
    type (a read and one successful swap) and one otherwise. *)
Theorem store_then_load (fuel fuel' : nat) (wide : bool) (writes : nat -> option Z)
    (value : Z) (this this1 : Atomic.cell) :
  Atomic.store fuel wide writes value this = Some this1 ->
  Atomic.value this1 = value /\
  (quiet_from writes (Atomic.accesses this1) ->
   exists this2, Atomic.load fuel' wide writes this1 = Some (value, this2)) /\
  (quiet_from writes (Atomic.accesses this) ->
   Atomic.accesses this1 = Atomic.accesses this + if wide then 2 else 1).
Proof.
  intros H.
  assert (Hv : Atomic.value this1 = value).
  { unfold Atomic.store in H. destruct wide.
    - destruct (Atomic.read_state writes this) as [old c1].
      apply store_loop_stores in H as [H _]. exact H.
    - simplify_eq. reflexivity. }
  split; [exact Hv|]. split.
  - intros Hq. unfold Atomic.load, Atomic.load_relaxed, Atomic.read_state.
    rewrite (current_quiet _ _ Hq), Hv.
    destruct wide; [|eexists; reflexivity].
    rewrite current_quiet; [|intros i Hi; apply Hq; cbn in Hi; lia]. cbn [Atomic.value].
    destruct fuel'; cbn [Atomic.load_relaxed_loop]; rewrite Z.eqb_refl; cbn;
      eexists; reflexivity.
  - intros Hq. unfold Atomic.store in H. destruct wide.
    + unfold Atomic.read_state in H. rewrite (current_quiet _ _ Hq) in H.
      destruct fuel; cbn [Atomic.store_loop] in H;
        unfold Atomic.__sync_bool_compare_and_swap in H;
        (rewrite current_quiet in H; [|intros i Hi; apply Hq; cbn in Hi; lia]);
        cbn [Atomic.value] in H; rewrite Z.eqb_refl in H; cbn in H;
        injection H as H; rewrite <- H; cbn; lia.
    + injection H as H. rewrite <- H. cbn. lia.
Qed.

(** Another thread stores 9 between the read and the swap of the store
    of 7: the store retries, and the load that follows returns 7. *)
Lemma store_then_load_witness :
  let writes := fun k => match k with 1 => Some 9%Z | _ => None end in
  exists this1 this2,
    Atomic.store 3 true writes 7 (Atomic.mkCell 0 0) = Some this1 /\
    Atomic.accesses this1 = 4 /\
    Atomic.load 0 true writes this1 = Some (7%Z, this2).
Proof.
  intros writes.
  destruct (store_then_load 3 0 true writes 7 (Atomic.mkCell 0 0) (Atomic.mkCell 7 4)
              eq_refl) as (_ & H & _).
  destruct H as [this2 H2]; [intros i Hi; cbn in Hi; do 4 (destruct i; [lia|]); reflexivity|].
  exists (Atomic.mkCell 7 4), this2. split; [reflexivity|]. split; [reflexivity|exact H2].
Defined.

(** ** Results::submit *)

Lemma submit_lookup {double : Type} (ident other : string) (seconds : double)
    (m : gmap string (list double)) :
  Results.submit ident seconds m !! other
  = if decide (ident = other) then Some (default [] (m !! ident) ++ [seconds])
    else m !! other.
Proof.
  unfold Results.submit. destruct (m !! ident) as [samples|] eqn:Hm; cbn;
    case_decide as Hd.
  - subst. rewrite lookup_insert_eq. reflexivity.
  - rewrite lookup_insert_ne by exact Hd. reflexivity.
  - subst. rewrite lookup_insert_eq. reflexivity.
  - rewrite !lookup_insert_ne by exact Hd. reflexivity.
Qed.

Lemma submit_all_lookup {double : Type} (ident : string) (calls : list (string * double)) :
  forall m : gmap string (list double),
    submit_all calls m !! ident
    = match m !! ident, submitted ident calls with
      | None, [] => None
      | o, l => Some (default [] o ++ l)
      end.
Proof.
  induction calls as [|[i s] calls IH]; intros m; cbn.
  - destruct (m !! ident); cbn; rewrite ?app_nil_r; reflexivity.
  - unfold submit_all in IH. rewrite IH, submit_lookup. cbn.
    case_decide as Hd.
    + subst i. destruct (m !! ident) as [samples|]; cbn; rewrite <- ?app_assoc; reflexivity.
    + reflexivity.
Qed.

(** X12.  After any sequence of calls of [submit] on an empty
    [m_measurements], an identifier has a measurement exactly when a
    sample was submitted under it, and the samples of the measurement are
    the values submitted under the identifier, in the order of the calls.
    So no measurement is without samples. *)
Theorem submit_collects_samples {double : Type} (calls : list (string * double))
    (ident : string) :
  submit_all calls ∅ !! ident
  = (if decide (submitted ident calls = []) then None else Some (submitted ident calls)) /\
  (forall samples, submit_all calls ∅ !! ident = Some samples -> samples <> []).
Proof.
  assert (H : submit_all calls ∅ !! ident
              = if decide (submitted ident calls = []) then None
                else Some (submitted ident calls)).
  { rewrite submit_all_lookup, lookup_empty.
    destruct (submitted ident calls); reflexivity. }
  split; [exact H|].
  intros samples Hs. rewrite H in Hs. case_decide; congruence.
Qed.

(** ** almost_equal and findMode *)

Lemma almost_equal_diag (x : PrimFloat.float) :
  almost_equal x x = PrimFloat.is_finite x.
Proof.
  unfold almost_equal, PrimFloat.is_finite, PrimFloat.is_nan, PrimFloat.is_infinity.
  rewrite !FloatAxioms.ltb_spec, !FloatAxioms.eqb_spec, !FloatAxioms.abs_spec,
    !FloatAxioms.sub_spec.
  assert (Hmin : FloatOps.Prim2SF numeric_limits.min
                 = SpecFloat.S754_finite false 4503599627370496 (-1074))
    by (vm_compute; reflexivity).
  assert (Hinf : FloatOps.Prim2SF PrimFloat.infinity = SpecFloat.S754_infinity false)
    by (vm_compute; reflexivity).
  rewrite Hmin, Hinf.
  destruct (FloatOps.Prim2SF x) as [s|s| |s m e].
  - destruct s; cbn; apply orb_true_r.
  - destruct s; reflexivity.
  - reflexivity.
  - unfold FloatAxioms.SF64sub, SpecFloat.SFsub. rewrite Z.sub_diag.
    cbn [SpecFloat.binary_normalize SpecFloat.SFabs].
    rewrite orb_true_r.
    unfold SpecFloat.SFeqb, SpecFloat.SFcompare.
    rewrite Z.compare_refl, Pos.compare_refl. destruct s; reflexivity.
Qed.

(** X13.  [almost_equal(x, x)] holds exactly for the finite doubles.  A
    NaN and an infinity are not almost equal to themselves: [x - x] is
    then a NaN, and every comparison with a NaN is false. *)
Theorem almost_equal_refl_iff_finite (x : PrimFloat.float) :
  (almost_equal x x = true <-> PrimFloat.is_finite x = true) /\
  almost_equal PrimFloat.infinity PrimFloat.infinity = false /\
  almost_equal PrimFloat.nan PrimFloat.nan = false.
Proof.
  rewrite almost_equal_diag. split; [reflexivity|]. split; vm_compute; reflexivity.
Qed.

(** A run of [n] samples that are almost equal to the candidate [x]: each
    of them is counted, and the candidate becomes the mode when its count
    passes the best count so far. *)
Lemma findMode_body_run (x : PrimFloat.float) (n : nat) :
  almost_equal x x = true ->
  forall (k b : nat) (bm : PrimFloat.float),
    k <= b ->
    fold_left findMode_body (replicate n x) (mkLocals k b x bm)
    = mkLocals (k + n) (Nat.max b (k + n)) x (if b <? k + n then x else bm).
Proof.
  intros Hx. induction n as [|n IH]; intros k b bm Hkb; cbn [replicate fold_left].
  - rewrite Nat.add_0_r, Nat.max_l by exact Hkb.
    replace (b <? k) with false by (symmetry; apply Nat.ltb_ge; exact Hkb). reflexivity.
  - unfold findMode_body at 2. cbn [mode count better_count better_mode]. rewrite Hx.
    destruct (Nat.ltb_spec b (S k)) as [Hlt|Hge].
    + rewrite IH by lia. f_equal; [lia|lia|].
      replace (b <? k + S n) with true by (symmetry; apply Nat.ltb_lt; lia).
      destruct (S k <? S k + n); reflexivity.
    + rewrite IH by lia. f_equal; [lia|lia|].
      replace (S k + n) with (k + S n) by lia. reflexivity.
Qed.

(** X14.  [findMode] counts the first sample twice: the count starts at 1
    for [samples[0]], and the loop then visits [samples[0]] again.  So on
    [k] samples [a] followed by [n] samples [b] the value [b] is reported
    only if it occurs at least two times more often than [a]; with
    [n = k + 1] the mode that is reported is [a], although [b] occurs more
    often. *)
Theorem findMode_counts_first_twice (a b : PrimFloat.float) (k n : nat) :
  PrimFloat.is_finite a = true ->
  PrimFloat.is_finite b = true ->
  almost_equal b a = false ->
  0 < k ->
  findMode (replicate k a ++ replicate n b)
  = Results.InBounds (if k + 1 <? n then b else a).
Proof.
  intros Ha Hb Hba Hk. rewrite <- almost_equal_diag in Ha, Hb.
  unfold findMode.
  destruct k as [|k]; [lia|]. cbn [replicate app Results.subscript lookup list_lookup].
  cbn [Results.access_bind]. f_equal.
  change (a :: replicate k a ++ replicate n b)
    with (replicate (S k) a ++ replicate n b).
  rewrite fold_left_app, (findMode_body_run a (S k) Ha 1 1 a) by lia.
  replace (Nat.max 1 (1 + S k)) with (S k + 1) by lia.
  replace (1 <? 1 + S k) with true by (symmetry; apply Nat.ltb_lt; lia).
  destruct n as [|n]; [reflexivity|].
  cbn [replicate fold_left]. unfold findMode_body at 2.
  cbn [mode count better_count better_mode]. rewrite Hba.
  rewrite (findMode_body_run b n Hb 1 (S k + 1) a) by lia.
  cbn [better_mode]. replace (1 + n) with (S n) by lia. reflexivity.
Qed.

(** The samples 1, 2, 2: the mode that [findMode] reports is 1. *)
Lemma findMode_counts_first_twice_witness :
  findMode [PrimFloat.one; PrimFloat.two; PrimFloat.two] = Results.InBounds PrimFloat.one.
Proof.
  exact (findMode_counts_first_twice PrimFloat.one PrimFloat.two 1 2
           eq_refl eq_refl eq_refl (le_n 1)).
Defined.

Lemma findMode_body_elem (pool samples : list PrimFloat.float) :
  forall st : findMode_locals,
    (forall x, x ∈ samples -> x ∈ pool) ->
    mode st ∈ pool -> better_mode st ∈ pool ->
    better_mode (fold_left findMode_body samples st) ∈ pool.
Proof.
  induction samples as [|x samples IH]; intros st Hsub Hm Hb; [exact Hb|].
  cbn [fold_left]. apply IH.
  - intros y Hy. apply Hsub. right. exact Hy.
  - unfold findMode_body. destruct (almost_equal x (mode st)); cbn.
    + match goal with |- context [if ?c then _ else _] => destruct c end; exact Hm.
    + apply Hsub. left.
  - unfold findMode_body. destruct (almost_equal x (mode st)); cbn.
    + match goal with |- context [if ?c then _ else _] => destruct c end;
        [exact Hm | exact Hb].
    + exact Hb.
Qed.

(** X15.  [tryFindMode] reads within bounds and reports one of the
    samples; for no samples at all it reports a quiet NaN, where
    [findMode] itself would read [samples[0]] past the end. *)
Theorem tryFindMode_reports_a_sample (samples : list PrimFloat.float) :
  match samples with
  | [] =>
      tryFindMode samples = Results.InBounds numeric_limits.quiet_NaN /\
      findMode samples = Results.OutOfBounds 0 0
  | _ :: _ =>
      exists x, tryFindMode samples = Results.InBounds x /\
                findMode samples = Results.InBounds x /\ x ∈ samples
  end.
Proof.
  destruct samples as [|first samples]; [split; reflexivity|].
  unfold tryFindMode, findMode.
  cbn [length Nat.eqb negb Results.subscript lookup list_lookup Results.access_bind].
  eexists. split; [reflexivity|]. split; [reflexivity|].
  apply findMode_body_elem; cbn; [auto|left|left].
Qed.

(** ** UniqueLock: misuse *)

(** X16.  [UniqueLock::lock()] and [UniqueLock::unlock()] do not look at
    the flag.  On a guard that holds its (regular) mutex, [lock()] locks
    the mutex a second time and the thread blocks for ever; on a guard
    that does not hold it, [unlock()] unlocks a mutex that the thread does
    not hold, which POSIX leaves undefined. *)
Theorem UniqueLock_misuse (m : addr) (new : list event) (l : UniqueLock.t) (w : World) :
  guard_inv m new l w ->
  if UniqueLock.m_is_locked l
  then UniqueLock.lock l w
       = (Blocked, set_trace (fun t => t ++ [ev_pthread_mutex_lock m]) w)
  else UniqueLock.unlock l w
       = (Undefined, set_trace (fun t => t ++ [ev_pthread_mutex_unlock m]) w).
Proof.
  intros (Hm & Hmu & _).
  unfold UniqueLock.lock, UniqueLock.unlock, Mutex.lock, Mutex.unlock,
    pthread_mutex_lock, pthread_mutex_unlock, mutex_lock_effect, mutex_unlock_effect, bind.
  rewrite Hm. cbn. rewrite Hmu.
  destruct (UniqueLock.m_is_locked l); reflexivity.
Qed.

(** A guard constructed with [defer_lock_tag] and unlocked at once. *)
Lemma UniqueLock_misuse_witness :
  let w := example_world (example_config true true) (quiet_env 0) unlocked unlocked
             (SharedPart_emulation 0 0) 0 in
  (UniqueLock.unlock (UniqueLock.mk 1 false) w).1 = Undefined.
Proof.
  intros w.
  assert (H : guard_inv 1 [] (UniqueLock.mk 1 false) w) by (repeat split).
  rewrite (UniqueLock_misuse 1 [] (UniqueLock.mk 1 false) w H). reflexivity.
Defined.

(** ** CondVar::wait on a robust mutex under emulation: a recovery that fails *)

Lemma keeps_shared_refl (w : World) : keeps_shared w w.
Proof. repeat split. Qed.

Lemma keeps_shared_trans (w1 w2 w3 : World) :
  keeps_shared w1 w2 -> keeps_shared w2 w3 -> keeps_shared w1 w3.
Proof.
  intros (He & Hc & Hs) (He' & Hc' & Hs'). repeat split; try congruence.
  intros Hq. rewrite Hs', Hs; [reflexivity|exact Hq|rewrite He; exact Hq].
Qed.

Lemma bind_thrown {A B} (c : M A) (k : A -> M B) (w w' : World) (e : exn) :
  bind c k w = (Thrown e, w') ->
  c w = (Thrown e, w') \/ exists a w1, c w = (Returned a, w1) /\ k a w1 = (Thrown e, w').
Proof.
  unfold bind. destruct (c w) as [[a|e'| | | |] w1]; intros H; try discriminate.
  - right. eauto.
  - left. simplify_eq. reflexivity.
Qed.

Lemma noexcept_run {A} (c : M A) (w w' : World) (e : exn) :
  noexcept c -> c w <> (Thrown e, w').
Proof. intros Hc H. apply (Hc w e). rewrite H. reflexivity. Qed.

Lemma call_recover_func_keeps_shared (recover_func : recover_func_t) :
  preserves keeps_shared (call_recover_func recover_func).
Proof.
  unfold call_recover_func.
  apply (preserves_bind keeps_shared keeps_shared_trans).
  - apply preserves_log. intros w. repeat split.
  - intros _ w o w' H. destruct (recover_func (protected_data w)) as [r d].
    simplify_eq. repeat split.
Qed.

(** The leaves of the calls of the loop of [wait]. *)
Ltac keeps_shared_leaf :=
  first [ apply call_recover_func_keeps_shared
        | apply preserves_log; intros ?; repeat split
        | apply preserves_modify; intros ?; repeat split; cbn; intros Hq; apply Hq ].

Lemma RobustMutex_lock_keeps_shared (m : addr) (recover_func : recover_func_t) :
  preserves keeps_shared (RobustMutex.lock m recover_func).
Proof.
  pose proof keeps_shared_refl as Hrefl. pose proof keeps_shared_trans as Htrans.
  unfold RobustMutex.lock, RobustMutex.low_level_lock, RobustMutex.mark_as_consistent,
    RobustMutex.unlock, Mutex.unlock, pthread_mutex_unlock, mutex_lock_effect,
    mutex_unlock_effect, mutex_consistent_effect, interference, set_status.
  frame_with keeps_shared_leaf.
Qed.

Lemma wait_robust_loop_keeps_shared (fuel : nat) (this : CondVar.t) (sem m : addr)
    (recover_func : recover_func_t) (c : N) :
  preserves keeps_shared (CondVar.wait_robust_loop fuel this sem m recover_func c).
Proof.
  pose proof keeps_shared_refl as Hrefl. pose proof keeps_shared_trans as Htrans.
  induction fuel as [|fuel IH]; cbn [CondVar.wait_robust_loop]; [frame|].
  apply preserves_bind; try assumption.
  { unfold sem_wait. frame_with keeps_shared_leaf. }
  intros _. apply preserves_bind; try assumption.
  { apply RobustMutex_lock_keeps_shared. }
  intros _. apply preserves_bind; try assumption.
  { unfold CondVar.load_signal_counter, CondVar.load_shared_part.
    frame_with keeps_shared_leaf. }
  intros sc. destruct (negb (sc =? c)%N); [frame|].
  apply preserves_bind; try assumption.
  { unfold sem_post. frame_with keeps_shared_leaf. }
  intros _. apply preserves_bind; try assumption.
  { unfold sched_yield. frame_with keeps_shared_leaf. }
  intros _. apply preserves_bind; try assumption.
  { unfold RobustMutex.unlock, Mutex.unlock, pthread_mutex_unlock, mutex_unlock_effect,
      set_status. frame_with keeps_shared_leaf. }
  intros _. exact IH.
Qed.

Lemma wait_robust_loop_thrown (fuel : nat) :
  forall (this : CondVar.t) (sem m : addr) (recover_func : recover_func_t) (c : N)
         (w w' : World) (e : exn),
    CondVar.wait_robust_loop fuel this sem m recover_func c w = (Thrown e, w') ->
    held_by_caller m w' = false.
Proof.
  induction fuel as [|fuel IH]; intros this sem m recover_func c w w' e H;
    [discriminate|].
  cbn [CondVar.wait_robust_loop] in H.
  apply bind_thrown in H as [H|(? & w1 & _ & H)];
    [exfalso; exact (noexcept_run _ _ _ _ (noexcept_sem_wait sem) H)|].
  apply bind_thrown in H as [H|(? & w2 & _ & H)];
    [exact (RobustMutex_lock_thrown _ _ _ _ _ H)|].
  apply bind_thrown in H as [H|(sc & w3 & _ & H)];
    [exfalso; exact (noexcept_run _ _ _ _ (noexcept_load_signal_counter this) H)|].
  destruct (negb (sc =? c)%N); [discriminate|].
  apply bind_thrown in H as [H|(? & w4 & _ & H)];
    [exfalso; exact (noexcept_run _ _ _ _ (noexcept_sem_post sem) H)|].
  apply bind_thrown in H as [H|(? & w5 & _ & H)]; [discriminate|].
  apply bind_thrown in H as [H|(? & w6 & _ & H)];
    [exfalso; exact (noexcept_run _ _ _ _ (noexcept_Mutex_unlock m) H)|].
  eapply IH. exact H.
Qed.

(** X17.  Under emulation, when [wait(m, recover_func)] ends with an
    exception (the [lock] inside its loop throws: the recovery callback
    threw, or the mutex was found unrecoverable), the caller does not hold
    the mutex and the waiter stays registered: if no other thread has
    written to the shared part, the waiter count is still the incremented
    one and the signal counter is unchanged. *)
Theorem wait_failed_recovery_leaves_waiter (fuel : nat) (this : CondVar.t)
    (sem p m : addr) (recover_func : recover_func_t) (tp : option Z) (sc wt : N)
    (e : exn) (w w' : World) :
  TIGHTDB_CONDVAR_EMULATION (cfg w) = true ->
  CondVar.m_sem this = Some sem ->
  CondVar.m_shared_part this = Some p ->
  shared_memory w !! p = Some (SharedPart_emulation sc wt) ->
  quiet_threads (env w) ->
  CondVar.wait_robust fuel this m recover_func tp w = (Thrown e, w') ->
  held_by_caller m w' = false /\
  shared_memory w' !! p = Some (SharedPart_emulation sc (uint32_incr wt)).
Proof.
  intros He Hsem Hp Hm Hq H. unfold CondVar.wait_robust in H.
  apply bind_thrown in H as [H|(? & w0 & H0 & H)]; [discriminate|].
  cbn in H0. simplify_eq. rewrite He, Hsem in H.
  apply bind_thrown in H as [H|(? & w1 & H1 & H)];
    [exfalso; exact (noexcept_run _ _ _ _ (noexcept_TIGHTDB_ASSERT _) H)|].
  apply TIGHTDB_ASSERT_inv in H1. subst w1.
  apply bind_thrown in H as [H|(? & w1 & H1 & H)];
    [exfalso; exact (noexcept_run _ _ _ _ (noexcept_TIGHTDB_ASSERT _) H)|].
  apply TIGHTDB_ASSERT_inv in H1. subst w1.
  rewrite (bind_run _ _ _ _ _ (incr_waiters_run this w0 p sc wt Hp Hm)) in H.
  erewrite bind_run in H;
    [|apply (load_signal_counter_run this _ p sc (uint32_incr wt) Hp);
      cbn; apply lookup_insert_eq].
  apply bind_thrown in H as [H|(? & w4 & H4 & H)];
    [exfalso; exact (noexcept_run _ _ _ _ (noexcept_Mutex_unlock m) H)|].
  split; [exact (wait_robust_loop_thrown _ _ _ _ _ _ _ _ _ H)|].
  assert (H4' : keeps_shared
                  (set_trace (fun t => t ++ [ev_load_signal_counter p sc])
                     (set_shared_memory
                        (fun sm => <[p := SharedPart_emulation sc (uint32_incr wt)]> sm)
                        (set_trace (fun t => t ++ [ev_load_waiters p wt;
                                                   ev_store_waiters p (uint32_incr wt)]) w0)))
                  w4).
  { revert H4. unfold RobustMutex.unlock, Mutex.unlock, pthread_mutex_unlock,
      mutex_unlock_effect, set_status.
    generalize (set_trace (fun t => t ++ [ev_load_signal_counter p sc])
                  (set_shared_memory
                     (fun sm => <[p := SharedPart_emulation sc (uint32_incr wt)]> sm)
                     (set_trace (fun t => t ++ [ev_load_waiters p wt;
                                                ev_store_waiters p (uint32_incr wt)]) w0))).
    intros w3.
    match goal with |- ?c w3 = _ -> _ =>
      assert (Hpres : preserves keeps_shared c)
    end.
    { pose proof keeps_shared_refl as Hrefl. pose proof keeps_shared_trans as Htrans.
      frame_with keeps_shared_leaf. }
    apply Hpres. }
  pose proof (wait_robust_loop_keeps_shared _ _ _ _ _ _ _ _ _ H) as H5.
  destruct (keeps_shared_trans _ _ _ H4' H5) as (_ & _ & Hs).
  rewrite Hs by exact Hq. cbn. apply lookup_insert_eq.
Qed.

(** The caller holds the robust mutex in the inconsistent state and
    waits: the unlock of [wait] makes the mutex unrecoverable, the lock
    throws, and the waiter count stays at 1. *)
Lemma wait_failed_recovery_leaves_waiter_witness :
  let w := example_world (example_config true true) (quiet_env 0) unlocked
             locked_inconsistent (SharedPart_emulation 7 0) 1 in
  let r := CondVar.wait_robust 1 (CondVar.mk (Some 3) (Some 4) None) 2
             (fun d => (Returned tt, d)) None w in
  r.1 = Thrown NotRecoverable /\
  shared_memory r.2 !! 3 = Some (SharedPart_emulation 7 1).
Proof.
  intros w r.
  assert (Hr : r = (Thrown NotRecoverable, r.2)) by (vm_compute; reflexivity).
  split; [rewrite Hr; reflexivity|].
  refine (proj2 (wait_failed_recovery_leaves_waiter 1 (CondVar.mk (Some 3) (Some 4) None)
                   4 3 2 (fun d => (Returned tt, d)) None 7 0 NotRecoverable w r.2
                   eq_refl eq_refl eq_refl eq_refl _ Hr)).
  intros k sm. reflexivity.
Defined.
